(** * Verification of [unify_tkk_ids.py]

    A shallow embedding of the identifier-unification engine of
    [src/unify_tkk_ids/unify_tkk_ids.py] and the properties stated about it.

    Texts are Python [str] values.  They are modelled as lists of 8-bit
    characters ([list ascii], code points 0..255): on that range the
    regular-expression class [\d] is exactly [0-9].

    The Python [re] module is modelled by a backtracking matcher that returns
    the list of all ways a pattern can match, in the order in which a
    backtracking engine tries them; the match Python reports is the head of
    that list. *)

From Stdlib Require Import Ascii String DecimalString.
From Stdlib Require Import List Arith Bool Lia Relations.
Import ListNotations.

Open Scope list_scope.

(* ------------------------------------------------------------------ *)
(** ** Texts *)

Abbreviation str := (list ascii).

(** String literals of the source, as texts. *)
Definition L (s : string) : str := list_ascii_of_string s.

Definition str_eqb (a b : str) : bool :=
  if list_eq_dec ascii_dec a b then true else false.

(** [s.startswith(a)] *)
Fixpoint startswith (a s : str) : bool :=
  match a, s with
  | [], _ => true
  | _ :: _, [] => false
  | x :: a', y :: s' => Ascii.eqb x y && startswith a' s'
  end.

(** [a in s] for texts: [a] occurs in [s] as a contiguous substring. *)
Fixpoint contains (a s : str) : bool :=
  startswith a s ||
  match s with
  | [] => false
  | _ :: s' => contains a s'
  end.

(** [str(n)] for a natural number. *)
Definition str_of_nat (n : nat) : str :=
  L (NilZero.string_of_uint (Nat.to_uint n)).

(** Python truthiness of a text: non-empty. *)
Definition nonempty (s : str) : bool :=
  match s with [] => false | _ :: _ => true end.

(* ------------------------------------------------------------------ *)
(** ** The regular expressions of the [re] module that the source uses *)

Inductive regex : Type :=
| Eps                                   (* the empty pattern *)
| Chr (p : ascii -> bool)               (* one character of a class *)
| Seq (r1 r2 : regex)                   (* r1 r2 *)
| Alt (r1 r2 : regex)                   (* r1|r2 *)
| Star (greedy : bool) (r : regex)      (* r* and r*? *)
| Group (n : nat) (r : regex)           (* capturing group number n *)
| NotAhead (r : regex).                 (* (?!r) *)

(** A literal character, [c]. *)
Definition Lit (c : ascii) : regex := Chr (Ascii.eqb c).
(** [r+] and [r+?] *)
Definition Plus (greedy : bool) (r : regex) : regex := Seq r (Star greedy r).
(** [r?] *)
Definition Opt (r : regex) : regex := Alt r Eps.
(** A literal text; this is what [re.escape(s)] compiles to. *)
Fixpoint Str (s : str) : regex :=
  match s with
  | [] => Eps
  | c :: s' => Seq (Lit c) (Str s')
  end.

(** A sequence of patterns written one after the other. *)
Definition Cat (rs : list regex) : regex := fold_right Seq Eps rs.

(** Character classes. *)
Definition is_digit (c : ascii) : bool :=
  (48 <=? nat_of_ascii c) && (nat_of_ascii c <=? 57).
Definition not_gt (c : ascii) : bool := negb (Ascii.eqb c ">").
(** The two quote characters of the markup. *)
Definition dq : ascii := Eval cbv in ascii_of_nat 34.
Definition sq : ascii := "'"%char.
Definition is_quote (c : ascii) : bool := Ascii.eqb c dq || Ascii.eqb c sq.
Definition not_quote (c : ascii) : bool := negb (is_quote c).

(** The groups captured so far: group number and captured text. *)
Abbreviation caps := (list (nat * list ascii)).

Fixpoint get_cap (n : nat) (c : caps) : option str :=
  match c with
  | [] => None
  | (k, v) :: c' => if Nat.eqb k n then Some v else get_cap n c'
  end.

(** [match.group(n)]; a group that took no part in the match reads as the
    empty text in [findall]. *)
Definition group (n : nat) (c : caps) : str :=
  match get_cap n c with Some v => v | None => [] end.

(** A matcher state: the text still to be read and the groups captured. *)
Abbreviation mstate := (list ascii * list (nat * list ascii))%type.

(** The text consumed between [s] and its suffix [rest]. *)
Definition consumed (s rest : str) : str :=
  firstn (length s - length rest) s.

(** Repetition.  The body is tried as often as it makes progress; [fuel]
    bounds the number of rounds and is the length of the text, which no
    progressing repetition can exceed. *)
Fixpoint star_loop (step : mstate -> list mstate) (greedy : bool)
         (fuel : nat) (x : mstate) : list mstate :=
  match fuel with
  | 0 => [x]
  | S f =>
    let more :=
      flat_map (fun y =>
                  if length (fst y) <? length (fst x)
                  then star_loop step greedy f y else [])
               (step x) in
    if greedy then more ++ [x] else x :: more
  end.

(** [matches r x]: every way [r] can match at the start of the text of [x],
    in backtracking order. *)
Fixpoint matches (r : regex) (x : mstate) : list mstate :=
  match r with
  | Eps => [x]
  | Chr p =>
    match fst x with
    | c :: s' => if p c then [(s', snd x)] else []
    | [] => []
    end
  | Seq r1 r2 => flat_map (matches r2) (matches r1 x)
  | Alt r1 r2 => matches r1 x ++ matches r2 x
  | Star g r1 => star_loop (matches r1) g (length (fst x)) x
  | Group n r1 =>
    map (fun y => (fst y, (n, consumed (fst x) (fst y)) :: snd y))
        (matches r1 x)
  | NotAhead r1 =>
    match matches r1 x with
    | [] => [x]
    | _ :: _ => []
    end
  end.

(** The result of a successful search: the text before the match, the
    matched text, the text after it, and the captured groups. *)
Record found : Type := mkFound {
  f_before : str;
  f_match : str;
  f_after : str;
  f_caps : caps
}.

Definition shift (c : ascii) (m : found) : found :=
  mkFound (c :: f_before m) (f_match m) (f_after m) (f_caps m).

(** [re.search(r, s)]: the match at the leftmost position that has one. *)
Fixpoint search (r : regex) (s : str) : option found :=
  match matches r (s, []) with
  | y :: _ => Some (mkFound [] (consumed s (fst y)) (fst y) (snd y))
  | [] =>
    match s with
    | [] => None
    | c :: s' => option_map (shift c) (search r s')
    end
  end.

(** [re.finditer(r, s)]: successive leftmost matches that do not overlap;
    after an empty match the scan moves one character on.  [fuel] bounds the
    number of matches; [S (length s)] is enough, since every round consumes
    a character or ends the scan. *)
Fixpoint finditer (fuel : nat) (r : regex) (s : str) : list found :=
  match fuel with
  | 0 => []
  | S f =>
    match search r s with
    | None => []
    | Some m =>
      m :: match f_match m, f_after m with
           | [], [] => []
           | [], _ :: rest => finditer f r rest
           | _ :: _, rest => finditer f r rest
           end
    end
  end.

(** [len(re.findall(r, s))] *)
Definition count_matches (r : regex) (s : str) : nat :=
  length (finditer (S (length s)) r s).

(** [re.sub(r, repl, s)] with a function [repl] of the matched text. *)
Fixpoint sub_loop (fuel : nat) (r : regex) (repl : str -> str) (s : str)
  : str :=
  match fuel with
  | 0 => s
  | S f =>
    match search r s with
    | None => s
    | Some m =>
      f_before m ++ repl (f_match m) ++
      match f_match m, f_after m with
      | [], [] => []
      | [], c :: rest => c :: sub_loop f r repl rest
      | _ :: _, rest => sub_loop f r repl rest
      end
    end
  end.

Definition re_sub (r : regex) (repl : str -> str) (s : str) : str :=
  sub_loop (S (length s)) r repl s.

(** [s.replace(a, b)]: every occurrence of [a], left to right and without
    overlap, becomes [b]. *)
Fixpoint replace_loop (fuel : nat) (a b s : str) : str :=
  match fuel with
  | 0 => s
  | S f =>
    if startswith a s
    then b ++ replace_loop f a b (skipn (length a) s)
    else match s with
         | [] => []
         | c :: s' => c :: replace_loop f a b s'
         end
  end.

Definition str_replace (a b s : str) : str :=
  match a with
  | [] => b ++ flat_map (fun c => c :: b) s
  | _ :: _ => replace_loop (S (length s)) a b s
  end.

(* ------------------------------------------------------------------ *)
(** ** Identifier Extractor *)

(** [Mx?_?(\d+)] *)
Definition moldenhauer_re : regex :=
  Seq (Lit "M") (Seq (Opt (Lit "x")) (Seq (Opt (Lit "_"))
      (Group 1 (Plus true (Chr is_digit))))).

(** [extract_moldenhauer_number(text)], for a text. *)
Definition extract_moldenhauer_number (text : str) : str :=
  match search moldenhauer_re text with
  | Some m => group 1 (f_caps m)
  | None => []
  end.

(** [extract_moldenhauer_number(None)]: [str(None)] is the text [None]. *)
Definition extract_moldenhauer_number_None : str :=
  extract_moldenhauer_number (L "None").

(* ------------------------------------------------------------------ *)
(** ** Relevance Filter *)

(** [TF(\d+)] *)
Definition tf_re : regex :=
  Seq (Str (L "TF")) (Group 1 (Plus true (Chr is_digit))).

(** The sketch token: [Sk], digits, then any number of segments made of
    an underscore and digits; the whole is group 1. *)
Definition sk_re : regex :=
  Group 1 (Cat [Str (L "Sk"); Plus true (Chr is_digit);
                Star true (Seq (Lit "_") (Plus true (Chr is_digit)))]).

(** [rf'{re.escape(sk_identifier)}(?!_)'] *)
Definition sk_file_re (sk_identifier : str) : regex :=
  Seq (Str sk_identifier) (NotAhead (Lit "_")).

Definition is_some {A : Type} (o : option A) : bool :=
  match o with Some _ => true | None => false end.

Definition get_relevant_svgs (new_id : str) (all_svg_files : list str)
           (current_main_number : str) : list str :=
  let matches_moldenhauer_number := fun filename =>
    str_eqb current_main_number (extract_moldenhauer_number filename) in
  if contains (L "SkRT") new_id then
    filter (fun f => matches_moldenhauer_number f
                     && contains (L "Reihentabelle") f) all_svg_files
  else
    let candidate_svg_files :=
      filter (fun f => matches_moldenhauer_number f
                       && negb (contains (L "Reihentabelle") f))
             all_svg_files in
    match search tf_re new_id with
    | Some tf_match =>
      let tf_number := group 1 (f_caps tf_match) in
      filter (fun f => contains (L "Textfassung" ++ tf_number) f)
             candidate_svg_files
    | None =>
      match search sk_re new_id with
      | Some sk_match =>
        let sk_identifier := group 1 (f_caps sk_match) in
        filter (fun f => is_some (search (sk_file_re sk_identifier) f))
               candidate_svg_files
      | None => candidate_svg_files
      end
    end.

(* ------------------------------------------------------------------ *)
(** ** Tag Rewriter *)

(** [[^>]*?] *)
Definition lazy_tag_chars : regex := Star false (Chr not_gt).

(** The attribute texts [id=Qvalue Q] and [class=Qtkk Q] for a quote
    character [Q]. *)
Definition id_attr (q : ascii) (v : str) : str := L "id=" ++ q :: v ++ [q].
Definition class_tkk (q : ascii) : str := L "class=" ++ q :: L "tkk" ++ [q].

(** [<[^>]*?A[^>]*?B[^>]*?>] for two literal texts [A] and [B]. *)
Definition tag_re (a b : str) : regex :=
  Cat [Lit "<"; lazy_tag_chars; Str a; lazy_tag_chars; Str b;
       lazy_tag_chars; Lit ">"].

(** The four patterns of [update_svg_id], in the order of the source. *)
Definition patterns (old_val : str) : list regex :=
  [ tag_re (id_attr dq old_val) (class_tkk dq);
    tag_re (class_tkk dq) (id_attr dq old_val);
    tag_re (id_attr sq old_val) (class_tkk sq);
    tag_re (class_tkk sq) (id_attr sq old_val) ].

Definition total_tkk_matches (svg_content old_val : str) : nat :=
  fold_left (fun total pattern => total + count_matches pattern svg_content)
            (patterns old_val) 0.

Definition ambiguity_message (old_val : str) (n : nat) : str :=
  L "Multiple class='tkk' elements found with ID '" ++ old_val ++
  L "' (" ++ str_of_nat n ++ L " occurrences)".

(** The inner function [replace_id] applied to the matched text. *)
Definition replace_id (old_val new_val full_tag : str) : str :=
  str_replace (id_attr sq old_val) (id_attr sq new_val)
    (str_replace (id_attr dq old_val) (id_attr dq new_val) full_tag).

Definition update_svg_id (svg_content old_val new_val : str)
  : str * option str :=
  let total := total_tkk_matches svg_content old_val in
  if 1 <? total then
    (svg_content, Some (ambiguity_message old_val total))
  else
    (fold_left (fun content pattern =>
                  re_sub pattern (replace_id old_val new_val) content)
               (patterns old_val) svg_content,
     None).

(* ------------------------------------------------------------------ *)
(** ** Structured document *)

(** A block comment: its [svgGroupId] ([None] when the key is absent) and
    its other fields, which the core never reads. *)
Record block : Type := mkBlock {
  svgGroupId : option str;
  block_fields : list (str * str)
}.

(** A comment group and its [blockComments]. *)
Record comment_group : Type := mkGroup {
  blockComments : list block
}.

(** An entry: its [id] ([None] when the key is absent) and
    [entry.get('commentary', {}).get('comments', [])]. *)
Record entry : Type := mkEntry {
  entry_id : option str;
  comments : list comment_group
}.

(** [entry.get('id', '')], as [process_entry] reads it. *)
Definition new_id_of (e : entry) : str :=
  match entry_id e with Some s => s | None => [] end.

(** [entry.get('id', 'Unknown')], as the report reads it. *)
Definition reported_id_of (e : entry) : str :=
  match entry_id e with Some s => s | None => L "Unknown" end.

(** The document: the ordered collection under [textcritics]. *)
Definition document := list entry.

(* ------------------------------------------------------------------ *)
(** ** Dictionaries

    Python dictionaries keep insertion order; they are association lists
    here.  Assigning to a key that is present replaces its value in place,
    assigning to a new key appends it. *)

Fixpoint dict_get {V : Type} (k : str) (d : list (str * V)) : option V :=
  match d with
  | [] => None
  | (k', v) :: d' => if str_eqb k' k then Some v else dict_get k d'
  end.

Fixpoint dict_set {V : Type} (k : str) (v : V) (d : list (str * V))
  : list (str * V) :=
  match d with
  | [] => [(k, v)]
  | (k', v') :: d' =>
    if str_eqb k' k then (k', v) :: d' else (k', v') :: dict_set k v d'
  end.

(* ------------------------------------------------------------------ *)
(** ** Markup files and the caches

    A loaded file is a dictionary object [{"content": .., "path": ..}].
    The transient cache [loaded_svg_texts] and the accumulating cache
    [final_svg_cache] hold references to the same objects, so the objects
    live in a heap and the caches map filenames to heap addresses. *)

Record svg_data : Type := mkSvg {
  content : str;
  path : str
}.

Record caches : Type := mkCaches {
  disk : list (str * str);             (* the markup folder: name, text *)
  heap : list svg_data;
  loaded_svg_texts : list (str * nat);
  final_svg_cache : list (str * nat)
}.

(** Reading a file of the folder.  The names the core reads come from the
    listing of the same folder; a name that is not there reads as the empty
    text. *)
Definition read_file (d : list (str * str)) (filename : str) : str :=
  match dict_get filename d with
  | Some text => text
  | None => []
  end.

Definition deref (h : list svg_data) (ref : nat) : svg_data :=
  nth ref h (mkSvg [] []).

Fixpoint heap_set (h : list svg_data) (ref : nat) (v : svg_data)
  : list svg_data :=
  match h, ref with
  | [], _ => []
  | _ :: h', 0 => v :: h'
  | x :: h', S r => x :: heap_set h' r v
  end.

(** The closure [get_svg_text] made by [create_svg_loader]: the address of
    the loaded object and the caches after the call. *)
Definition get_svg_text (filename : str) (c : caches) : nat * caches :=
  match dict_get filename (loaded_svg_texts c) with
  | Some ref => (ref, c)
  | None =>
    let ref := length (heap c) in
    let obj := mkSvg (read_file (disk c) filename) filename in
    (ref,
     mkCaches (disk c) (heap c ++ [obj])
              (dict_set filename ref (loaded_svg_texts c))
              (dict_set filename ref (final_svg_cache c)))
  end.

(* ------------------------------------------------------------------ *)
(** ** Unification Orchestrator *)

(** The pattern of [process_block_comment]: either attribute order, either
    quote character on each side, the whole in group 1. *)
Definition locate_re (old_val : str) : regex :=
  let q := Chr is_quote in
  let some_tag_chars := Plus false (Chr not_gt) in
  Group 1 (Alt
    (Cat [Lit "<"; some_tag_chars; Str (L "id="); q; Str old_val; q;
          some_tag_chars; Str (L "class="); q; Str (L "tkk"); q])
    (Cat [Lit "<"; some_tag_chars; Str (L "class="); q; Str (L "tkk"); q;
          some_tag_chars; Str (L "id="); q; Str old_val; q;
          lazy_tag_chars; Lit ">"])).

(** The loop that looks for the first relevant file with a qualifying
    element; every file it looks at is loaded. *)
Fixpoint find_in_svgs (old_val : str) (relevant_svgs_for_block : list str)
         (c : caches) : option str * caches :=
  match relevant_svgs_for_block with
  | [] => (None, c)
  | svg_filename :: rest =>
    let (ref, c1) := get_svg_text svg_filename c in
    if is_some (search (locate_re old_val) (content (deref (heap c1) ref)))
    then (Some svg_filename, c1)
    else find_in_svgs old_val rest c1
  end.

Definition TODO : str := L "TODO".
Definition temp_id : str := L "temp_id".

(** The state [process_block_comment] works on: the block, the rename map
    of the entry and the caches. *)
Record block_state : Type := mkBS {
  bs_block : block;
  bs_mapping : list (str * str);
  bs_caches : caches
}.

Definition set_content (c : caches) (ref : nat) (text : str) : caches :=
  mkCaches (disk c)
           (heap_set (heap c) ref (mkSvg text (path (deref (heap c) ref))))
           (loaded_svg_texts c) (final_svg_cache c).

(** The assignment of a new identifier: an old identifier that is not in
    the map yet gets the prefix followed by the size of the map plus one;
    the result is the map afterwards and [id_mapping[old_val]]. *)
Definition assign (old_val : str) (id_mapping : list (str * str))
           (prefix : str) : list (str * str) * str :=
  match dict_get old_val id_mapping with
  | Some new_val => (id_mapping, new_val)
  | None =>
    let new_val := prefix ++ str_of_nat (length id_mapping + 1) in
    (id_mapping ++ [(old_val, new_val)], new_val)
  end.

Definition process_block_comment (b_comment : block)
           (relevant_svgs_for_block : list str)
           (id_mapping : list (str * str)) (prefix : str) (c : caches)
  : bool * block_state :=
  match svgGroupId b_comment with
  | None => (true, mkBS b_comment id_mapping c)
  | Some old_val =>
    if negb (nonempty old_val) || str_eqb old_val TODO
    then (true, mkBS b_comment id_mapping c)
    else
      let (found_in_svg, c1) :=
        find_in_svgs old_val relevant_svgs_for_block c in
      match found_in_svg with
      | Some svg_filename =>
        if nonempty svg_filename then
          let (ref, c2) := get_svg_text svg_filename c1 in
          let text := content (deref (heap c2) ref) in
          match snd (update_svg_id text old_val temp_id) with
          | Some _ => (false, mkBS b_comment id_mapping c2)
          | None =>
            let (id_mapping', new_val) := assign old_val id_mapping prefix in
            let b' := mkBlock (Some new_val) (block_fields b_comment) in
            let text' := fst (update_svg_id text old_val new_val) in
            (true, mkBS b' id_mapping' (set_content c2 ref text'))
          end
        else (false, mkBS b_comment id_mapping c1)
      | None => (false, mkBS b_comment id_mapping c1)
      end
  end.

(** The two nested loops of [process_entry] over the blocks of an entry.
    The outcome of each call is kept next to the block; the source drops
    it. *)
Fixpoint process_blocks (bs : list block) (relevant : list str)
         (id_mapping : list (str * str)) (prefix : str) (c : caches)
  : list (bool * block) * list (str * str) * caches :=
  match bs with
  | [] => ([], id_mapping, c)
  | b :: rest =>
    let (ok, st) := process_block_comment b relevant id_mapping prefix c in
    let '(out, m', c') :=
      process_blocks rest relevant (bs_mapping st) prefix (bs_caches st) in
    ((ok, bs_block st) :: out, m', c')
  end.

Fixpoint process_groups (gs : list comment_group) (relevant : list str)
         (id_mapping : list (str * str)) (prefix : str) (c : caches)
  : list (list (bool * block)) * list (str * str) * caches :=
  match gs with
  | [] => ([], id_mapping, c)
  | g :: rest =>
    let '(out, m1, c1) :=
      process_blocks (blockComments g) relevant id_mapping prefix c in
    let '(outs, m2, c2) := process_groups rest relevant m1 prefix c1 in
    (out :: outs, m2, c2)
  end.

(** Writing every loaded file back to its path. *)
Definition flush (c : caches) : list (str * str) :=
  fold_left (fun d entry_ =>
               let sdata := deref (heap c) (snd entry_) in
               dict_set (path sdata) (content sdata) d)
            (loaded_svg_texts c) (disk c).

(** What [process_entry] leaves behind: the entry, the rename map it built
    (the source discards it on return) and the caches. *)
Record entry_result : Type := mkER {
  er_entry : entry;
  er_outcomes : list (list (bool * block));
  er_mapping : list (str * str);
  er_caches : caches
}.

Definition process_entry (e : entry) (all_svg_files : list str)
           (prefix : str) (c : caches) : entry_result :=
  let new_id := new_id_of e in
  let (relevant_svgs_for_block, c0) :=
    if nonempty new_id then
      let current_main_number := extract_moldenhauer_number new_id in
      (get_relevant_svgs new_id all_svg_files current_main_number,
       mkCaches (flush c) (heap c) [] (final_svg_cache c))
    else ([], c) in
  let '(outs, m, c') :=
    process_groups (comments e) relevant_svgs_for_block [] prefix c0 in
  mkER (mkEntry (entry_id e) (map (fun out => mkGroup (map snd out)) outs))
       outs m c'.

Fixpoint process_entries (es : list entry) (all_svg_files : list str)
         (prefix : str) (c : caches) : list entry * caches :=
  match es with
  | [] => ([], c)
  | e :: rest =>
    let r := process_entry e all_svg_files prefix c in
    let (es', c') := process_entries rest all_svg_files prefix (er_caches r) in
    (er_entry r :: es', c')
  end.

(* ------------------------------------------------------------------ *)
(** ** Validation Reporter *)

Inductive issue : Type :=
| JsonError (val : str) (in_entry : str)       (* unchanged id in an entry *)
| SvgOrphan (found_id : str) (filename : str). (* tkk id not updated *)

(** The pattern [tkk_id_regex]: class before id with the id in group 1, or
    id before class with the id in group 2. *)
Definition tkk_id_regex : regex :=
  let q := Chr is_quote in
  let some_tag_chars := Plus false (Chr not_gt) in
  let value := Plus true (Chr not_quote) in
  Alt
    (Cat [Lit "<"; some_tag_chars; Str (L "class="); q; Str (L "tkk"); q;
          some_tag_chars; Str (L "id="); q; Group 1 value; q])
    (Cat [Lit "<"; some_tag_chars; Str (L "id="); q; Group 2 value; q;
          some_tag_chars; Str (L "class="); q; Str (L "tkk"); q]).

Definition all_blocks (e : entry) : list block :=
  flat_map blockComments (comments e).

Definition json_issues (data : document) (prefix : str) : list issue :=
  flat_map (fun e =>
    flat_map (fun b =>
      match svgGroupId b with
      | Some val =>
        if nonempty val && negb (startswith prefix val)
           && negb (str_eqb val TODO)
        then [JsonError val (reported_id_of e)] else []
      | None => []
      end) (all_blocks e)) data.

(** The orphans of one file: the tkk identifiers of its text that do not
    start with the prefix. *)
Definition orphans_in (prefix filename text : str) : list issue :=
  flat_map (fun m =>
    let found_id :=
      if nonempty (group 1 (f_caps m)) then group 1 (f_caps m)
      else group 2 (f_caps m) in
    if negb (startswith prefix found_id)
    then [SvgOrphan found_id filename] else [])
    (finditer (S (length text)) tkk_id_regex text).

Definition svg_issues (prefix : str) (loaded_svgs : list (str * svg_data))
  : list issue :=
  flat_map (fun fs => orphans_in prefix (fst fs) (content (snd fs)))
           loaded_svgs.

(** [display_uncertainties]: the issues it prints; [errors_found] is their
    number. *)
Definition display_uncertainties (data : document) (prefix : str)
           (loaded_svgs : list (str * svg_data)) : list issue :=
  json_issues data prefix ++ svg_issues prefix loaded_svgs.

(* ------------------------------------------------------------------ *)
(** ** The run *)

(** The file system the run sees: what is at the document path and what
    is at the folder path. *)
Inductive document_file : Type :=
| NoDocument                      (* the path does not exist *)
| NotJson                         (* it exists, [json.load] rejects it *)
| Json (data : document).

Inductive folder : Type :=
| NoFolder                        (* the path does not exist *)
| Unlistable (os_error : str)     (* [os.listdir] raises [OSError] *)
| Listing (files : list (str * str)).   (* name and text, listing order *)

Record filesystem : Type := mkFS {
  json_file : document_file;
  svg_dir : folder
}.

Inductive exn : Type :=
| FileNotFoundError (msg : str)
| PermissionError (msg : str)
| ValueError (msg : str)
| JSONDecodeError.

Inductive result (A : Type) : Type :=
| Ok (a : A)
| Raise (e : exn).
Arguments Ok {A} a.
Arguments Raise {A} e.

(** [c.lower()] on the 8-bit range. *)
Definition lower_char (c : ascii) : ascii :=
  let n := nat_of_ascii c in
  if ((65 <=? n) && (n <=? 90))
     || ((192 <=? n) && (n <=? 222) && negb (n =? 215))
  then ascii_of_nat (n + 32) else c.

Definition endswith (suffix s : str) : bool :=
  startswith (rev suffix) (rev s).

Definition nonempty_list {A : Type} (l : list A) : bool :=
  match l with [] => false | _ :: _ => true end.

Definition is_svg_name (f : str) : bool :=
  endswith (L ".svg") (map lower_char f).

Definition load_and_validate_inputs (fs : filesystem)
           (json_path svg_folder : str) : result (document * list str) :=
  match json_file fs, svg_dir fs with
  | NoDocument, _ =>
    Raise (FileNotFoundError (L "JSON file not found: " ++ json_path))
  | _, NoFolder =>
    Raise (FileNotFoundError (L "SVG folder not found: " ++ svg_folder))
  | NotJson, _ => Raise JSONDecodeError
  | Json data, Unlistable os_error =>
    Raise (PermissionError
             (L "Cannot list contents of SVG folder: " ++ svg_folder
              ++ L " - " ++ os_error))
  | Json data, Listing files =>
    let all_svg_files := filter is_svg_name (map fst files) in
    if nonempty_list all_svg_files
    then Ok (data, all_svg_files)
    else Raise (ValueError
                  (L "No SVG files found in folder: " ++ svg_folder))
  end.

(** What a completed run returns: the document, the accumulating cache,
    the success flag, and the report that was printed. *)
Record outcome : Type := mkOutcome {
  out_data : document;
  out_final_svg_cache : list (str * svg_data);
  out_success : bool;
  out_report : list issue
}.

(** [process_tkk_ids]: what the call returns or raises, and the file system
    it leaves. *)
Definition process_tkk_ids (fs : filesystem) (json_path svg_folder : str)
           (prefix : str) : result outcome * filesystem :=
  match load_and_validate_inputs fs json_path svg_folder with
  | Raise e => (Raise e, fs)
  | Ok (data, all_svg_files) =>
    let files := match svg_dir fs with
                 | Listing files => files
                 | _ => []
                 end in
    let c0 := mkCaches files [] [] [] in
    let (data', c) := process_entries data all_svg_files prefix c0 in
    (* save_results *)
    let files' := flush c in
    let cache := map (fun kv => (fst kv, deref (heap c) (snd kv)))
                     (final_svg_cache c) in
    let report := display_uncertainties data' prefix cache in
    (Ok (mkOutcome data' cache true report),
     mkFS (Json data') (Listing files'))
  end.

(* ------------------------------------------------------------------ *)
(** ** The command-line entry point *)



(* ================================================================== *)
(** * Properties *)

(* ------------------------------------------------------------------ *)
(** ** Texts and dictionaries *)

Lemma str_eqb_eq (a b : str) : str_eqb a b = true <-> a = b.
Proof.
  unfold str_eqb. destruct (list_eq_dec ascii_dec a b); split; congruence.
Qed.

Lemma str_eqb_refl (a : str) : str_eqb a a = true.
Proof. now apply str_eqb_eq. Qed.

Lemma str_eqb_neq (a b : str) : str_eqb a b = false <-> a <> b.
Proof.
  unfold str_eqb. destruct (list_eq_dec ascii_dec a b); split; congruence.
Qed.

Lemma startswith_iff (a s : str) :
  startswith a s = true <-> exists r, s = a ++ r.
Proof.
  revert s. induction a as [|x a IH]; intros s; simpl.
  - split; [eauto | reflexivity].
  - destruct s as [|y s].
    + split; [discriminate | intros [r H]; discriminate].
    + rewrite andb_true_iff, Ascii.eqb_eq, IH. split.
      * intros [-> [r ->]]. now exists r.
      * intros [r H]. injection H as -> ->. eauto.
Qed.

Lemma startswith_app (a r : str) : startswith a (a ++ r) = true.
Proof. apply startswith_iff. now exists r. Qed.

Lemma contains_iff (a s : str) :
  contains a s = true <-> exists u v, s = u ++ a ++ v.
Proof.
  induction s as [|c s IH].
  - simpl. rewrite orb_false_r, startswith_iff. split.
    + intros [r H]. now exists [], r.
    + intros [u [v H]]. destruct u; [now exists v | discriminate].
  - cbn [contains]. rewrite orb_true_iff, IH, startswith_iff. split.
    + intros [[r H] | [u [v H]]].
      * now exists [], r.
      * exists (c :: u), v. now rewrite H.
    + intros [[|c' u] [v H]].
      * left. now exists v.
      * right. injection H as _ H. now exists u, v.
Qed.

Lemma dict_get_set_same {V : Type} (k : str) (v : V) (d : list (str * V)) :
  dict_get k (dict_set k v d) = Some v.
Proof.
  induction d as [|[k' v'] d IH]; simpl.
  - now rewrite str_eqb_refl.
  - destruct (str_eqb k' k) eqn:E; simpl; rewrite E; auto.
Qed.

Lemma dict_get_set_other {V : Type} (k k0 : str) (v : V)
      (d : list (str * V)) :
  k0 <> k -> dict_get k0 (dict_set k v d) = dict_get k0 d.
Proof.
  intros Hne. induction d as [|[k' v'] d IH]; simpl.
  - apply str_eqb_neq in Hne. destruct (str_eqb k k0) eqn:E; auto.
    apply str_eqb_eq in E. apply str_eqb_neq in Hne. congruence.
  - destruct (str_eqb k' k) eqn:E; simpl.
    + apply str_eqb_eq in E. subst k'.
      destruct (str_eqb k k0) eqn:E0; auto.
      apply str_eqb_eq in E0. congruence.
    + destruct (str_eqb k' k0); auto.
Qed.

(* ------------------------------------------------------------------ *)
(** ** The caches *)

(** A file that [get_svg_text] has returned is in the transient cache. *)
Lemma get_svg_text_loaded (f : str) (c : caches) :
  dict_get f (loaded_svg_texts (snd (get_svg_text f c)))
  = Some (fst (get_svg_text f c)).
Proof.
  unfold get_svg_text. destruct (dict_get f (loaded_svg_texts c)) eqn:E.
  - exact E.
  - simpl. apply dict_get_set_same.
Qed.

(** Asking again for a loaded file changes nothing. *)
Lemma get_svg_text_again (f : str) (c : caches) (ref : nat) :
  dict_get f (loaded_svg_texts c) = Some ref ->
  get_svg_text f c = (ref, c).
Proof. intros H. unfold get_svg_text. now rewrite H. Qed.

(** Loading keeps the files that are loaded already. *)
Lemma get_svg_text_keeps (f g : str) (c : caches) (ref : nat) :
  dict_get g (loaded_svg_texts c) = Some ref ->
  dict_get g (loaded_svg_texts (snd (get_svg_text f c))) = Some ref.
Proof.
  intros H. unfold get_svg_text.
  destruct (dict_get f (loaded_svg_texts c)) eqn:E; simpl; auto.
  rewrite dict_get_set_other; auto. congruence.
Qed.

(** The file in which the search stops is loaded afterwards. *)
Lemma find_in_svgs_loaded (old_val : str) (relevant : list str) :
  forall (c c1 : caches) (f : str),
    find_in_svgs old_val relevant c = (Some f, c1) ->
    exists ref, dict_get f (loaded_svg_texts c1) = Some ref.
Proof.
  induction relevant as [|g rest IH]; intros c c1 f H; simpl in H.
  - discriminate.
  - pose proof (get_svg_text_loaded g c) as Hl.
    destruct (get_svg_text g c) as [ref c'] eqn:E. simpl in Hl.
    destruct (is_some _).
    + injection H as <- <-. eauto.
    + eauto.
Qed.

(* ------------------------------------------------------------------ *)
(** ** Tag Rewriter: the probe before a rewrite *)

Lemma update_svg_id_error (text old_val new_val : str) :
  snd (update_svg_id text old_val new_val)
  = if 1 <? total_tkk_matches text old_val
    then Some (ambiguity_message old_val (total_tkk_matches text old_val))
    else None.
Proof. unfold update_svg_id. now destruct (1 <? _). Qed.

(** The text the probe and the rewrite look at: the cached text of the file
    in which the search stopped. *)
Definition cached_text (f : str) (c : caches) : str :=
  content (deref (heap (snd (get_svg_text f c))) (fst (get_svg_text f c))).

(** Markup used in the examples: an opening tag of a [g] element with the
    class first or the identifier first, in the quote character [q]. *)
Definition g_class_id (q : ascii) (ident : str) : str :=
  L "<g " ++ class_tkk q ++ L " " ++ id_attr q ident ++ L ">".
Definition g_id_class (q : ascii) (ident : str) : str :=
  L "<g " ++ id_attr q ident ++ L " " ++ class_tkk q ++ L ">".

(** The text of the test [test_update_svg_id_with_multiple_occurrences],
    on one line. *)
Definition two_tkk_text : str :=
  L "<svg>" ++ g_class_id dq (L "old-id") ++ L "content1</g>"
  ++ g_id_class dq (L "old-id") ++ L "content2</g>"
  ++ L "<g class=" ++ dq :: L "other" ++ dq :: L " "
  ++ id_attr dq (L "old-id") ++ L ">content3</g></svg>".

Definition old_id_block : block := mkBlock (Some (L "old-id")) [].

(** The message of the test: it cites 2 occurrences. *)
Example two_tkk_message :
  snd (update_svg_id two_tkk_text (L "old-id") (L "new-id"))
  = Some (L "Multiple class='tkk' elements found with ID 'old-id' (2 occurrences)").
Proof. vm_compute. reflexivity. Qed.

(** C10. When the probe of [process_block_comment] (the rewrite towards
    [temp_id]) reports no error on the cached text of the located file,
    the rewrite of the same text towards the assigned identifier reports
    none either, and the call stores the rewritten text, sets the block to
    the assigned identifier and returns [True]. *)
Theorem C10_probe_passed_rewrite_applied
        (text old_val : str) (b : block) (relevant : list str)
        (id_mapping : list (str * str)) (prefix f : str) (c c1 : caches) :
  svgGroupId b = Some old_val ->
  nonempty old_val = true -> old_val <> TODO ->
  find_in_svgs old_val relevant c = (Some f, c1) ->
  nonempty f = true ->
  cached_text f c1 = text ->
  snd (update_svg_id text old_val temp_id) = None ->
  snd (update_svg_id text old_val (snd (assign old_val id_mapping prefix)))
  = None
  /\ process_block_comment b relevant id_mapping prefix c
     = (true,
        mkBS (mkBlock (Some (snd (assign old_val id_mapping prefix)))
                      (block_fields b))
             (fst (assign old_val id_mapping prefix))
             (set_content c1 (fst (get_svg_text f c1))
                (fst (update_svg_id text old_val
                        (snd (assign old_val id_mapping prefix)))))).
Proof.
  intros Hb Hne Htodo Hfind Hf Htext Hprobe.
  rewrite update_svg_id_error in Hprobe. split.
  - rewrite update_svg_id_error.
    destruct (1 <? total_tkk_matches text old_val); [discriminate | auto].
  - unfold process_block_comment. rewrite Hb, Hne.
    apply str_eqb_neq in Htodo. rewrite Htodo. simpl.
    rewrite Hfind, Hf.
    destruct (find_in_svgs_loaded _ _ _ _ _ Hfind) as [ref Hl].
    unfold cached_text in Htext.
    rewrite (get_svg_text_again _ _ _ Hl) in *. simpl in Htext |- *.
    rewrite Htext, update_svg_id_error.
    destruct (1 <? total_tkk_matches text old_val); [discriminate |].
    now destruct (assign old_val id_mapping prefix).
Qed.

(** A folder with one markup file holding one qualifying element. *)
Definition one_tkk_text : str :=
  g_class_id dq (L "old-id") ++ L "content</g>".
Definition one_tkk_caches : caches :=
  mkCaches [(L "M_143_test.svg", one_tkk_text)] [] [] [].

Lemma C10_witness :
  snd (update_svg_id one_tkk_text (L "old-id") (L "g-tkk-1")) = None
  /\ process_block_comment old_id_block [L "M_143_test.svg"] []
                           (L "g-tkk-") one_tkk_caches
     = (true,
        mkBS (mkBlock (Some (L "g-tkk-1")) [])
             [(L "old-id", L "g-tkk-1")]
             (mkCaches [(L "M_143_test.svg", one_tkk_text)]
                       [mkSvg (g_class_id dq (L "g-tkk-1") ++ L "content</g>")
                              (L "M_143_test.svg")]
                       [(L "M_143_test.svg", 0)]
                       [(L "M_143_test.svg", 0)])).
Proof.
  exact (C10_probe_passed_rewrite_applied
           one_tkk_text (L "old-id") old_id_block
           [L "M_143_test.svg"] [] (L "g-tkk-") (L "M_143_test.svg")
           one_tkk_caches
           (snd (get_svg_text (L "M_143_test.svg") one_tkk_caches))
           eq_refl eq_refl
           (fun H : L "old-id" = TODO => eq_ind (L "old-id")
              (fun s => match s with
                        | "o"%char :: _ => True
                        | _ => False
                        end) I TODO H)
           eq_refl eq_refl eq_refl eq_refl).
Defined.

(* ------------------------------------------------------------------ *)
(** ** The matcher *)

Fixpoint take_while (p : ascii -> bool) (s : str) : str :=
  match s with
  | c :: s' => if p c then c :: take_while p s' else []
  | [] => []
  end.

Fixpoint drop_while (p : ascii -> bool) (s : str) : str :=
  match s with
  | c :: s' => if p c then drop_while p s' else s
  | [] => []
  end.

Lemma take_drop_while (p : ascii -> bool) (s : str) :
  take_while p s ++ drop_while p s = s.
Proof.
  induction s as [|c s IH]; simpl; auto.
  destruct (p c); simpl; congruence.
Qed.

Lemma consumed_app (u rest : str) : consumed (u ++ rest) rest = u.
Proof.
  unfold consumed. rewrite length_app, Nat.add_sub.
  rewrite firstn_app, Nat.sub_diag, firstn_all. simpl. apply app_nil_r.
Qed.

Lemma consumed_drop_while (p : ascii -> bool) (s : str) :
  consumed s (drop_while p s) = take_while p s.
Proof.
  rewrite <- (take_drop_while p s) at 1. apply consumed_app.
Qed.

Lemma hd_error_app {A : Type} (l1 l2 : list A) :
  hd_error (l1 ++ l2)
  = match hd_error l1 with Some a => Some a | None => hd_error l2 end.
Proof. destruct l1; reflexivity. Qed.

(** The first way a greedy repetition of a character class matches: it
    takes every leading character of the class. *)
Lemma star_greedy_class_first (p : ascii -> bool) :
  forall (fuel : nat) (s : str) (c : caps),
    length s <= fuel ->
    hd_error (star_loop (matches (Chr p)) true fuel (s, c))
    = Some (drop_while p s, c).
Proof.
  induction fuel as [|f IH]; intros s c Hlen.
  - destruct s; [reflexivity | simpl in Hlen; lia].
  - destruct s as [|a s]; [reflexivity |].
    cbn [star_loop matches fst snd]. simpl in Hlen.
    destruct (p a) eqn:Hp; cbn [flat_map fst length drop_while];
      rewrite ?Hp; [| reflexivity].
    replace (length s <? S (length s)) with true
      by (symmetry; apply Nat.ltb_lt; lia).
    rewrite app_nil_r, hd_error_app, IH by lia. reflexivity.
Qed.

(** The first way [(p+)] matches as group [n]: the leading run of the class,
    when it is not empty. *)
Lemma group_plus_class_first (n : nat) (p : ascii -> bool) (s : str)
      (c : caps) :
  hd_error (matches (Group n (Plus true (Chr p))) (s, c))
  = if nonempty (take_while p s)
    then Some (drop_while p s, (n, take_while p s) :: c)
    else None.
Proof.
  destruct s as [|a s]; [reflexivity |].
  cbn [matches Plus fst snd take_while drop_while].
  destruct (p a) eqn:Hp; [| reflexivity].
  cbn [flat_map nonempty]. rewrite app_nil_r.
  pose proof (star_greedy_class_first p (length s) s c (le_n _)) as H.
  destruct (star_loop _ _ _ _) as [|y l]; [discriminate |].
  injection H as ->. cbn [map hd_error fst snd].
  pose proof (consumed_drop_while p (a :: s)) as Hc.
  cbn [take_while drop_while] in Hc. rewrite Hp in Hc. now rewrite Hc.
Qed.

(** Dropping one optional leading character. *)
Definition strip_opt (ch : ascii) (s : str) : str :=
  match s with
  | c :: s' => if Ascii.eqb ch c then s' else s
  | [] => []
  end.

(** [ch?r] when [r] cannot start with [ch]: the character is taken when it
    is there. *)
Lemma opt_lit_first (ch : ascii) (r : regex) (s : str) (c : caps) :
  (forall s' c', matches r (ch :: s', c') = []) ->
  hd_error (matches (Seq (Opt (Lit ch)) r) (s, c))
  = hd_error (matches r (strip_opt ch s, c)).
Proof.
  intros Hr. cbn [matches Opt Lit fst snd strip_opt].
  destruct s as [|a s]; [cbn; now rewrite app_nil_r |].
  cbn [strip_opt]. destruct (Ascii.eqb ch a) eqn:E.
  - cbn [app flat_map]. apply Ascii.eqb_eq in E. subst a.
    rewrite Hr, !app_nil_r. reflexivity.
  - cbn [app flat_map]. now rewrite app_nil_r.
Qed.

Lemma seq_lit (ch : ascii) (r : regex) (s : str) (c : caps) :
  matches (Seq (Lit ch) r) (s, c)
  = match s with
    | a :: s' => if Ascii.eqb ch a then matches r (s', c) else []
    | [] => []
    end.
Proof.
  cbn [matches Lit fst snd]. destruct s as [|a s]; [reflexivity |].
  destruct (Ascii.eqb ch a); [cbn; apply app_nil_r | reflexivity].
Qed.

Lemma search_unfold (r : regex) (s : str) :
  search r s
  = match hd_error (matches r (s, [])) with
    | Some y => Some (mkFound [] (consumed s (fst y)) (fst y) (snd y))
    | None =>
      match s with
      | [] => None
      | c :: s' => option_map (shift c) (search r s')
      end
    end.
Proof. destruct s; simpl; destruct (matches r _); reflexivity. Qed.

(* ------------------------------------------------------------------ *)
(** ** Identifier Extractor *)

(** The catalog number as the text of the module describes it: at the
    first [M] that is followed, after an optional [x] and an optional
    underscore, by a digit, the run of digits that starts there. *)
Fixpoint first_marker_digits (s : str) : str :=
  match s with
  | [] => []
  | c :: s' =>
    let run := take_while is_digit (strip_opt "_" (strip_opt "x" s')) in
    if Ascii.eqb c "M" && nonempty run then run
    else first_marker_digits s'
  end.

Lemma digits_group_not_at (ch : ascii) (s : str) (c : caps) :
  is_digit ch = false ->
  matches (Group 1 (Plus true (Chr is_digit))) (ch :: s, c) = [].
Proof. intros H. cbn. now rewrite H. Qed.

Lemma moldenhauer_first (s : str) :
  hd_error (matches moldenhauer_re (s, []))
  = match s with
    | c :: s' =>
      let u := strip_opt "_" (strip_opt "x" s') in
      if Ascii.eqb c "M" && nonempty (take_while is_digit u)
      then Some (drop_while is_digit u, [(1, take_while is_digit u)])
      else None
    | [] => None
    end.
Proof.
  destruct s as [|a s]; [reflexivity |].
  unfold moldenhauer_re. rewrite seq_lit.
  destruct (Ascii.eqb "M" a) eqn:E.
  - rewrite (Ascii.eqb_sym a), E. cbn [andb].
    rewrite opt_lit_first.
    + rewrite opt_lit_first.
      * rewrite group_plus_class_first.
        now destruct (nonempty _).
      * intros; now apply digits_group_not_at.
    + intros s' c'.
      assert (H : hd_error
                    (matches (Seq (Opt (Lit "_"))
                                  (Group 1 (Plus true (Chr is_digit))))
                             ("x"%char :: s', c')) = None).
      { rewrite opt_lit_first.
        - cbn [strip_opt]. simpl (Ascii.eqb _ _). cbv iota.
          now rewrite digits_group_not_at.
        - intros; now apply digits_group_not_at. }
      destruct (matches _ _); [reflexivity | discriminate].
  - rewrite (Ascii.eqb_sym a), E. reflexivity.
Qed.

(** The extractor computes the described number, for every text. *)
Lemma extract_is_first_marker_digits (text : str) :
  extract_moldenhauer_number text = first_marker_digits text.
Proof.
  unfold extract_moldenhauer_number.
  induction text as [|a s IH].
  - reflexivity.
  - rewrite search_unfold, moldenhauer_first. cbn [first_marker_digits].
    cbv zeta.
    destruct (Ascii.eqb a "M" && nonempty _) eqn:E.
    + reflexivity.
    + rewrite <- IH. destruct (search moldenhauer_re s); reflexivity.
Qed.

(** A text starts with a marker: [M], then an optional [x], then an
    optional underscore, then a digit. *)
Definition is_marker_start (s : str) : bool :=
  match s with
  | "M"%char :: "x"%char :: "_"%char :: d :: _ => is_digit d
  | "M"%char :: "x"%char :: d :: _ => is_digit d
  | "M"%char :: "_"%char :: d :: _ => is_digit d
  | "M"%char :: d :: _ => is_digit d
  | _ => false
  end.

(** Nothing that [starts] recognises begins at a position inside [pre] of
    the text [pre ++ s]. *)
Fixpoint none_inside (starts : str -> bool) (pre s : str) : bool :=
  match pre with
  | [] => true
  | _ :: pre' => negb (starts (pre ++ s)) && none_inside starts pre' s
  end.

(** The first character of a text is not a digit (or there is none). *)
Definition no_leading_digit (s : str) : bool :=
  match s with
  | c :: _ => negb (is_digit c)
  | [] => true
  end.

Lemma nonempty_take_while (p : ascii -> bool) (s : str) :
  nonempty (take_while p s)
  = match s with c :: _ => p c | [] => false end.
Proof. destruct s as [|c s]; simpl; auto. now destruct (p c). Qed.

Lemma is_marker_start_run (c : ascii) (s : str) :
  is_marker_start (c :: s)
  = Ascii.eqb c "M"
    && nonempty (take_while is_digit (strip_opt "_" (strip_opt "x" s))).
Proof.
  rewrite nonempty_take_while.
  destruct (Ascii.eqb c "M") eqn:E.
  - apply Ascii.eqb_eq in E. subst c. cbn [andb is_marker_start].
    destruct s as [|a s]; [reflexivity |].
    cbn [strip_opt].
    destruct (Ascii.eqb "x" a) eqn:Ex.
    + apply Ascii.eqb_eq in Ex. subst a.
      destruct s as [|b s]; [reflexivity |]. cbn [strip_opt].
      destruct (Ascii.eqb "_" b) eqn:Eu.
      * apply Ascii.eqb_eq in Eu. subst b. now destruct s.
      * destruct b as [[] [] [] [] [] [] [] []]; try reflexivity;
          discriminate.
    + cbn [strip_opt]. destruct (Ascii.eqb "_" a) eqn:Eu.
      * apply Ascii.eqb_eq in Eu. subst a. now destruct s.
      * destruct a as [[] [] [] [] [] [] [] []]; try reflexivity;
          discriminate.
  - cbn [andb]. destruct c as [[] [] [] [] [] [] [] []];
      try reflexivity; discriminate.
Qed.

Lemma first_marker_digits_skip (pre s : str) :
  none_inside is_marker_start pre s = true ->
  first_marker_digits (pre ++ s) = first_marker_digits s.
Proof.
  induction pre as [|c pre IH]; intros H; [reflexivity |].
  cbn [none_inside] in H. apply andb_true_iff in H as [H1 H2].
  cbn [app first_marker_digits]. cbv zeta.
  cbn [app] in H1. rewrite is_marker_start_run in H1.
  apply negb_true_iff in H1. rewrite H1. auto.
Qed.

Lemma take_while_app_stop (p : ascii -> bool) (d rest : str) :
  forallb p d = true ->
  match rest with c :: _ => p c = false | [] => True end ->
  take_while p (d ++ rest) = d.
Proof.
  intros Hd Hr. induction d as [|a d IH]; simpl in *.
  - destruct rest as [|c rest]; simpl; auto. now rewrite Hr.
  - apply andb_true_iff in Hd as [Ha Hd]. rewrite Ha. f_equal. auto.
Qed.

(** C5, in the form that holds: the separator is an underscore.
    A text in which the first marker is [M], an optional [x], an optional
    underscore and the digit run [d] yields exactly [d]; a text in which
    no marker starts
    yields the empty text, and so do the empty text and [None]. *)
Theorem C5_extract_first_marker :
  (forall (pre x u d rest : str),
      (x = [] \/ x = L "x") -> (u = [] \/ u = L "_") ->
      nonempty d = true -> forallb is_digit d = true ->
      no_leading_digit rest = true ->
      none_inside is_marker_start pre (L "M" ++ x ++ u ++ d ++ rest) = true ->
      extract_moldenhauer_number (pre ++ L "M" ++ x ++ u ++ d ++ rest) = d)
  /\ (forall text : str,
         none_inside is_marker_start text [] = true ->
         extract_moldenhauer_number text = [])
  /\ extract_moldenhauer_number [] = []
  /\ extract_moldenhauer_number_None = [].
Proof.
  split; [| split; [| split; vm_compute; reflexivity]].
  - intros pre x u d rest Hx Hu Hne Hd Hrest Hpre.
    rewrite extract_is_first_marker_digits, first_marker_digits_skip by auto.
    assert (Hrun : take_while is_digit (d ++ rest) = d).
    { apply take_while_app_stop; auto.
      destruct rest as [|c rest]; simpl in *; auto.
      now apply negb_true_iff. }
    assert (Hd0 : exists a d', d = a :: d' /\ is_digit a = true).
    { destruct d as [|a d']; [discriminate |]. simpl in Hd.
      apply andb_true_iff in Hd as [Ha _]. eauto. }
    destruct Hd0 as [a [d' [-> Ha]]].
    assert (Hnx : Ascii.eqb "x" a = false)
      by (destruct a as [[] [] [] [] [] [] [] []]; try reflexivity;
          discriminate).
    assert (Hnu : Ascii.eqb "_" a = false)
      by (destruct a as [[] [] [] [] [] [] [] []]; try reflexivity;
          discriminate).
    cbn [L list_ascii_of_string app first_marker_digits]. cbv zeta.
    cbn [app] in Hrun |- *.
    assert (Hs : strip_opt "_" (strip_opt "x" (x ++ u ++ a :: d' ++ rest))
                 = a :: d' ++ rest).
    { destruct Hx as [-> | ->], Hu as [-> | ->];
        cbn [L list_ascii_of_string app strip_opt];
        rewrite ?Ascii.eqb_refl, ?Hnx, ?Hnu; try reflexivity.
      all: cbn [strip_opt]; now rewrite Hnu. }
    rewrite Hs, Hrun. reflexivity.
  - intros text H. rewrite extract_is_first_marker_digits.
    rewrite <- (app_nil_r text). now rewrite first_marker_digits_skip.
Qed.

Lemma C5_witness :
  extract_moldenhauer_number (L "op25_Mx_136_Sk1") = L "136".
Proof.
  apply (proj1 C5_extract_first_marker
               (L "op25_") (L "x") (L "_") (L "136") (L "_Sk1"));
    try reflexivity; auto.
Defined.

(** A separator other than the underscore is not accepted. *)
Lemma C5_counterexample_hyphen :
  extract_moldenhauer_number (L "M-143") = [].
Proof. vm_compute. reflexivity. Qed.

(* ------------------------------------------------------------------ *)
(** ** Searching for the first start *)

Lemma matches_Str (a s : str) (c : caps) :
  matches (Str a) (s, c)
  = if startswith a s then [(skipn (length a) s, c)] else [].
Proof.
  revert s. induction a as [|x a IH]; intros s; [reflexivity |].
  cbn [Str]. rewrite seq_lit. destruct s as [|y s]; [reflexivity |].
  cbn [startswith length skipn]. destruct (Ascii.eqb x y); [apply IH | auto].
Qed.

Lemma seq_Str (a : str) (r : regex) (s : str) (c : caps) :
  matches (Seq (Str a) r) (s, c)
  = if startswith a s then matches r (skipn (length a) s, c) else [].
Proof.
  cbn [matches]. rewrite matches_Str.
  destruct (startswith a s); [cbn; apply app_nil_r | reflexivity].
Qed.

Lemma plus_class_first (p : ascii -> bool) (s : str) (c : caps) :
  hd_error (matches (Plus true (Chr p)) (s, c))
  = if nonempty (take_while p s) then Some (drop_while p s, c) else None.
Proof.
  destruct s as [|a s]; [reflexivity |].
  cbn [matches Plus fst snd take_while drop_while].
  destruct (p a) eqn:Hp; [| reflexivity].
  cbn [flat_map nonempty]. rewrite app_nil_r.
  apply star_greedy_class_first. apply le_n.
Qed.

(** A pattern matches at the start of a text. *)
Definition matches_at (r : regex) (s : str) : bool :=
  is_some (hd_error (matches r (s, []))).

Definition prepend (pre : str) (m : found) : found :=
  mkFound (pre ++ f_before m) (f_match m) (f_after m) (f_caps m).

Lemma none_inside_ext (P Q : str -> bool) (pre s : str) :
  (forall t, P t = Q t) -> none_inside P pre s = none_inside Q pre s.
Proof.
  intros H. induction pre as [|c pre IH]; [reflexivity |].
  cbn [none_inside]. now rewrite H, IH.
Qed.

(** A search skips a stretch of text in which the pattern matches
    nowhere. *)
Lemma search_skip (r : regex) (pre s : str) :
  none_inside (matches_at r) pre s = true ->
  search r (pre ++ s) = option_map (prepend pre) (search r s).
Proof.
  induction pre as [|c pre IH]; intros H.
  - cbn [app]. destruct (search r s) as [[b m a g]|]; reflexivity.
  - cbn [none_inside] in H. apply andb_true_iff in H as [H1 H2].
    apply negb_true_iff in H1. unfold matches_at in H1.
    rewrite search_unfold. cbn [app] in H1 |- *.
    destruct (hd_error (matches r _)); [discriminate |].
    rewrite IH by assumption.
    destruct (search r s) as [[b m a g]|]; reflexivity.
Qed.

Lemma search_none (r : regex) (text : str) :
  none_inside (matches_at r) text [] = true ->
  matches_at r [] = false ->
  search r text = None.
Proof.
  intros H H0. rewrite <- (app_nil_r text), search_skip by assumption.
  rewrite search_unfold. unfold matches_at in H0.
  destruct (hd_error (matches r _)); [discriminate | reflexivity].
Qed.

Lemma search_at (r : regex) (s : str) (y : mstate) :
  hd_error (matches r (s, [])) = Some y ->
  search r s = Some (mkFound [] (consumed s (fst y)) (fst y) (snd y)).
Proof. intros H. now rewrite search_unfold, H. Qed.

(* ------------------------------------------------------------------ *)
(** ** Relevance Filter: the text version marker *)

(** A text starts with [TF] and a digit. *)
Definition starts_tf (s : str) : bool :=
  match s with
  | "T"%char :: "F"%char :: d :: _ => is_digit d
  | _ => false
  end.

Lemma starts_tf_run (s : str) :
  starts_tf s
  = startswith (L "TF") s
    && nonempty (take_while is_digit (skipn 2 s)).
Proof.
  rewrite nonempty_take_while.
  destruct s as [|a [|b s]].
  - reflexivity.
  - cbn. destruct (Ascii.eqb "T" a) eqn:E; [| ].
    + apply Ascii.eqb_eq in E. now subst a.
    + destruct a as [[] [] [] [] [] [] [] []]; try reflexivity; discriminate.
  - cbn [startswith L list_ascii_of_string skipn andb].
    destruct (Ascii.eqb "T" a) eqn:Ea.
    + apply Ascii.eqb_eq in Ea. subst a.
      destruct (Ascii.eqb "F" b) eqn:Eb.
      * apply Ascii.eqb_eq in Eb. subst b. cbn. now destruct s.
      * cbn [andb]. destruct b as [[] [] [] [] [] [] [] []];
          try reflexivity; discriminate.
    + cbn [andb]. destruct a as [[] [] [] [] [] [] [] []];
        try reflexivity; discriminate.
Qed.

Lemma tf_first (s : str) :
  hd_error (matches tf_re (s, []))
  = if starts_tf s
    then Some (drop_while is_digit (skipn 2 s),
               [(1, take_while is_digit (skipn 2 s))])
    else None.
Proof.
  rewrite starts_tf_run. unfold tf_re. rewrite seq_Str.
  destruct (startswith (L "TF") s); [| reflexivity].
  rewrite group_plus_class_first. reflexivity.
Qed.

Lemma matches_at_tf (s : str) : matches_at tf_re s = starts_tf s.
Proof. unfold matches_at. rewrite tf_first. now destruct (starts_tf s). Qed.

(** The number of the text version marker of an identifier. *)
Lemma tf_number_of (pre d rest : str) :
  nonempty d = true -> forallb is_digit d = true ->
  no_leading_digit rest = true ->
  none_inside starts_tf pre (L "TF" ++ d ++ rest) = true ->
  option_map (fun m => group 1 (f_caps m))
             (search tf_re (pre ++ L "TF" ++ d ++ rest))
  = Some d.
Proof.
  intros Hne Hd Hrest Hpre.
  rewrite search_skip
    by (rewrite (none_inside_ext _ starts_tf); auto using matches_at_tf).
  assert (Hrun : take_while is_digit (d ++ rest) = d).
  { apply take_while_app_stop; auto.
    destruct rest as [|c rest]; simpl in *; auto.
    now apply negb_true_iff. }
  rewrite search_unfold, tf_first, starts_tf_run.
  cbn [L list_ascii_of_string app startswith skipn].
  rewrite !Ascii.eqb_refl, Hrun, Hne. reflexivity.
Qed.

(** The filter of the text version branch, written once. *)
Definition tf_relevant (num d : str) (f : str) : bool :=
  str_eqb num (extract_moldenhauer_number f)
  && negb (contains (L "Reihentabelle") f)
  && contains (L "Textfassung" ++ d) f.

Lemma filter_filter {A : Type} (p q : A -> bool) (l : list A) :
  filter q (filter p l) = filter (fun a => p a && q a) l.
Proof.
  induction l as [|a l IH]; [reflexivity |]. simpl.
  destruct (p a); simpl; [destruct (q a) |]; congruence.
Qed.

(** C2, in the form that holds: the digits are matched as a substring.
    For an identifier without [SkRT] whose first text version marker is [TF]
    followed by the digit run [d], the Relevance Filter returns, in input
    order, exactly the filenames with the entry's catalog number that do
    not contain [Reihentabelle] and contain [Textfassung] followed by [d]
    anywhere; what follows [d] in the filename is not looked at. *)
Theorem C2_tf_filter
        (pre d rest : str) (all_svg_files : list str) (num : str) :
  contains (L "SkRT") (pre ++ L "TF" ++ d ++ rest) = false ->
  nonempty d = true -> forallb is_digit d = true ->
  no_leading_digit rest = true ->
  none_inside starts_tf pre (L "TF" ++ d ++ rest) = true ->
  get_relevant_svgs (pre ++ L "TF" ++ d ++ rest) all_svg_files num
  = filter (tf_relevant num d) all_svg_files
  /\ forall f,
      In f (get_relevant_svgs (pre ++ L "TF" ++ d ++ rest) all_svg_files num)
      <-> In f all_svg_files
          /\ extract_moldenhauer_number f = num
          /\ ~ (exists u v, f = u ++ L "Reihentabelle" ++ v)
          /\ exists u v, f = u ++ (L "Textfassung" ++ d) ++ v.
Proof.
  intros Hrt Hne Hd Hrest Hpre.
  assert (Heq : get_relevant_svgs (pre ++ L "TF" ++ d ++ rest)
                                  all_svg_files num
                = filter (tf_relevant num d) all_svg_files).
  { unfold get_relevant_svgs. rewrite Hrt.
    pose proof (tf_number_of pre d rest Hne Hd Hrest Hpre) as Htf.
    destruct (search tf_re _) as [m|]; [| discriminate].
    injection Htf as ->. rewrite filter_filter. reflexivity. }
  split; [exact Heq |].
  intros f. rewrite Heq, filter_In. unfold tf_relevant.
  rewrite !andb_true_iff, negb_true_iff, str_eqb_eq, contains_iff.
  rewrite <- not_true_iff_false, contains_iff.
  split.
  - intros [Hin [[H1 H2] H3]]. auto.
  - intros [Hin [H1 [H2 H3]]]. auto.
Qed.

Lemma C2_witness :
  get_relevant_svgs (L "M_143_TF1")
    [L "M143_Textfassung1-1von2-final.svg";
     L "M143_Textfassung2-1von1-final.svg";
     L "M143_Sk1-1von1-final.svg"] (L "143")
  = [L "M143_Textfassung1-1von2-final.svg"].
Proof.
  apply (proj1 (C2_tf_filter (L "M_143_") (L "1") []
                  [L "M143_Textfassung1-1von2-final.svg";
                   L "M143_Textfassung2-1von1-final.svg";
                   L "M143_Sk1-1von1-final.svg"] (L "143")
                  eq_refl eq_refl eq_refl eq_refl eq_refl)).
Defined.

(** [TF1] also selects a file of text version 10. *)
Lemma C2_counterexample_textfassung10 :
  get_relevant_svgs (L "M_143_TF1")
    [L "M143_Textfassung10-1von1-final.svg"] (L "143")
  = [L "M143_Textfassung10-1von1-final.svg"].
Proof. vm_compute. reflexivity. Qed.

(* ------------------------------------------------------------------ *)
(** ** Relevance Filter: the sketch marker *)

Definition starts_digit (s : str) : bool :=
  match s with
  | c :: _ => is_digit c
  | [] => false
  end.

(** What is left of a text after the segments of a sketch token: with
    [in_run] the digits of the current run are dropped first; then every
    underscore that is followed by a digit starts a new run. *)
Fixpoint skip_segments (in_run : bool) (s : str) : str :=
  match s with
  | c :: s' =>
    if (in_run && is_digit c) || (Ascii.eqb c "_" && starts_digit s')
    then skip_segments true s'
    else s
  | [] => []
  end.

(** A text starts with [Sk] and a digit. *)
Definition starts_sk (s : str) : bool :=
  match s with
  | "S"%char :: "k"%char :: d :: _ => is_digit d
  | _ => false
  end.

(** A sketch token: [Sk], a digit run, then segments of an underscore and
    a digit run, and nothing else. *)
Definition is_sk_token (tok : str) : bool :=
  starts_sk tok && negb (nonempty (skip_segments true (skipn 2 tok))).

(** A text goes on with a digit or with an underscore and a digit: after a
    sketch token it would extend the token. *)
Definition extends_token (s : str) : bool :=
  starts_digit s ||
  match s with
  | c :: s' => Ascii.eqb c "_" && starts_digit s'
  | [] => false
  end.

Lemma digit_not_underscore (c : ascii) :
  is_digit c = true -> Ascii.eqb c "_" = false.
Proof.
  destruct c as [[] [] [] [] [] [] [] []]; try reflexivity; discriminate.
Qed.

Lemma skip_segments_run (s : str) :
  skip_segments true s = skip_segments false (drop_while is_digit s).
Proof.
  induction s as [|c s IH]; [reflexivity |].
  cbn [skip_segments drop_while andb].
  destruct (is_digit c) eqn:Hd; [exact IH | reflexivity].
Qed.

Lemma length_drop_while (p : ascii -> bool) (s : str) :
  length (drop_while p s) <= length s.
Proof.
  induction s as [|c s IH]; simpl; auto. destruct (p c); simpl; lia.
Qed.

Definition segment_re : regex := Seq (Lit "_") (Plus true (Chr is_digit)).

Lemma segment_step (s : str) (c : caps) :
  matches segment_re (s, c)
  = match s with
    | a :: s' =>
      if Ascii.eqb "_" a then matches (Plus true (Chr is_digit)) (s', c)
      else []
    | [] => []
    end.
Proof. unfold segment_re. apply seq_lit. Qed.

(** The first way the greedy repetition of segments matches: it takes
    every segment there is. *)
Lemma star_segments_first :
  forall (fuel : nat) (s : str) (c : caps),
    length s <= fuel ->
    hd_error (star_loop (matches segment_re) true fuel (s, c))
    = Some (skip_segments false s, c).
Proof.
  induction fuel as [|f IH]; intros s c Hlen.
  - destruct s; [reflexivity | simpl in Hlen; lia].
  - cbn [star_loop]. rewrite segment_step.
    destruct s as [|a s]; [reflexivity |].
    cbn [skip_segments andb orb]. rewrite (Ascii.eqb_sym a).
    destruct (Ascii.eqb "_" a) eqn:Ea; [| reflexivity].
    pose proof (plus_class_first is_digit s c) as Hp.
    rewrite nonempty_take_while in Hp.
    destruct (matches (Plus true (Chr is_digit)) (s, c)) as [|y l].
    + destruct s as [|b s]; [reflexivity |].
      simpl in Hp. cbn [starts_digit andb].
      destruct (is_digit b); [discriminate | reflexivity].
    + destruct s as [|b s]; [now simpl in Hp |].
      simpl in Hp. cbn [starts_digit andb].
      destruct (is_digit b) eqn:Hb; [| discriminate].
      injection Hp as ->.
      cbn [flat_map fst length].
      pose proof (length_drop_while is_digit s) as Hl.
      simpl in Hlen.
      replace (length (drop_while is_digit s) <? S (S (length s)))
        with true by (symmetry; apply Nat.ltb_lt; lia).
      rewrite <- app_assoc, hd_error_app, IH by lia.
      rewrite (skip_segments_run (b :: s)). cbn [drop_while].
      now rewrite Hb.
Qed.

Lemma starts_sk_run (s : str) :
  starts_sk s = startswith (L "Sk") s && starts_digit (skipn 2 s).
Proof.
  destruct s as [|a [|b s]].
  - reflexivity.
  - cbn. destruct (Ascii.eqb "S" a) eqn:E.
    + apply Ascii.eqb_eq in E. now subst a.
    + destruct a as [[] [] [] [] [] [] [] []]; try reflexivity; discriminate.
  - cbn [startswith L list_ascii_of_string skipn andb].
    destruct (Ascii.eqb "S" a) eqn:Ea.
    + apply Ascii.eqb_eq in Ea. subst a.
      destruct (Ascii.eqb "k" b) eqn:Eb.
      * apply Ascii.eqb_eq in Eb. subst b. cbn. now destruct s.
      * cbn [andb]. destruct b as [[] [] [] [] [] [] [] []];
          try reflexivity; discriminate.
    + cbn [andb]. destruct a as [[] [] [] [] [] [] [] []];
        try reflexivity; discriminate.
Qed.

Lemma seq_first (r1 r2 : regex) (x y z : mstate) :
  hd_error (matches r1 x) = Some y ->
  hd_error (matches r2 y) = Some z ->
  hd_error (matches (Seq r1 r2) x) = Some z.
Proof.
  intros H1 H2. cbn [matches].
  destruct (matches r1 x) as [|y' l]; [discriminate |].
  injection H1 as ->. cbn [flat_map]. now rewrite hd_error_app, H2.
Qed.

Lemma seq_none (r1 r2 : regex) (x : mstate) :
  hd_error (matches r1 x) = None ->
  hd_error (matches (Seq r1 r2) x) = None.
Proof.
  intros H1. cbn [matches].
  destruct (matches r1 x); [reflexivity | discriminate].
Qed.

Lemma group_first (n : nat) (r : regex) (x : mstate) :
  hd_error (matches (Group n r) x)
  = option_map (fun y => (fst y, (n, consumed (fst x) (fst y)) :: snd y))
               (hd_error (matches r x)).
Proof. cbn [matches]. now destruct (matches r x). Qed.

Lemma sk_first (s : str) :
  hd_error (matches sk_re (s, []))
  = if starts_sk s
    then Some (skip_segments true (skipn 2 s),
               [(1, consumed s (skip_segments true (skipn 2 s)))])
    else None.
Proof.
  rewrite starts_sk_run. unfold sk_re, Cat. cbn [fold_right].
  rewrite group_first.
  destruct (startswith (L "Sk") s) eqn:Hsk; cbn [andb].
  - pose proof (plus_class_first is_digit (skipn 2 s) []) as Hp.
    rewrite nonempty_take_while in Hp. fold (starts_digit (skipn 2 s)) in Hp.
    destruct (starts_digit (skipn 2 s)).
    + rewrite (seq_first _ _ _ (skipn 2 s, [])
                         (skip_segments true (skipn 2 s), [])).
      * reflexivity.
      * now rewrite matches_Str, Hsk.
      * eapply seq_first; [exact Hp |].
        eapply seq_first; [| reflexivity].
        cbn [matches fst]. rewrite star_segments_first by apply le_n.
        now rewrite skip_segments_run.
    + rewrite seq_Str, Hsk. now rewrite seq_none.
  - now rewrite seq_Str, Hsk.
Qed.

Lemma skip_segments_stop (b : bool) (rest : str) :
  extends_token rest = false -> skip_segments b rest = rest.
Proof.
  destruct rest as [|c r]; [reflexivity |].
  unfold extends_token. cbn [starts_digit skip_segments].
  intros H. apply orb_false_iff in H as [H1 H2].
  now rewrite H1, H2, andb_false_r.
Qed.

Lemma starts_digit_app (t rest : str) :
  starts_digit t = true -> starts_digit (t ++ rest) = true.
Proof. now destruct t. Qed.

Lemma skip_segments_app (rest : str) :
  extends_token rest = false ->
  forall (t : str) (b : bool),
    skip_segments b t = [] -> skip_segments b (t ++ rest) = rest.
Proof.
  intros Hrest. induction t as [|c t IH]; intros b H.
  - now apply skip_segments_stop.
  - cbn [skip_segments app] in H |- *.
    destruct (b && is_digit c) eqn:E1; cbn [orb] in H |- *.
    + now apply IH.
    + destruct (Ascii.eqb c "_" && starts_digit t) eqn:E2;
        [| discriminate].
      apply andb_true_iff in E2 as [E2 E3].
      rewrite E2, (starts_digit_app _ _ E3). now apply IH.
Qed.

Lemma starts_sk_app (tok rest : str) :
  starts_sk tok = true ->
  starts_sk (tok ++ rest) = true
  /\ skipn 2 (tok ++ rest) = skipn 2 tok ++ rest.
Proof.
  destruct tok as [|a [|b [|d tok]]]; try discriminate.
  - destruct a as [[] [] [] [] [] [] [] []]; discriminate.
  - destruct a as [[] [] [] [] [] [] [] []]; try discriminate.
    destruct b as [[] [] [] [] [] [] [] []]; discriminate.
  - intros H. split; [exact H | reflexivity].
Qed.

Lemma matches_at_sk (s : str) : matches_at sk_re s = starts_sk s.
Proof. unfold matches_at. rewrite sk_first. now destruct (starts_sk s). Qed.

(** The sketch token that the search finds in an identifier. *)
Lemma sk_identifier_of (pre tok rest : str) :
  is_sk_token tok = true ->
  extends_token rest = false ->
  none_inside starts_sk pre (tok ++ rest) = true ->
  option_map (fun m => group 1 (f_caps m))
             (search sk_re (pre ++ tok ++ rest))
  = Some tok.
Proof.
  intros Htok Hrest Hpre.
  apply andb_true_iff in Htok as [Hsk Hseg].
  apply negb_true_iff in Hseg.
  assert (Hnil : skip_segments true (skipn 2 tok) = [])
    by (destruct (skip_segments true (skipn 2 tok)); [auto | discriminate]).
  destruct (starts_sk_app tok rest Hsk) as [Hsk' Hskip].
  rewrite search_skip
    by (rewrite (none_inside_ext _ starts_sk); auto using matches_at_sk).
  rewrite search_unfold, sk_first, Hsk', Hskip.
  rewrite (skip_segments_app rest Hrest _ _ Hnil).
  cbn. now rewrite consumed_app.
Qed.

Definition starts_underscore (s : str) : bool :=
  match s with
  | c :: _ => Ascii.eqb c "_"
  | [] => false
  end.

(** Some suffix of a text satisfies [starts]. *)
Fixpoint any_start (starts : str -> bool) (s : str) : bool :=
  starts s ||
  match s with
  | [] => false
  | _ :: s' => any_start starts s'
  end.

(** A token occurs in a text and is not followed by an underscore
    there. *)
Definition token_at (tok s : str) : bool :=
  startswith tok s && negb (starts_underscore (skipn (length tok) s)).

Lemma is_some_search (r : regex) (s : str) :
  is_some (search r s) = any_start (matches_at r) s.
Proof.
  induction s as [|c s IH]; rewrite search_unfold; cbn [any_start].
  - unfold matches_at. destruct (hd_error (matches r _)); reflexivity.
  - rewrite <- IH. unfold matches_at.
    destruct (hd_error (matches r _)); [reflexivity |].
    now destruct (search r s).
Qed.

Lemma matches_at_sk_file (tok s : str) :
  matches_at (sk_file_re tok) s = token_at tok s.
Proof.
  unfold matches_at, sk_file_re, token_at. rewrite seq_Str.
  destruct (startswith tok s); [| reflexivity].
  cbn [andb matches Lit fst snd].
  destruct (skipn (length tok) s) as [|c r]; [reflexivity |].
  cbn [starts_underscore]. rewrite (Ascii.eqb_sym c).
  now destruct (Ascii.eqb "_" c).
Qed.

Lemma any_start_ext (P Q : str -> bool) (s : str) :
  (forall t, P t = Q t) -> any_start P s = any_start Q s.
Proof.
  intros H. induction s as [|c s IH]; cbn [any_start]; now rewrite H, ?IH.
Qed.

Lemma any_start_iff (P : str -> bool) (s : str) :
  any_start P s = true <-> exists u v, s = u ++ v /\ P v = true.
Proof.
  induction s as [|c s IH]; cbn [any_start].
  - rewrite orb_false_r. split.
    + intros H. now exists [], [].
    + intros [u [v [H1 H2]]]. symmetry in H1.
      apply app_eq_nil in H1 as [_ ->]. exact H2.
  - rewrite orb_true_iff, IH. split.
    + intros [H | [u [v [H1 H2]]]].
      * now exists [], (c :: s).
      * exists (c :: u), v. now rewrite H1.
    + intros [[|c' u] [v [H1 H2]]].
      * left. now rewrite H1.
      * right. injection H1 as _ H1. eauto.
Qed.

Lemma token_at_iff (tok s : str) :
  token_at tok s = true
  <-> exists v, s = tok ++ v /\ starts_underscore v = false.
Proof.
  unfold token_at. rewrite andb_true_iff, negb_true_iff, startswith_iff.
  split.
  - intros [[v ->] H]. exists v. split; [reflexivity |].
    now rewrite skipn_app, Nat.sub_diag, skipn_all in H.
  - intros [v [-> H]]. split; [now exists v |].
    now rewrite skipn_app, Nat.sub_diag, skipn_all.
Qed.

(** The filter of the sketch branch, written once. *)
Definition sk_relevant (num tok : str) (f : str) : bool :=
  str_eqb num (extract_moldenhauer_number f)
  && negb (contains (L "Reihentabelle") f)
  && any_start (token_at tok) f.

(** C7, in the form that holds: the token must not be followed by an
    underscore.
    For an identifier without [SkRT] and without a text version marker
    whose first sketch token is [tok], the Relevance Filter returns, in
    input order, exactly the filenames with the entry's catalog number
    that do not contain [Reihentabelle] and contain [tok] at a place where
    no underscore follows it, whatever comes after the underscore. *)
Theorem C7_sk_filter
        (pre tok rest : str) (all_svg_files : list str) (num : str) :
  contains (L "SkRT") (pre ++ tok ++ rest) = false ->
  none_inside starts_tf (pre ++ tok ++ rest) [] = true ->
  is_sk_token tok = true ->
  extends_token rest = false ->
  none_inside starts_sk pre (tok ++ rest) = true ->
  get_relevant_svgs (pre ++ tok ++ rest) all_svg_files num
  = filter (sk_relevant num tok) all_svg_files
  /\ forall f,
      In f (get_relevant_svgs (pre ++ tok ++ rest) all_svg_files num)
      <-> In f all_svg_files
          /\ extract_moldenhauer_number f = num
          /\ ~ (exists u v, f = u ++ L "Reihentabelle" ++ v)
          /\ exists u v, f = u ++ tok ++ v /\ starts_underscore v = false.
Proof.
  intros Hrt Htf Htok Hrest Hpre.
  assert (Heq : get_relevant_svgs (pre ++ tok ++ rest) all_svg_files num
                = filter (sk_relevant num tok) all_svg_files).
  { unfold get_relevant_svgs. rewrite Hrt.
    rewrite (search_none tf_re)
      by (rewrite ?(none_inside_ext _ starts_tf);
          auto using matches_at_tf).
    pose proof (sk_identifier_of pre tok rest Htok Hrest Hpre) as Hsk.
    destruct (search sk_re _) as [m|]; [| discriminate].
    injection Hsk as ->. rewrite filter_filter.
    apply filter_ext. intros f. unfold sk_relevant. f_equal.
    rewrite is_some_search. apply any_start_ext, matches_at_sk_file. }
  split; [exact Heq |].
  intros f. rewrite Heq, filter_In. unfold sk_relevant.
  rewrite !andb_true_iff, negb_true_iff, str_eqb_eq, any_start_iff.
  rewrite <- not_true_iff_false, contains_iff.
  split.
  - intros [Hin [[H1 H2] [u [v [H3 H4]]]]].
    apply token_at_iff in H4 as [w [-> H4]]. repeat split; eauto.
  - intros [Hin [H1 [H2 [u [v [H3 H4]]]]]].
    repeat split; auto. exists u, (tok ++ v). split; [exact H3 |].
    apply token_at_iff. eauto.
Qed.

Lemma C7_witness :
  get_relevant_svgs (L "M_143_Sk2_1")
    [L "M143_Sk2_1-1von1-final.svg";
     L "M143_Sk2_1_1_1-1von1-final.svg";
     L "M143_Sk2-1von3-final.svg"] (L "143")
  = [L "M143_Sk2_1-1von1-final.svg"].
Proof.
  apply (proj1 (C7_sk_filter (L "M_143_") (L "Sk2_1") []
                  [L "M143_Sk2_1-1von1-final.svg";
                   L "M143_Sk2_1_1_1-1von1-final.svg";
                   L "M143_Sk2-1von3-final.svg"] (L "143")
                  eq_refl eq_refl eq_refl eq_refl eq_refl)).
Defined.

(** A file whose name goes on with an underscore and no digit after the
    token is left out. *)
Lemma C7_counterexample_underscore :
  get_relevant_svgs (L "M_143_Sk2") [L "M143_Sk2_final.svg"] (L "143") = [].
Proof. vm_compute. reflexivity. Qed.

(** The cases of the sketch filter. *)
Example sk2_excludes_sk2_1 :
  get_relevant_svgs (L "M_143_Sk2")
    [L "M143_Sk2_1-1von1-final.svg"; L "M143_Sk2_2-1von1-final.svg";
     L "M143_Sk2-1von3-final.svg"] (L "143")
  = [L "M143_Sk2-1von3-final.svg"].
Proof. vm_compute. reflexivity. Qed.

(* ------------------------------------------------------------------ *)
(** ** The rename map of an entry *)

(** The old identifier that a call of [process_block_comment] renamed: the
    block's [svgGroupId] when it is not empty and not [TODO] and the call
    returned [True]. *)
Definition renamed (b : block) (ok : bool) : option str :=
  match svgGroupId b with
  | Some old_val =>
    if ok && nonempty old_val && negb (str_eqb old_val TODO)
    then Some old_val else None
  | None => None
  end.

(** The renames of a run over blocks, in block order: the old identifier
    and the [svgGroupId] the block has afterwards. *)
Fixpoint renames (bs : list block) (outs : list (bool * block))
  : list (str * option str) :=
  match bs, outs with
  | b :: bs', (ok, b') :: outs' =>
    match renamed b ok with
    | Some old_val => (old_val, svgGroupId b') :: renames bs' outs'
    | None => renames bs' outs'
    end
  | _, _ => []
  end.

Fixpoint renames_groups (gs : list comment_group)
         (outs : list (list (bool * block))) : list (str * option str) :=
  match gs, outs with
  | g :: gs', out :: outs' =>
    renames (blockComments g) out ++ renames_groups gs' outs'
  | _, _ => []
  end.

(** Adding an identifier to a list of distinct ones, at the end. *)
Definition add_new (l : list str) (x : str) : list str :=
  if existsb (str_eqb x) l then l else l ++ [x].

(** The distinct identifiers of a list, in the order of first
    occurrence. *)
Definition distinct_in_order (l : list str) : list str :=
  fold_left add_new l [].

(** The values of a map are the prefix followed by 1, 2, ... in insertion
    order. *)
Definition numbered (prefix : str) (m : list (str * str)) : Prop :=
  map snd m = map (fun i => prefix ++ str_of_nat i) (seq 1 (length m)).

Lemma dict_get_keys {V : Type} (k : str) (d : list (str * V)) :
  is_some (dict_get k d) = existsb (str_eqb k) (map fst d).
Proof.
  induction d as [|[k' v] d IH]; [reflexivity |]. cbn.
  destruct (str_eqb k' k) eqn:E.
  - apply str_eqb_eq in E. subst. now rewrite str_eqb_refl.
  - apply str_eqb_neq in E.
    assert (E' : str_eqb k k' = false) by (apply str_eqb_neq; congruence).
    now rewrite E'.
Qed.

Lemma assign_keys (old_val prefix : str) (m : list (str * str)) :
  map fst (fst (assign old_val m prefix)) = add_new (map fst m) old_val.
Proof.
  unfold assign, add_new. rewrite <- dict_get_keys.
  destruct (dict_get old_val m); cbn; [reflexivity |].
  now rewrite map_app.
Qed.

Lemma assign_numbered (old_val prefix : str) (m : list (str * str)) :
  numbered prefix m -> numbered prefix (fst (assign old_val m prefix)).
Proof.
  unfold assign, numbered. intros H.
  destruct (dict_get old_val m); cbn [fst]; [exact H |].
  rewrite map_app, length_app, H. cbn [length map].
  rewrite seq_app, map_app, Nat.add_1_r. reflexivity.
Qed.

Lemma dict_get_app_new {V : Type} (k : str) (v : V) (d : list (str * V)) :
  dict_get k d = None -> dict_get k (d ++ [(k, v)]) = Some v.
Proof.
  induction d as [|[k' v'] d IH]; cbn; intros H.
  - now rewrite str_eqb_refl.
  - destruct (str_eqb k' k); [discriminate | auto].
Qed.

(** The identifier [assign] returns is the one the map holds for the old
    identifier afterwards. *)
Lemma assign_lookup (old_val prefix : str) (m : list (str * str)) :
  dict_get old_val (fst (assign old_val m prefix))
  = Some (snd (assign old_val m prefix)).
Proof.
  unfold assign. destruct (dict_get old_val m) eqn:E; cbn [fst snd]; auto.
  now apply dict_get_app_new.
Qed.

(** What one call does to the block and to the map. *)
Lemma process_block_comment_effect
      (b : block) (relevant : list str) (m : list (str * str))
      (prefix : str) (c : caches) :
  let r := process_block_comment b relevant m prefix c in
  bs_mapping (snd r)
  = match renamed b (fst r) with
    | Some old_val => fst (assign old_val m prefix)
    | None => m
    end
  /\ bs_block (snd r)
     = match renamed b (fst r) with
       | Some old_val =>
         mkBlock (Some (snd (assign old_val m prefix))) (block_fields b)
       | None => b
       end.
Proof.
  cbv zeta. unfold process_block_comment, renamed.
  destruct (svgGroupId b) as [old_val|]; [| split; reflexivity].
  destruct (nonempty old_val) eqn:Hne; cbn [negb orb];
    [| split; reflexivity].
  destruct (str_eqb old_val TODO) eqn:Htodo; [split; reflexivity |].
  destruct (find_in_svgs old_val relevant c) as [[f|] c1];
    [| split; reflexivity].
  destruct (nonempty f); [| split; reflexivity].
  destruct (get_svg_text f c1) as [ref c2].
  destruct (snd (update_svg_id _ old_val temp_id)); [split; reflexivity |].
  destruct (assign old_val m prefix) as [m' new_val] eqn:Ha.
  split; cbn [fst snd andb negb bs_mapping bs_block]; now rewrite Ha.
Qed.

Lemma dict_get_app_keep {V : Type} (k : str) (v : V)
      (d d' : list (str * V)) :
  dict_get k d = Some v -> dict_get k (d ++ d') = Some v.
Proof.
  induction d as [|[k' v'] d IH]; cbn; [discriminate |].
  destruct (str_eqb k' k); auto.
Qed.

Lemma assign_keeps (k v old_val prefix : str) (m : list (str * str)) :
  dict_get k m = Some v ->
  dict_get k (fst (assign old_val m prefix)) = Some v.
Proof.
  intros H. unfold assign. destruct (dict_get old_val m); cbn [fst]; auto.
  now apply dict_get_app_keep.
Qed.

(** A map that extends another: it has the keys of the other, with their
    values. *)
Definition extends (m' m : list (str * str)) : Prop :=
  forall k v, dict_get k m = Some v -> dict_get k m' = Some v.

Lemma fold_add_new_app (l1 l2 keys : list str) :
  fold_left add_new (l1 ++ l2) keys
  = fold_left add_new l2 (fold_left add_new l1 keys).
Proof. apply fold_left_app. Qed.

(** The loop over the blocks of a group: the keys of the map grow by the
    renamed identifiers that are new, the values stay numbered, and every
    renamed block holds the value the map has for its old identifier. *)
Lemma process_blocks_map (relevant : list str) (prefix : str) :
  forall (bs : list block) (m : list (str * str)) (c : caches),
    let r := process_blocks bs relevant m prefix c in
    let outs := fst (fst r) in
    let m' := snd (fst r) in
    map fst m' = fold_left add_new (map fst (renames bs outs)) (map fst m)
    /\ (numbered prefix m -> numbered prefix m')
    /\ extends m' m
    /\ (forall old_val new_val,
           In (old_val, new_val) (renames bs outs) ->
           exists v, new_val = Some v /\ dict_get old_val m' = Some v).
Proof.
  induction bs as [|b bs IH]; intros m c; cbv zeta.
  - cbn. split; [reflexivity | split; [auto | split]].
    + intros k v H; exact H.
    + intros ? ? [].
  - cbn [process_blocks].
    pose proof (process_block_comment_effect b relevant m prefix c) as He.
    cbv zeta in He.
    destruct (process_block_comment b relevant m prefix c) as [ok st].
    cbn [fst snd] in He. destruct He as [Hm Hb].
    specialize (IH (bs_mapping st) (bs_caches st)). cbv zeta in IH.
    destruct (process_blocks bs relevant (bs_mapping st) prefix
                             (bs_caches st)) as [[outs m'] c'].
    cbn [fst snd] in IH |- *. destruct IH as [IH1 [IH2 [IH3 IH4]]].
    cbn [renames]. rewrite Hm in IH1, IH2, IH3.
    destruct (renamed b ok) as [old_val|].
    + cbn [map fold_left]. rewrite assign_keys in IH1.
      repeat split.
      * exact IH1.
      * intros Hn. now apply IH2, assign_numbered.
      * intros k v H. now apply IH3, assign_keeps.
      * intros o n [Heq | Hin]; [| now apply IH4].
        injection Heq as <- <-. rewrite Hb. cbn [svgGroupId].
        eexists. split; [reflexivity |]. apply IH3, assign_lookup.
    + repeat split; auto.
Qed.

Lemma extends_trans (m1 m2 m3 : list (str * str)) :
  extends m3 m2 -> extends m2 m1 -> extends m3 m1.
Proof. unfold extends. auto. Qed.

Lemma process_groups_map (relevant : list str) (prefix : str) :
  forall (gs : list comment_group) (m : list (str * str)) (c : caches),
    let r := process_groups gs relevant m prefix c in
    let outs := fst (fst r) in
    let m' := snd (fst r) in
    map fst m'
    = fold_left add_new (map fst (renames_groups gs outs)) (map fst m)
    /\ (numbered prefix m -> numbered prefix m')
    /\ extends m' m
    /\ (forall old_val new_val,
           In (old_val, new_val) (renames_groups gs outs) ->
           exists v, new_val = Some v /\ dict_get old_val m' = Some v).
Proof.
  induction gs as [|g gs IH]; intros m c; cbv zeta.
  - cbn. split; [reflexivity | split; [auto | split]].
    + intros k v H; exact H.
    + intros ? ? [].
  - cbn [process_groups].
    pose proof (process_blocks_map relevant prefix (blockComments g) m c)
      as Hb. cbv zeta in Hb.
    destruct (process_blocks (blockComments g) relevant m prefix c)
      as [[out m1] c1].
    cbn [fst snd] in Hb. destruct Hb as [Hb1 [Hb2 [Hb3 Hb4]]].
    specialize (IH m1 c1). cbv zeta in IH.
    destruct (process_groups gs relevant m1 prefix c1) as [[outs m2] c2].
    cbn [fst snd] in IH |- *. destruct IH as [IH1 [IH2 [IH3 IH4]]].
    cbn [renames_groups]. rewrite map_app, fold_left_app, <- Hb1.
    repeat split; auto.
    + eapply extends_trans; eauto.
    + intros o n Hin. apply in_app_or in Hin as [Hin | Hin]; [| auto].
      destruct (Hb4 _ _ Hin) as [v [-> Hv]]. exists v. split; auto.
Qed.







(** An entry whose first block refers to an identifier that no markup file
    holds: two distinct identifiers are encountered, one is in the map. *)
Definition entry_with_missing : entry :=
  mkEntry (Some (L "M_1"))
          [mkGroup [mkBlock (Some (L "missing")) [];
                    mkBlock (Some (L "a")) []]].


(* ------------------------------------------------------------------ *)
(** ** Fatal input errors *)

Definition json_not_found (json_path : str) : exn :=
  FileNotFoundError (L "JSON file not found: " ++ json_path).
Definition folder_not_found (svg_folder : str) : exn :=
  FileNotFoundError (L "SVG folder not found: " ++ svg_folder).
Definition cannot_list (svg_folder os_error : str) : exn :=
  PermissionError (L "Cannot list contents of SVG folder: " ++ svg_folder
                   ++ L " - " ++ os_error).
Definition no_svg_files (svg_folder : str) : exn :=
  ValueError (L "No SVG files found in folder: " ++ svg_folder).

(** C9, in the form that holds: a document that cannot be parsed aborts
    the run too.  Each fatal input condition raises its own failure and
    leaves the file system as it was: a missing document path and a
    missing folder raise the not-found failure with their own message, a
    folder that cannot be listed raises the permission failure, a folder
    without markup files raises the value failure; a document that exists
    but is not valid JSON raises the decoding failure of [json.load].  In
    every other case the run completes and returns the success flag
    [True], whatever happens to the blocks. *)
Theorem C9_fatal_input_errors
        (fs : filesystem) (json_path svg_folder prefix : str) :
  (json_file fs = NoDocument ->
   process_tkk_ids fs json_path svg_folder prefix
   = (Raise (json_not_found json_path), fs))
  /\ (json_file fs <> NoDocument -> svg_dir fs = NoFolder ->
      process_tkk_ids fs json_path svg_folder prefix
      = (Raise (folder_not_found svg_folder), fs))
  /\ (json_file fs = NotJson -> svg_dir fs <> NoFolder ->
      process_tkk_ids fs json_path svg_folder prefix
      = (Raise JSONDecodeError, fs))
  /\ (forall data os_error, json_file fs = Json data ->
      svg_dir fs = Unlistable os_error ->
      process_tkk_ids fs json_path svg_folder prefix
      = (Raise (cannot_list svg_folder os_error), fs))
  /\ (forall data files, json_file fs = Json data ->
      svg_dir fs = Listing files ->
      filter is_svg_name (map fst files) = [] ->
      process_tkk_ids fs json_path svg_folder prefix
      = (Raise (no_svg_files svg_folder), fs))
  /\ (forall data files, json_file fs = Json data ->
      svg_dir fs = Listing files ->
      filter is_svg_name (map fst files) <> [] ->
      exists o fs',
        process_tkk_ids fs json_path svg_folder prefix = (Ok o, fs')
        /\ out_success o = true).
Proof.
  unfold process_tkk_ids, load_and_validate_inputs.
  repeat split.
  - intros ->. reflexivity.
  - intros H1 ->. destruct (json_file fs); [congruence | |]; reflexivity.
  - intros -> H2. destruct (svg_dir fs); [congruence | |]; reflexivity.
  - intros data os_error -> ->. reflexivity.
  - intros data files -> -> ->. reflexivity.
  - intros data files -> -> H.
    destruct (filter is_svg_name (map fst files)) as [|f l] eqn:E;
      [congruence |].
    cbn [nonempty_list].
    destruct (process_entries data (f :: l) prefix _) as [data' c].
    eauto.
Qed.

(** A file system whose document path and folder exist; the document is
    not valid JSON. *)
Definition fs_bad_json : filesystem :=
  mkFS NotJson (Listing [(L "M_143_test.svg", one_tkk_text)]).

Lemma C9_witness :
  process_tkk_ids fs_bad_json (L "t.json") (L "svgs") (L "g-tkk-")
  = (Raise JSONDecodeError, fs_bad_json).
Proof.
  apply (proj1 (proj2 (proj2 (C9_fatal_input_errors
                                fs_bad_json (L "t.json") (L "svgs")
                                (L "g-tkk-"))))).
  - reflexivity.
  - discriminate.
Defined.

(** A run aborts although the document path and the folder exist, the
    folder can be listed and holds a markup file. *)
Lemma C9_counterexample_bad_json :
  json_file fs_bad_json = NotJson
  /\ svg_dir fs_bad_json = Listing [(L "M_143_test.svg", one_tkk_text)]
  /\ filter is_svg_name [L "M_143_test.svg"] = [L "M_143_test.svg"]
  /\ process_tkk_ids fs_bad_json (L "t.json") (L "svgs") (L "g-tkk-")
     = (Raise JSONDecodeError, fs_bad_json).
Proof. repeat split. Qed.

(* ------------------------------------------------------------------ *)
(** ** The matcher: what a match consumes *)

Lemma in_seq_matches (r1 r2 : regex) (x z : mstate) :
  In z (matches (Seq r1 r2) x)
  <-> exists y, In y (matches r1 x) /\ In z (matches r2 y).
Proof. cbn [matches]. apply in_flat_map. Qed.

Lemma in_lit_matches (ch : ascii) (s : str) (c : caps) (y : mstate) :
  In y (matches (Lit ch) (s, c)) <-> s = ch :: fst y /\ snd y = c.
Proof.
  cbn [matches Lit fst snd]. destruct s as [|a s].
  - split; [intros [] | intros [H _]; discriminate].
  - destruct (Ascii.eqb ch a) eqn:E.
    + apply Ascii.eqb_eq in E. subst a. split.
      * intros [<- | []]. auto.
      * intros [H <-]. injection H as ->. left. now destruct y.
    + split; [intros [] |]. intros [H _]. injection H as -> _.
      now rewrite Ascii.eqb_refl in E.
Qed.

Lemma in_Str_matches (a s : str) (c : caps) (y : mstate) :
  In y (matches (Str a) (s, c)) <-> s = a ++ fst y /\ snd y = c.
Proof.
  rewrite matches_Str. destruct (startswith a s) eqn:E.
  - apply startswith_iff in E as [r ->].
    rewrite skipn_app, Nat.sub_diag, skipn_all. cbn [app skipn]. split.
    + intros [<- | []]. auto.
    + intros [H <-]. apply app_inv_head in H. subst r. left.
      now destruct y.
  - split; [intros [] |]. intros [-> _].
    now rewrite startswith_app in E.
Qed.

(** Every way a lazy repetition of a character class matches: it takes
    some leading characters of the class. *)
Lemma in_star_lazy_class (p : ascii -> bool) :
  forall (fuel : nat) (s : str) (c : caps) (y : mstate),
    length s <= fuel ->
    (In y (star_loop (matches (Chr p)) false fuel (s, c))
     <-> exists u, s = u ++ fst y /\ forallb p u = true /\ snd y = c).
Proof.
  induction fuel as [|f IH]; intros s c y Hlen.
  - destruct s; [| simpl in Hlen; lia]. cbn. split.
    + intros [<- | []]. now exists [].
    + intros [u [H [_ <-]]]. symmetry in H.
      apply app_eq_nil in H as [_ H]. left. destruct y; cbn in *; congruence.
  - cbn [star_loop matches fst snd]. destruct s as [|a s].
    + cbn. split.
      * intros [<- | []]. now exists [].
      * intros [u [H [_ <-]]]. symmetry in H.
        apply app_eq_nil in H as [_ H]. left.
        destruct y; cbn in *; congruence.
    + simpl in Hlen. destruct (p a) eqn:Hp.
      * cbn [flat_map fst length].
        replace (length s <? S (length s)) with true
          by (symmetry; apply Nat.ltb_lt; lia).
        rewrite app_nil_r. cbn [In]. rewrite IH by lia. split.
        -- intros [<- | [u [-> [Hu Hc]]]].
           ++ now exists [].
           ++ exists (a :: u). cbn. now rewrite Hp, Hu.
        -- intros [[|a' u] [H [Hu Hc]]].
           ++ left. destruct y; cbn in *; congruence.
           ++ right. injection H as <- ->. cbn in Hu.
              apply andb_true_iff in Hu as [_ Hu]. eauto.
      * cbn [flat_map In]. split.
        -- intros [<- | []]. now exists [].
        -- intros [[|a' u] [H [Hu Hc]]].
           ++ left. destruct y; cbn in *; congruence.
           ++ injection H as <- _. cbn in Hu. now rewrite Hp in Hu.
Qed.

Lemma in_lazy_tag_chars (s : str) (c : caps) (y : mstate) :
  In y (matches lazy_tag_chars (s, c))
  <-> exists u, s = u ++ fst y /\ forallb not_gt u = true /\ snd y = c.
Proof. apply in_star_lazy_class. apply le_n. Qed.

(** A text starts with an opening tag that carries [a] and then [b]: a
    [<], then [a] and [b] in this order with no [>] before, between or
    after them, then the closing [>]; [rest] is what follows the tag. *)
Definition tag_shape (a b s rest : str) : Prop :=
  exists u v w,
    s = "<"%char :: u ++ a ++ v ++ b ++ w ++ ">"%char :: rest
    /\ forallb not_gt u = true
    /\ forallb not_gt v = true
    /\ forallb not_gt w = true.

(** The tag pattern matches exactly the texts of that shape. *)
Lemma in_tag_re (a b s : str) (c : caps) (y : mstate) :
  In y (matches (tag_re a b) (s, c))
  <-> tag_shape a b s (fst y) /\ snd y = c.
Proof.
  unfold tag_re, Cat, tag_shape. cbn [fold_right]. split.
  - intros H.
    apply in_seq_matches in H as [[s1 c1] [H1 H]].
    apply in_lit_matches in H1 as [-> Hc1]. cbn [fst snd] in Hc1. subst c1.
    apply in_seq_matches in H as [[s2 c2] [H2 H]].
    apply in_lazy_tag_chars in H2 as [u [-> [Hu Hc2]]].
    cbn [fst snd] in Hc2. subst c2.
    apply in_seq_matches in H as [[s3 c3] [H3 H]].
    apply in_Str_matches in H3 as [-> Hc3]. cbn [fst snd] in Hc3. subst c3.
    apply in_seq_matches in H as [[s4 c4] [H4 H]].
    apply in_lazy_tag_chars in H4 as [v [-> [Hv Hc4]]].
    cbn [fst snd] in Hc4. subst c4.
    apply in_seq_matches in H as [[s5 c5] [H5 H]].
    apply in_Str_matches in H5 as [-> Hc5]. cbn [fst snd] in Hc5. subst c5.
    apply in_seq_matches in H as [[s6 c6] [H6 H]].
    apply in_lazy_tag_chars in H6 as [w [-> [Hw Hc6]]].
    cbn [fst snd] in Hc6. subst c6.
    apply in_seq_matches in H as [[s7 c7] [H7 H]].
    apply in_lit_matches in H7 as [-> Hc7]. cbn [fst snd] in Hc7. subst c7.
    cbn in H. destruct H as [<- | []]. cbn [fst snd].
    split; [| reflexivity]. exists u, v, w. auto.
  - intros [[u [v [w [-> [Hu [Hv Hw]]]]]] Hc]. destruct y as [rest c'].
    cbn [fst snd] in *. subst c'.
    apply in_seq_matches. eexists (_, c). split.
    { apply in_lit_matches. cbn [fst snd]. split; reflexivity. }
    apply in_seq_matches. eexists (_, c). split.
    { apply in_lazy_tag_chars. exists u. cbn [fst snd]. eauto. }
    apply in_seq_matches. eexists (_, c). split.
    { apply in_Str_matches. cbn [fst snd]. split; reflexivity. }
    apply in_seq_matches. eexists (_, c). split.
    { apply in_lazy_tag_chars. exists v. cbn [fst snd]. eauto. }
    apply in_seq_matches. eexists (_, c). split.
    { apply in_Str_matches. cbn [fst snd]. split; reflexivity. }
    apply in_seq_matches. eexists (_, c). split.
    { apply in_lazy_tag_chars. exists w. cbn [fst snd]. eauto. }
    apply in_seq_matches. eexists (_, c). split.
    { apply in_lit_matches. cbn [fst snd]. split; reflexivity. }
    cbn. auto.
Qed.

(** What is left after a match is a suffix of the text. *)
Lemma star_loop_suffix (step : mstate -> list mstate) (g : bool) :
  (forall x y, In y (step x) -> exists u, fst x = u ++ fst y) ->
  forall (fuel : nat) (x y : mstate),
    In y (star_loop step g fuel x) -> exists u, fst x = u ++ fst y.
Proof.
  intros Hstep. induction fuel as [|f IH]; intros x y H.
  - destruct H as [<- | []]. now exists [].
  - cbn [star_loop] in H.
    assert (Hcases : y = x \/
              In y (flat_map
                      (fun z => if length (fst z) <? length (fst x)
                                then star_loop step g f z else [])
                      (step x))).
    { destruct g.
      - apply in_app_or in H as [H | [H | []]]; auto.
      - destruct H as [H | H]; auto. }
    destruct Hcases as [-> | Hin]; [now exists [] |].
    apply in_flat_map in Hin as [z [Hz Hin]].
    destruct (length (fst z) <? length (fst x)); [| contradiction].
    apply Hstep in Hz as [u1 Hu1]. apply IH in Hin as [u2 Hu2].
    exists (u1 ++ u2). now rewrite Hu1, Hu2, app_assoc.
Qed.

Lemma matches_suffix (r : regex) :
  forall (x y : mstate),
    In y (matches r x) -> exists u, fst x = u ++ fst y.
Proof.
  induction r as [|p|r1 IH1 r2 IH2|r1 IH1 r2 IH2|g r IH|n r IH|r IH];
    intros x y H; cbn [matches] in H.
  - destruct H as [<- | []]. now exists [].
  - destruct (fst x) as [|c s] eqn:E; [contradiction |].
    destruct (p c); [| contradiction].
    destruct H as [<- | []]. now exists [c].
  - apply in_flat_map in H as [z [Hz H]].
    apply IH1 in Hz as [u1 Hu1]. apply IH2 in H as [u2 Hu2].
    exists (u1 ++ u2). now rewrite Hu1, Hu2, app_assoc.
  - apply in_app_or in H as [H | H]; auto.
  - eapply star_loop_suffix; eauto.
  - apply in_map_iff in H as [z [<- Hz]]. cbn [fst]. auto.
  - destruct (matches r x); [| contradiction].
    destruct H as [<- | []]. now exists [].
Qed.

Lemma match_here (r : regex) (s : str) (y : mstate) :
  hd_error (matches r (s, [])) = Some y ->
  s = consumed s (fst y) ++ fst y
  /\ In (fst y, snd y) (matches r (consumed s (fst y) ++ fst y, [])).
Proof.
  intros H.
  assert (Hin : In y (matches r (s, []))).
  { destruct (matches r (s, [])) as [|y' l]; [discriminate |].
    injection H as ->. now left. }
  destruct (matches_suffix r _ _ Hin) as [u Hu]. cbn [fst] in Hu.
  assert (Hc : consumed s (fst y) = u) by (rewrite Hu; apply consumed_app).
  rewrite Hc, <- Hu. split; [reflexivity |]. now destruct y.
Qed.

(** A successful search splits the text into the part before the match,
    the match and the part after it, and the pattern matches at the start
    of the match, leaving the part after it. *)
Lemma search_some (r : regex) :
  forall (s : str) (m : found),
    search r s = Some m ->
    s = f_before m ++ f_match m ++ f_after m
    /\ In (f_after m, f_caps m) (matches r (f_match m ++ f_after m, [])).
Proof.
  induction s as [|c s IH]; intros m H; rewrite search_unfold in H.
  - destruct (hd_error (matches r _)) as [y|] eqn:E; [| discriminate].
    injection H as <-. cbn [f_before f_match f_after f_caps app].
    now apply match_here.
  - destruct (hd_error (matches r _)) as [y|] eqn:E.
    + injection H as <-. cbn [f_before f_match f_after f_caps app].
      now apply match_here.
    + destruct (search r s) as [m'|] eqn:Es; [| discriminate].
      injection H as <-. destruct (IH m' eq_refl) as [H1 H2].
      cbn [shift f_before f_match f_after f_caps app]. split; [| exact H2].
      now rewrite <- H1.
Qed.

(** A search fails only when the pattern matches at no position. *)
Lemma search_none_at (r : regex) :
  forall (pre s : str),
    search r (pre ++ s) = None -> matches r (s, []) = [].
Proof.
  induction pre as [|c pre IH]; intros s H; rewrite search_unfold in H.
  - cbn [app] in H. destruct (matches r (s, [])); [reflexivity |].
    discriminate.
  - cbn [app] in H. destruct (hd_error (matches r _)); [discriminate |].
    apply IH. now destruct (search r (pre ++ s)).
Qed.

Lemma finditer_none (fuel : nat) (r : regex) (s : str) :
  search r s = None -> finditer fuel r s = [].
Proof. intros H. destruct fuel; cbn; [| rewrite H]; reflexivity. Qed.

Lemma sub_loop_none (fuel : nat) (r : regex) (repl : str -> str) (s : str) :
  search r s = None -> sub_loop fuel r repl s = s.
Proof. intros H. destruct fuel; cbn; [| rewrite H]; reflexivity. Qed.

(** A replacement that returns the matched text leaves the text as it
    is. *)
Lemma sub_loop_identity (r : regex) (repl : str -> str) :
  (forall mt, repl mt = mt) ->
  forall (fuel : nat) (s : str), sub_loop fuel r repl s = s.
Proof.
  intros Hid. induction fuel as [|f IH]; intros s; [reflexivity |].
  cbn [sub_loop]. destruct (search r s) as [m|] eqn:E; [| reflexivity].
  apply search_some in E as [E _]. rewrite Hid.
  destruct (f_match m) as [|c mt] eqn:Em.
  - destruct (f_after m) as [|c rest] eqn:Ea.
    + now rewrite E.
    + rewrite IH. now rewrite E.
  - rewrite IH. now rewrite E.
Qed.

(* ------------------------------------------------------------------ *)
(** ** Tag Rewriter: what a rewrite may change *)









(* ------------------------------------------------------------------ *)
(** ** Occurrences of a text *)

(** The number of positions of [s] at which [a] starts. *)
Fixpoint occurrences (a s : str) : nat :=
  (if startswith a s then 1 else 0) +
  match s with
  | [] => 0
  | _ :: s' => occurrences a s'
  end.

Lemma startswith_app_mono (a s t : str) :
  startswith a s = true -> startswith a (s ++ t) = true.
Proof.
  intros H. apply startswith_iff in H as [r ->]. rewrite <- app_assoc.
  apply startswith_app.
Qed.

Lemma occurrences_app (c : ascii) (a x y : str) :
  occurrences (c :: a) x + occurrences (c :: a) y
  <= occurrences (c :: a) (x ++ y).
Proof.
  induction x as [|d x IH].
  - cbn. lia.
  - cbn [app occurrences].
    destruct (startswith (c :: a) (d :: x)) eqn:E.
    + change (d :: x ++ y) with ((d :: x) ++ y).
      rewrite (startswith_app_mono _ _ y E). lia.
    + destruct (startswith (c :: a) (d :: x ++ y)); lia.
Qed.

Lemma occurrences_here (a r : str) : 1 <= occurrences a (a ++ r).
Proof.
  destruct (a ++ r) eqn:E; cbn [occurrences]; rewrite <- E;
    rewrite startswith_app; lia.
Qed.

Lemma occurrences_context (c : ascii) (a x y z : str) :
  occurrences (c :: a) y <= occurrences (c :: a) (x ++ y ++ z).
Proof.
  pose proof (occurrences_app c a x (y ++ z)).
  pose proof (occurrences_app c a y z). lia.
Qed.

Lemma occurrences_inside (c : ascii) (a u v : str) :
  1 <= occurrences (c :: a) (u ++ (c :: a) ++ v).
Proof.
  pose proof (occurrences_app c a u ((c :: a) ++ v)).
  pose proof (occurrences_here (c :: a) v). lia.
Qed.

(** Without an occurrence, [replace] changes nothing. *)
Lemma replace_loop_absent (c : ascii) (a b : str) :
  forall (fuel : nat) (s : str),
    occurrences (c :: a) s = 0 -> replace_loop fuel (c :: a) b s = s.
Proof.
  induction fuel as [|f IH]; intros s H; [reflexivity |].
  cbn [replace_loop]. destruct s as [|d s]; [reflexivity |].
  cbn [occurrences] in H.
  destruct (startswith (c :: a) (d :: s)); [lia |].
  f_equal. apply IH. lia.
Qed.

(** With one occurrence, [replace] changes exactly that one. *)
Lemma replace_loop_unique (c : ascii) (a b : str) :
  forall (p r : str) (fuel : nat),
    occurrences (c :: a) (p ++ (c :: a) ++ r) = 1 ->
    length p < fuel ->
    replace_loop fuel (c :: a) b (p ++ (c :: a) ++ r) = p ++ b ++ r.
Proof.
  induction p as [|d p IH]; intros r fuel H Hlen.
  - destruct fuel as [|f]; [lia |]. cbn [app] in *.
    change (c :: a ++ r) with ((c :: a) ++ r) in *.
    cbn [replace_loop]. rewrite startswith_app.
    rewrite skipn_app, Nat.sub_diag, skipn_all. cbn [app skipn].
    rewrite replace_loop_absent; [reflexivity |].
    pose proof (occurrences_app c a (c :: a) r) as H1.
    pose proof (occurrences_here (c :: a) []) as H2.
    rewrite app_nil_r in H2. cbn [app] in H1, H. lia.
  - destruct fuel as [|f]; [simpl in Hlen; lia |]. cbn [app] in *.
    cbn [replace_loop]. cbn [occurrences] in H.
    pose proof (occurrences_inside c a p r) as H1. cbn [app] in H1.
    destruct (startswith (c :: a) (d :: p ++ c :: a ++ r)); [lia |].
    f_equal. apply IH; [cbn [app]; lia | simpl in Hlen; lia].
Qed.

(** The place of a single occurrence is determined. *)
Lemma unique_occurrence_place (c : ascii) (a : str) :
  forall (p p' r r' : str),
    occurrences (c :: a) (p ++ (c :: a) ++ r) = 1 ->
    p ++ (c :: a) ++ r = p' ++ (c :: a) ++ r' ->
    p = p' /\ r = r'.
Proof.
  induction p as [|d p IH]; intros p' r r' H Heq.
  - destruct p' as [|d' p'].
    + cbn [app] in Heq. injection Heq as Heq.
      apply app_inv_head in Heq. auto.
    + exfalso. rewrite Heq in H. cbn [app occurrences] in H.
      pose proof (occurrences_inside c a p' r') as H1. cbn [app] in H1.
      assert (Hs : startswith (c :: a) (d' :: p' ++ c :: a ++ r') = true).
      { change (d' :: p' ++ c :: a ++ r')
          with ((d' :: p') ++ (c :: a) ++ r').
        rewrite <- Heq. apply (startswith_app (c :: a) r). }
      rewrite Hs in H. lia.
  - destruct p' as [|d' p'].
    + exfalso. cbn [app occurrences] in H.
      pose proof (occurrences_inside c a p r) as H1. cbn [app] in H1.
      assert (Hs : startswith (c :: a) (d :: p ++ c :: a ++ r) = true).
      { change (d :: p ++ c :: a ++ r) with ((d :: p) ++ (c :: a) ++ r).
        rewrite Heq. apply (startswith_app (c :: a) r'). }
      rewrite Hs in H. lia.
    + cbn [app] in Heq. injection Heq as <- Heq.
      cbn [app occurrences] in H.
      pose proof (occurrences_inside c a p r) as H1. cbn [app] in H1.
      destruct (IH p' r r') as [-> ->]; [| exact Heq | auto].
      cbn [app].
      destruct (startswith (c :: a) (d :: p ++ c :: a ++ r)); lia.
Qed.

(* ------------------------------------------------------------------ *)
(** ** Identifiers without quote and equals characters *)

(** An identifier is plain when it holds no quote character and no equals
    sign; attribute texts of plain identifiers cannot overlap. *)
Definition plain_char (c : ascii) : bool :=
  negb (is_quote c || Ascii.eqb c "=").
Definition plain (v : str) : bool := forallb plain_char v.

Lemma quote_cases (q : ascii) : is_quote q = true -> q = dq \/ q = sq.
Proof.
  unfold is_quote. intros H. apply orb_true_iff in H as [H | H];
    apply Ascii.eqb_eq in H; auto.
Qed.

Lemma plain_not_quote (c q : ascii) :
  plain_char c = true -> is_quote q = true -> Ascii.eqb c q = false.
Proof.
  intros Hc Hq. destruct (Ascii.eqb c q) eqn:E; [| reflexivity].
  apply Ascii.eqb_eq in E. subst c. unfold plain_char in Hc.
  rewrite Hq in Hc. discriminate.
Qed.

Lemma plain_not_equals (c : ascii) :
  plain_char c = true -> Ascii.eqb c "=" = false.
Proof.
  unfold plain_char. intros H. apply negb_true_iff, orb_false_iff in H.
  tauto.
Qed.

(** The text that follows [id=Q] in an attribute text. *)
Definition value_end (q : ascii) (v : str) : str := v ++ [q].

Lemma id_attr_unfold (q : ascii) (v : str) :
  id_attr q v = "i"%char :: "d"%char :: "="%char :: q :: value_end q v.
Proof. reflexivity. Qed.

(** A plain value with its closing quote that starts in some text [l] and
    would run into a following [id=] lies within [l]. *)
Lemma value_end_within (q : ascii) (rest : str) :
  is_quote q = true ->
  forall (x l : str),
    plain x = true ->
    startswith (value_end q x)
               (l ++ "i"%char :: "d"%char :: "="%char :: rest) = true ->
    startswith (value_end q x) l = true.
Proof.
  intros Hq.
  assert (Hqi : Ascii.eqb q "i" = false)
    by (destruct (quote_cases q Hq) as [-> | ->]; reflexivity).
  assert (Hqd : Ascii.eqb q "d" = false)
    by (destruct (quote_cases q Hq) as [-> | ->]; reflexivity).
  assert (Hqe : Ascii.eqb q "=" = false)
    by (destruct (quote_cases q Hq) as [-> | ->]; reflexivity).
  induction x as [|a x IH]; intros l Hx H.
  - destruct l as [|e l]; cbn in H |- *.
    + now rewrite Hqi in H.
    + now rewrite andb_true_r in H |- *.
  - cbn [plain forallb] in Hx. apply andb_true_iff in Hx as [Ha Hx].
    destruct l as [|e l].
    + exfalso. cbn [app value_end startswith] in H.
      apply andb_true_iff in H as [_ H].
      destruct x as [|b x].
      * cbn in H. now rewrite Hqd in H.
      * cbn [app startswith] in H. apply andb_true_iff in H as [_ H].
        destruct x as [|b' x].
        -- cbn in H. now rewrite Hqe in H.
        -- cbn [app startswith] in H. apply andb_true_iff in H as [H _].
           cbn [forallb] in Hx. apply andb_true_iff in Hx as [_ Hx].
           apply andb_true_iff in Hx as [Hb' _].
           now rewrite (plain_not_equals _ Hb') in H.
    + cbn [app value_end startswith] in H |- *.
      apply andb_true_iff in H as [H1 H2]. rewrite H1. cbn [andb].
      now apply IH.
Qed.

(** An attribute text that starts in a non-empty text [l] before another
    attribute text lies within [l]. *)
Lemma id_attr_within (q : ascii) (x l rest : str) (e : ascii) :
  is_quote q = true -> plain x = true ->
  startswith (id_attr q x)
             ((e :: l) ++ "i"%char :: "d"%char :: "="%char :: rest)
  = startswith (id_attr q x) (e :: l).
Proof.
  intros Hq Hx.
  destruct (startswith (id_attr q x) (e :: l)) eqn:E.
  - now apply startswith_app_mono.
  - destruct (startswith _ ((e :: l) ++ _)) eqn:E'; [| reflexivity].
    exfalso. rewrite id_attr_unfold in E, E'.
    assert (Hqi : Ascii.eqb q "i" = false)
      by (destruct (quote_cases q Hq) as [-> | ->]; reflexivity).
    destruct l as [|e2 l].
    { cbn in E'. rewrite andb_false_r in E'. discriminate. }
    destruct l as [|e3 l].
    { cbn in E'. rewrite !andb_false_r in E'. discriminate. }
    destruct l as [|e4 l].
    { cbn [app startswith] in E'.
      rewrite Hqi, !andb_false_r in E'. discriminate. }
    cbn [app startswith] in E, E'.
    destruct (Ascii.eqb "i" e); [| discriminate].
    destruct (Ascii.eqb "d" e2); [| discriminate].
    destruct (Ascii.eqb "=" e3); [| discriminate].
    destruct (Ascii.eqb q e4); [| discriminate].
    cbn [andb] in E, E'.
    apply (value_end_within q rest Hq x l Hx) in E'. congruence.
Qed.

Lemma quote_not_letters (q : ascii) :
  is_quote q = true ->
  Ascii.eqb "i" q = false /\ Ascii.eqb "d" q = false
  /\ Ascii.eqb "=" q = false.
Proof.
  intros Hq. destruct (quote_cases q Hq) as [-> | ->]; repeat split.
Qed.

(** No attribute text starts inside the value of another one. *)
Lemma no_start_in_value (q q' : ascii) (x r : str) :
  is_quote q' = true ->
  forall y : str,
    plain y = true ->
    occurrences (id_attr q x) (value_end q' y ++ r)
    = occurrences (id_attr q x) r.
Proof.
  intros Hq'. destruct (quote_not_letters q' Hq') as [Hi [Hd He]].
  rewrite id_attr_unfold.
  induction y as [|a y IH]; intros Hy.
  - cbn [value_end app occurrences startswith]. now rewrite Hi.
  - cbn [plain forallb] in Hy. apply andb_true_iff in Hy as [Ha Hy].
    cbn [value_end app occurrences]. fold (value_end q' y).
    rewrite (IH Hy).
    assert (Hs : startswith ("i"%char :: "d"%char :: "="%char
                               :: q :: value_end q x)
                            (a :: value_end q' y ++ r) = false).
    { cbn [startswith]. destruct (Ascii.eqb "i" a); [| reflexivity].
      cbn [andb]. destruct y as [|b y].
      - cbn [value_end app]. now rewrite Hd.
      - cbn [value_end app]. destruct (Ascii.eqb "d" b); [| reflexivity].
        cbn [andb]. destruct y as [|b' y].
        + cbn [app]. now rewrite He.
        + cbn [app]. cbn [forallb] in Hy.
          apply andb_true_iff in Hy as [_ Hy].
          apply andb_true_iff in Hy as [Hb' _].
          apply plain_not_equals in Hb'. rewrite Ascii.eqb_sym in Hb'.
          now rewrite Hb'. }
    now rewrite Hs.
Qed.

(** Two plain values with their closing quotes start at the same place
    only when they are equal. *)
Lemma value_end_same (q : ascii) (r : str) :
  is_quote q = true ->
  forall x y : str,
    plain x = true -> plain y = true ->
    startswith (value_end q x) (value_end q y ++ r) = str_eqb x y.
Proof.
  intros Hq. induction x as [|a x IH]; intros y Hx Hy.
  - destruct y as [|b y].
    + cbn. now rewrite Ascii.eqb_refl.
    + cbn [plain forallb] in Hy. apply andb_true_iff in Hy as [Hb _].
      cbn. rewrite Ascii.eqb_sym, (plain_not_quote _ _ Hb Hq). reflexivity.
  - cbn [plain forallb] in Hx. apply andb_true_iff in Hx as [Ha Hx].
    destruct y as [|b y].
    + cbn [value_end app startswith].
      now rewrite (plain_not_quote _ _ Ha Hq).
    + cbn [plain forallb] in Hy. apply andb_true_iff in Hy as [Hb Hy].
      cbn [value_end app startswith]. fold (value_end q x).
      fold (value_end q y). rewrite (IH y Hx Hy).
      destruct (Ascii.eqb a b) eqn:E.
      * apply Ascii.eqb_eq in E. subst b. cbn [andb].
        destruct (str_eqb x y) eqn:E2.
        -- apply str_eqb_eq in E2. subst y. symmetry. apply str_eqb_refl.
        -- symmetry. apply str_eqb_neq. apply str_eqb_neq in E2. congruence.
      * cbn [andb]. symmetry. apply str_eqb_neq. intros Heq.
        injection Heq as -> _. now rewrite Ascii.eqb_refl in E.
Qed.

(** The occurrences of an attribute text around another attribute text:
    those before it, the other text itself when it is the same, and those
    after it. *)
Lemma occurrences_around (q q' : ascii) (x y : str) :
  is_quote q = true -> is_quote q' = true ->
  plain x = true -> plain y = true ->
  forall p r : str,
    occurrences (id_attr q x) (p ++ id_attr q' y ++ r)
    = occurrences (id_attr q x) p
      + (if Ascii.eqb q q' && str_eqb x y then 1 else 0)
      + occurrences (id_attr q x) r.
Proof.
  intros Hq Hq' Hx Hy p r.
  destruct (quote_not_letters q' Hq') as [Hi [Hd He]].
  induction p as [|e p IH].
  - cbn [app]. rewrite (id_attr_unfold q' y).
    cbn [app occurrences]. rewrite no_start_in_value by assumption.
    rewrite (id_attr_unfold q x).
    cbn [startswith]. rewrite Hi.
    change (Ascii.eqb "i" "d") with false.
    change (Ascii.eqb "i" "=") with false.
    rewrite !Ascii.eqb_refl. cbn [andb plus].
    destruct (Ascii.eqb q q') eqn:E; cbn [andb]; [| lia].
    apply Ascii.eqb_eq in E. subst q'.
    rewrite value_end_same by assumption.
    destruct (str_eqb x y); lia.
  - cbn [app occurrences].
    change (e :: p ++ id_attr q' y ++ r)
      with ((e :: p) ++ id_attr q' y ++ r).
    rewrite (id_attr_unfold q' y) at 1. cbn [app].
    change (e :: p ++ "i"%char :: "d"%char :: "="%char
              :: q' :: value_end q' y ++ r)
      with ((e :: p) ++ "i"%char :: "d"%char :: "="%char
              :: q' :: value_end q' y ++ r).
    rewrite id_attr_within by assumption. rewrite IH. lia.
Qed.

(* ------------------------------------------------------------------ *)
(** ** Tag Rewriter: the four patterns *)

(** The pattern for a quote character and an attribute order. *)
Definition pat (q : ascii) (id_first : bool) (v : str) : regex :=
  if id_first then tag_re (id_attr q v) (class_tkk q)
  else tag_re (class_tkk q) (id_attr q v).

Lemma patterns_pat (v : str) :
  patterns v = [pat dq true v; pat dq false v; pat sq true v; pat sq false v].
Proof. reflexivity. Qed.

(** The occurrences of the attribute text of an identifier, in either
    quote character. *)
Definition id_occurrences (v s : str) : nat :=
  occurrences (id_attr dq v) s + occurrences (id_attr sq v) s.

(** A match of a pattern holds the attribute text of the identifier, and
    the same tag with another identifier in its place matches the pattern
    for that identifier. *)
Lemma pat_match_shape (q : ascii) (id_first : bool) (v mt after : str)
      (c c' : caps) :
  In (after, c') (matches (pat q id_first v) (mt ++ after, c)) ->
  exists m1 m2,
    mt = m1 ++ id_attr q v ++ m2
    /\ m1 <> []
    /\ forall (v' after' : str) (c0 : caps),
        matches (pat q id_first v')
                (m1 ++ id_attr q v' ++ m2 ++ after', c0) <> [].
Proof.
  intros H. unfold pat in *. destruct id_first.
  - apply in_tag_re in H as [[u [x [w [Heq [Hu [Hx Hw]]]]]] _].
    cbn [fst] in Heq.
    exists ("<"%char :: u), (x ++ class_tkk q ++ w ++ [">"%char]).
    split; [| split; [discriminate |]].
    + apply (app_inv_tail after). rewrite Heq. cbn [app].
      now rewrite <- !app_assoc.
    + intros v' after' c0 Hnil.
      assert (Hin : In (after', c0)
                (matches (tag_re (id_attr q v') (class_tkk q))
                   (("<"%char :: u) ++ id_attr q v'
                    ++ (x ++ class_tkk q ++ w ++ [">"%char]) ++ after', c0))).
      { apply in_tag_re. split; [| reflexivity]. exists u, x, w.
        cbn [fst app]. rewrite <- !app_assoc. auto. }
      now rewrite Hnil in Hin.
  - apply in_tag_re in H as [[u [x [w [Heq [Hu [Hx Hw]]]]]] _].
    cbn [fst] in Heq.
    exists ("<"%char :: u ++ class_tkk q ++ x), (w ++ [">"%char]).
    split; [| split; [discriminate |]].
    + apply (app_inv_tail after). rewrite Heq. cbn [app].
      now rewrite <- !app_assoc.
    + intros v' after' c0 Hnil.
      assert (Hin : In (after', c0)
                (matches (tag_re (class_tkk q) (id_attr q v'))
                   (("<"%char :: u ++ class_tkk q ++ x) ++ id_attr q v'
                    ++ (w ++ [">"%char]) ++ after', c0))).
      { apply in_tag_re. split; [| reflexivity]. exists u, x, w.
        cbn [fst app]. rewrite <- !app_assoc. auto. }
      now rewrite Hnil in Hin.
Qed.

Lemma search_found (r : regex) (pre s : str) :
  matches r (s, []) <> [] -> search r (pre ++ s) <> None.
Proof. intros H Hn. apply H. eapply search_none_at; eauto. Qed.

(** What a successful search for a pattern gives. *)
Lemma search_pat (q : ascii) (id_first : bool) (v s : str) (m : found) :
  search (pat q id_first v) s = Some m ->
  exists m1 m2,
    f_match m = m1 ++ id_attr q v ++ m2
    /\ m1 <> []
    /\ s = f_before m ++ f_match m ++ f_after m
    /\ forall v',
        search (pat q id_first v')
               (f_before m ++ m1 ++ id_attr q v' ++ m2 ++ f_after m)
        <> None.
Proof.
  intros H. apply search_some in H as [Hs Hin].
  apply pat_match_shape in Hin as [m1 [m2 [Hm [Hne Hall]]]].
  exists m1, m2. repeat split; auto.
  intros v'. apply search_found, Hall.
Qed.

Lemma id_attr_cons (q : ascii) (v : str) :
  id_attr q v = "i"%char :: L "d=" ++ q :: v ++ [q].
Proof. reflexivity. Qed.

(** The matches of a pattern are not more than the occurrences of the
    attribute text. *)
Lemma finditer_pat_bound (q : ascii) (id_first : bool) (v : str) :
  forall (fuel : nat) (s : str),
    length (finditer fuel (pat q id_first v) s)
    <= occurrences (id_attr q v) s.
Proof.
  induction fuel as [|f IH]; intros s; [cbn; lia |].
  cbn [finditer].
  destruct (search (pat q id_first v) s) as [m|] eqn:E; [| cbn; lia].
  destruct (search_pat _ _ _ _ _ E) as [m1 [m2 [Hm [Hne [Hs _]]]]].
  rewrite Hm. destruct m1 as [|c1 m1]; [congruence |]. cbn [app length].
  specialize (IH (f_after m)).
  rewrite Hs, Hm at 1. rewrite id_attr_cons in *.
  pose proof (occurrences_app "i" (L "d=" ++ q :: v ++ [q])
                (f_before m ++ (c1 :: m1)
                 ++ ("i"%char :: L "d=" ++ q :: v ++ [q]) ++ m2)
                (f_after m)) as H1.
  pose proof (occurrences_context "i" (L "d=" ++ q :: v ++ [q])
                (f_before m ++ (c1 :: m1))
                ("i"%char :: L "d=" ++ q :: v ++ [q]) m2) as H2.
  pose proof (occurrences_here ("i"%char :: L "d=" ++ q :: v ++ [q]) [])
    as H3.
  rewrite app_nil_r in H3. rewrite <- !app_assoc in *. cbn [app] in *.
  lia.
Qed.

Lemma count_matches_bound (q : ascii) (id_first : bool) (v s : str) :
  count_matches (pat q id_first v) s <= occurrences (id_attr q v) s.
Proof. apply finditer_pat_bound. Qed.

Lemma search_pat_absent (q : ascii) (id_first : bool) (v s : str) :
  occurrences (id_attr q v) s = 0 -> search (pat q id_first v) s = None.
Proof.
  intros H. pose proof (finditer_pat_bound q id_first v 1 s) as Hb.
  cbn [finditer] in Hb. rewrite H in Hb.
  destruct (search (pat q id_first v) s);
    [cbn [length] in Hb; lia | reflexivity].
Qed.

Lemma occurrences_suffix (c : ascii) (a x y : str) :
  occurrences (c :: a) (x ++ y) = 0 ->
  occurrences (c :: a) x = 0 /\ occurrences (c :: a) y = 0.
Proof. intros H. pose proof (occurrences_app c a x y). lia. Qed.

Lemma sq_not_dq : Ascii.eqb sq dq = false /\ Ascii.eqb dq sq = false.
Proof. split; reflexivity. Qed.

Lemma str_replace_id_attr (q : ascii) (v b s : str) :
  str_replace (id_attr q v) b s
  = replace_loop (S (length s)) (id_attr q v) b s.
Proof. reflexivity. Qed.

Lemma str_replace_absent (q : ascii) (v b s : str) :
  occurrences (id_attr q v) s = 0 -> str_replace (id_attr q v) b s = s.
Proof.
  intros H. rewrite str_replace_id_attr.
  exact (replace_loop_absent "i" (L "d=" ++ q :: v ++ [q]) b _ s H).
Qed.

Lemma str_replace_unique (q : ascii) (v b p r : str) :
  occurrences (id_attr q v) (p ++ id_attr q v ++ r) = 1 ->
  str_replace (id_attr q v) b (p ++ id_attr q v ++ r) = p ++ b ++ r.
Proof.
  intros H. rewrite str_replace_id_attr.
  apply (replace_loop_unique "i" (L "d=" ++ q :: v ++ [q]) b p r _ H).
  rewrite length_app. lia.
Qed.

(** [replace_id] on a text that holds the attribute text of the old
    identifier once: that occurrence gets the new identifier. *)
Lemma replace_id_unique (old_val new_val : str) (q : ascii) (m1 m2 : str) :
  is_quote q = true ->
  plain old_val = true -> plain new_val = true ->
  id_occurrences old_val m1 = 0 -> id_occurrences old_val m2 = 0 ->
  replace_id old_val new_val (m1 ++ id_attr q old_val ++ m2)
  = m1 ++ id_attr q new_val ++ m2.
Proof.
  intros Hq Ho Hn H1 H2. unfold id_occurrences in H1, H2.
  assert (Hdq : is_quote dq = true) by reflexivity.
  assert (Hsq : is_quote sq = true) by reflexivity.
  unfold replace_id.
  destruct (quote_cases q Hq) as [-> | ->].
  - rewrite str_replace_unique.
    + apply str_replace_absent.
      rewrite occurrences_around by assumption.
      change (Ascii.eqb sq dq) with false. cbn [andb]. lia.
    + rewrite occurrences_around by assumption.
      rewrite Ascii.eqb_refl, str_eqb_refl. cbn [andb]. lia.
  - rewrite (str_replace_absent dq).
    + apply str_replace_unique.
      rewrite occurrences_around by assumption.
      rewrite Ascii.eqb_refl, str_eqb_refl. cbn [andb]. lia.
    + rewrite occurrences_around by assumption.
      change (Ascii.eqb dq sq) with false. cbn [andb]. lia.
Qed.

(* ------------------------------------------------------------------ *)
(** ** Tag Rewriter: a text with one occurrence of the old attribute text *)

Section UniqueOccurrence.

Variables (old_val new_val p r : str) (q : ascii).
Hypothesis Hq : is_quote q = true.
Hypothesis Hold : plain old_val = true.
Hypothesis Hnew : plain new_val = true.
Hypothesis Huniq :
  id_occurrences old_val (p ++ id_attr q old_val ++ r) = 1.

Lemma unique_parts_clean :
  id_occurrences old_val p = 0 /\ id_occurrences old_val r = 0.
Proof.
  unfold id_occurrences in *.
  rewrite !occurrences_around in Huniq by auto.
  rewrite str_eqb_refl in Huniq.
  destruct (quote_cases q Hq) as [Hd | Hs]; rewrite ?Hd, ?Hs in Huniq;
    cbn [andb] in Huniq;
    change (Ascii.eqb dq dq) with true in Huniq;
    change (Ascii.eqb sq sq) with true in Huniq;
    change (Ascii.eqb sq dq) with false in Huniq;
    change (Ascii.eqb dq sq) with false in Huniq;
    cbn [andb] in Huniq; lia.
Qed.

Lemma unique_quote (q0 : ascii) :
  is_quote q0 = true ->
  1 <= occurrences (id_attr q0 old_val) (p ++ id_attr q old_val ++ r) ->
  q0 = q.
Proof.
  intros Hq0 H. destruct unique_parts_clean as [Hp Hr].
  unfold id_occurrences in Hp, Hr.
  rewrite occurrences_around in H by auto.
  destruct (Ascii.eqb q0 q) eqn:E; [now apply Ascii.eqb_eq |].
  cbn [andb] in H. destruct (quote_cases q0 Hq0) as [-> | ->]; lia.
Qed.

Lemma unique_one : occurrences (id_attr q old_val)
                               (p ++ id_attr q old_val ++ r) = 1.
Proof.
  destruct unique_parts_clean as [Hp Hr]. unfold id_occurrences in Hp, Hr.
  rewrite occurrences_around by auto.
  rewrite Ascii.eqb_refl, str_eqb_refl. cbn [andb].
  destruct (quote_cases q Hq) as [-> | ->]; lia.
Qed.

(** Where a pattern for the old identifier matches in the text: around
    the one occurrence. *)
Lemma unique_match (q0 : ascii) (id_first : bool) (m : found) :
  is_quote q0 = true ->
  search (pat q0 id_first old_val) (p ++ id_attr q old_val ++ r) = Some m ->
  q0 = q
  /\ exists m1 m2,
      f_match m = m1 ++ id_attr q old_val ++ m2
      /\ m1 <> []
      /\ p = f_before m ++ m1
      /\ r = m2 ++ f_after m
      /\ forall v',
          search (pat q id_first v')
                 (f_before m ++ m1 ++ id_attr q v' ++ m2 ++ f_after m)
          <> None.
Proof.
  intros Hq0 E.
  destruct (search_pat _ _ _ _ _ E) as [m1 [m2 [Hm [Hne [Hs Hall]]]]].
  assert (Heq : p ++ id_attr q old_val ++ r
                = (f_before m ++ m1) ++ id_attr q0 old_val
                  ++ (m2 ++ f_after m)).
  { rewrite Hs at 1. rewrite Hm. now rewrite <- !app_assoc. }
  assert (Hq0q : q0 = q).
  { apply unique_quote; [exact Hq0 |]. rewrite Heq.
    exact (occurrences_inside "i" (L "d=" ++ q0 :: old_val ++ [q0]) _ _). }
  subst q0. split; [reflexivity |]. exists m1, m2.
  pose proof unique_one as H1.
  destruct (unique_occurrence_place
              "i" (L "d=" ++ q :: old_val ++ [q])
              p (f_before m ++ m1) r (m2 ++ f_after m) H1 Heq) as [Hp Hr].
  repeat split; auto.
Qed.

(** One substitution step on the text: nothing when the pattern has no
    match, the rewritten occurrence when it has one. *)
Lemma unique_step (q0 : ascii) (id_first : bool) :
  is_quote q0 = true ->
  re_sub (pat q0 id_first old_val) (replace_id old_val new_val)
         (p ++ id_attr q old_val ++ r)
  = if count_matches (pat q0 id_first old_val)
                     (p ++ id_attr q old_val ++ r) =? 0
    then p ++ id_attr q old_val ++ r
    else p ++ id_attr q new_val ++ r.
Proof.
  intros Hq0. unfold re_sub, count_matches.
  cbn [sub_loop finditer].
  destruct (search (pat q0 id_first old_val) _) as [m|] eqn:E;
    [| reflexivity].
  cbn [length Nat.eqb].
  destruct (unique_match q0 id_first m Hq0 E)
    as [-> [m1 [m2 [Hm [Hne [Hp [Hr _]]]]]]].
  destruct unique_parts_clean as [Cp Cr].
  unfold id_occurrences in Cp, Cr. rewrite Hp in Cp. rewrite Hr in Cr.
  assert (C1 : id_occurrences old_val m1 = 0).
  { unfold id_occurrences.
    pose proof (occurrences_suffix "i" (L "d=" ++ dq :: old_val ++ [dq])
                  (f_before m) m1).
    pose proof (occurrences_suffix "i" (L "d=" ++ sq :: old_val ++ [sq])
                  (f_before m) m1).
    rewrite !id_attr_cons in *. lia. }
  assert (C2 : id_occurrences old_val m2 = 0
               /\ id_occurrences old_val (f_after m) = 0).
  { unfold id_occurrences.
    pose proof (occurrences_suffix "i" (L "d=" ++ dq :: old_val ++ [dq])
                  m2 (f_after m)).
    pose proof (occurrences_suffix "i" (L "d=" ++ sq :: old_val ++ [sq])
                  m2 (f_after m)).
    rewrite !id_attr_cons in *. lia. }
  destruct C2 as [C2 C3].
  rewrite Hm. rewrite replace_id_unique by assumption.
  assert (Hafter : search (pat q id_first old_val) (f_after m) = None).
  { apply search_pat_absent. unfold id_occurrences in C3.
    destruct (quote_cases q Hq) as [-> | ->]; lia. }
  destruct m1 as [|c1 m1]; [congruence |]. cbn [app].
  rewrite sub_loop_none by assumption.
  rewrite Hp, Hr. cbn [app]. now rewrite <- !app_assoc.
Qed.

(** After the occurrence is rewritten, no pattern for the old identifier
    matches. *)
Lemma unique_step_done (q0 : ascii) (id_first : bool) :
  is_quote q0 = true -> old_val <> new_val ->
  re_sub (pat q0 id_first old_val) (replace_id old_val new_val)
         (p ++ id_attr q new_val ++ r)
  = p ++ id_attr q new_val ++ r.
Proof.
  intros Hq0 Hne. apply sub_loop_none, search_pat_absent.
  destruct unique_parts_clean as [Cp Cr]. unfold id_occurrences in Cp, Cr.
  rewrite occurrences_around by auto.
  apply str_eqb_neq in Hne. rewrite Hne, andb_false_r.
  destruct (quote_cases q0 Hq0) as [-> | ->]; lia.
Qed.

(** The rewrite of a text with one qualifying occurrence: exactly the
    attribute text of the old identifier changes. *)
Lemma update_unique :
  total_tkk_matches (p ++ id_attr q old_val ++ r) old_val = 1 ->
  update_svg_id (p ++ id_attr q old_val ++ r) old_val new_val
  = (p ++ id_attr q new_val ++ r, None).
Proof.
  intros Htotal. unfold update_svg_id. rewrite Htotal.
  change (1 <? 1) with false. cbv iota. f_equal.
  unfold total_tkk_matches in Htotal. rewrite patterns_pat in *.
  cbn [fold_left] in Htotal |- *.
  assert (Hdq : is_quote dq = true) by reflexivity.
  assert (Hsq : is_quote sq = true) by reflexivity.
  destruct (list_eq_dec ascii_dec old_val new_val) as [Heq | Hne].
  - assert (Htext : p ++ id_attr q new_val ++ r
                    = p ++ id_attr q old_val ++ r) by now rewrite Heq.
    rewrite Htext.
    rewrite (unique_step dq true) by assumption.
    destruct (_ =? 0); rewrite ?Htext;
      rewrite (unique_step dq false) by assumption;
      destruct (_ =? 0); rewrite ?Htext;
      rewrite (unique_step sq true) by assumption;
      destruct (_ =? 0); rewrite ?Htext;
      rewrite (unique_step sq false) by assumption;
      destruct (_ =? 0); rewrite ?Htext; reflexivity.
  - rewrite (unique_step dq true) by assumption.
    destruct (count_matches (pat dq true old_val) _ =? 0) eqn:E1;
      [| now rewrite !unique_step_done].
    rewrite (unique_step dq false) by assumption.
    destruct (count_matches (pat dq false old_val) _ =? 0) eqn:E2;
      [| now rewrite !unique_step_done].
    rewrite (unique_step sq true) by assumption.
    destruct (count_matches (pat sq true old_val) _ =? 0) eqn:E3;
      [| now rewrite !unique_step_done].
    rewrite (unique_step sq false) by assumption.
    destruct (count_matches (pat sq false old_val) _ =? 0) eqn:E4;
      [| reflexivity].
    apply Nat.eqb_eq in E1, E2, E3, E4. lia.
Qed.

End UniqueOccurrence.

Lemma count_matches_zero (r : regex) (s : str) :
  count_matches r s = 0 <-> search r s = None.
Proof.
  unfold count_matches. cbn [finditer].
  destruct (search r s); split; intros H; try reflexivity; discriminate.
Qed.

(** A pattern that matches the text for the old identifier matches the
    rewritten text for the new one. *)
Lemma match_transfer (old_val new_val p r : str) (q q0 : ascii)
      (id_first : bool) :
  is_quote q = true -> is_quote q0 = true ->
  plain old_val = true ->
  id_occurrences old_val (p ++ id_attr q old_val ++ r) = 1 ->
  search (pat q0 id_first old_val) (p ++ id_attr q old_val ++ r) <> None ->
  search (pat q0 id_first new_val) (p ++ id_attr q new_val ++ r) <> None.
Proof.
  intros Hq Hq0 Hold Huniq Hs.
  destruct (search (pat q0 id_first old_val) _) as [m|] eqn:E;
    [| congruence].
  destruct (unique_match old_val p r q Hq Hold Huniq q0 id_first m Hq0 E)
    as [-> [m1 [m2 [_ [_ [Hp [Hr Hall]]]]]]].
  specialize (Hall new_val). rewrite Hp, Hr.
  now rewrite <- !app_assoc.
Qed.

Lemma count_transfer (old_val new_val p r : str) (q q0 : ascii)
      (id_first : bool) :
  is_quote q = true -> is_quote q0 = true ->
  plain old_val = true -> plain new_val = true ->
  id_occurrences old_val (p ++ id_attr q old_val ++ r) = 1 ->
  id_occurrences new_val (p ++ id_attr q new_val ++ r) = 1 ->
  count_matches (pat q0 id_first new_val) (p ++ id_attr q new_val ++ r)
  = count_matches (pat q0 id_first old_val) (p ++ id_attr q old_val ++ r).
Proof.
  intros Hq Hq0 Hold Hnew Ho Hn.
  pose proof (count_matches_bound q0 id_first old_val
                (p ++ id_attr q old_val ++ r)) as B1.
  pose proof (count_matches_bound q0 id_first new_val
                (p ++ id_attr q new_val ++ r)) as B2.
  assert (O1 : occurrences (id_attr q0 old_val)
                           (p ++ id_attr q old_val ++ r) <= 1)
    by (unfold id_occurrences in Ho;
        destruct (quote_cases q0 Hq0) as [-> | ->]; lia).
  assert (O2 : occurrences (id_attr q0 new_val)
                           (p ++ id_attr q new_val ++ r) <= 1)
    by (unfold id_occurrences in Hn;
        destruct (quote_cases q0 Hq0) as [-> | ->]; lia).
  destruct (count_matches (pat q0 id_first old_val) _) as [|n1] eqn:E1;
    destruct (count_matches (pat q0 id_first new_val) _) as [|n2] eqn:E2;
    try lia.
  - exfalso. apply count_matches_zero in E1.
    apply (match_transfer new_val old_val p r q q0 id_first); auto.
    intros Hnone. apply count_matches_zero in Hnone. lia.
  - exfalso. apply count_matches_zero in E2.
    apply (match_transfer old_val new_val p r q q0 id_first); auto.
    intros Hnone. apply count_matches_zero in Hnone. lia.
Qed.

(** Rewriting the one occurrence gives a text with one occurrence of the
    new attribute text, when the new attribute text was not there. *)
Lemma rewritten_unique (old_val new_val p r : str) (q : ascii) :
  is_quote q = true ->
  plain old_val = true -> plain new_val = true ->
  id_occurrences new_val (p ++ id_attr q old_val ++ r) = 0 ->
  id_occurrences new_val (p ++ id_attr q new_val ++ r) = 1.
Proof.
  intros Hq Hold Hnew H0. unfold id_occurrences in *.
  assert (Hdq : is_quote dq = true) by reflexivity.
  assert (Hsq : is_quote sq = true) by reflexivity.
  rewrite !occurrences_around in * by assumption.
  rewrite str_eqb_refl.
  destruct (quote_cases q Hq) as [-> | ->];
    change (Ascii.eqb dq dq) with true;
    change (Ascii.eqb sq sq) with true;
    change (Ascii.eqb sq dq) with false;
    change (Ascii.eqb dq sq) with false; cbn [andb]; lia.
Qed.









(* ------------------------------------------------------------------ *)
(** ** Tag Rewriter: ambiguity *)




(** The attribute texts of a pattern, in the order of the pattern. *)
Definition attrs (q : ascii) (id_first : bool) (v : str) : str * str :=
  if id_first then (id_attr q v, class_tkk q) else (class_tkk q, id_attr q v).

Lemma pat_attrs (q : ascii) (id_first : bool) (v : str) :
  pat q id_first v
  = tag_re (fst (attrs q id_first v)) (snd (attrs q id_first v)).
Proof. now destruct id_first. Qed.











(* ------------------------------------------------------------------ *)
(** ** A run over a settled document *)




Lemma dict_get_in {V : Type} (k : str) (v : V) (l : list (str * V)) :
  dict_get k l = Some v -> In (k, v) l.
Proof.
  induction l as [|[k' v'] l IH]; cbn; [discriminate |].
  destruct (str_eqb k' k) eqn:E.
  - apply str_eqb_eq in E. subst k'. intros H. injection H as ->. now left.
  - auto.
Qed.

Lemma in_dict_set {V : Type} (k : str) (v : V) (l : list (str * V))
      (x : str * V) :
  In x (dict_set k v l) -> fst x = k /\ snd x = v \/ In x l.
Proof.
  induction l as [|[k' v'] l IH]; cbn.
  - intros [<- | []]. auto.
  - destruct (str_eqb k' k) eqn:E.
    + apply str_eqb_eq in E. subst k'. intros [<- | H]; auto.
    + intros [<- | H]; [auto |]. destruct (IH H); auto.
Qed.







Lemma replace_loop_same (a : str) :
  forall (fuel : nat) (s : str), replace_loop fuel a a s = s.
Proof.
  induction fuel as [|f IH]; intros s; [reflexivity |].
  cbn [replace_loop]. destruct (startswith a s) eqn:E.
  - apply startswith_iff in E as [r ->].
    now rewrite skipn_app, Nat.sub_diag, skipn_all, IH.
  - destruct s; [reflexivity |]. now rewrite IH.
Qed.

Lemma replace_id_same (v mt : str) : replace_id v v mt = mt.
Proof.
  unfold replace_id. rewrite !str_replace_id_attr.
  now rewrite !replace_loop_same.
Qed.

(** Rewriting an identifier to itself leaves the text as it is. *)
Lemma update_svg_id_same (text v : str) :
  fst (update_svg_id text v v) = text.
Proof.
  unfold update_svg_id. destruct (1 <? _); [reflexivity |]. cbn [fst].
  generalize (patterns v). intros ps. induction ps as [|pat ps IH];
    [reflexivity |].
  cbn [fold_left]. unfold re_sub at 2.
  rewrite sub_loop_identity by apply replace_id_same. exact IH.
Qed.













Lemma get_relevant_svgs_incl (new_id : str) (all_svg_files : list str)
      (num : str) :
  incl (get_relevant_svgs new_id all_svg_files num) all_svg_files.
Proof.
  intros f. unfold get_relevant_svgs.
  destruct (contains (L "SkRT") new_id).
  - intros H. now apply filter_In in H.
  - destruct (search tf_re new_id);
      [| destruct (search sk_re new_id)]; intros H;
      repeat (apply filter_In in H as [H _]); exact H.
Qed.





(* ------------------------------------------------------------------ *)
(** ** Runs of the scenarios *)

Definition ref_block (v : string) : block := mkBlock (Some (L v)) [].



(** The literal scenario: one entry with two blocks and one markup file
    with the two elements. *)
Definition scenario_text (v w : str) : str :=
  g_class_id dq v ++ L "c</g>" ++ g_id_class dq w.

Definition scenario_fs (v w : string) : filesystem :=
  mkFS (Json [mkEntry (Some (L "M_143"))
                      [mkGroup [ref_block v; ref_block w]]])
       (Listing [(L "M_143_test.svg", scenario_text (L v) (L w))]).

Example scenario_first_run :
  process_tkk_ids (scenario_fs "old-id-1" "old-id-2")
                  (L "textcritics.json") (L "svgs") (L "g-tkk-")
  = (Ok (mkOutcome
           [mkEntry (Some (L "M_143"))
                    [mkGroup [ref_block "g-tkk-1"; ref_block "g-tkk-2"]]]
           [(L "M_143_test.svg",
             mkSvg (scenario_text (L "g-tkk-1") (L "g-tkk-2"))
                   (L "M_143_test.svg"))]
           true []),
     scenario_fs "g-tkk-1" "g-tkk-2").
Proof. vm_compute. reflexivity. Qed.




(* ================================================================== *)
(** * The run as a whole, the caches and the remaining branches *)

From Stdlib Require DecimalNat DecimalFacts.

(* ------------------------------------------------------------------ *)
(** ** The document after a run *)

(** What the run may do to a block: leave it as it is, or put the prefix
    and a number from 1 on in the place of an identifier that is neither
    empty nor [TODO].  The other fields stay. *)
Definition block_step (prefix : str) (b b' : block) : Prop :=
  b' = b
  \/ exists (old_val : str) (n : nat),
      svgGroupId b = Some old_val
      /\ nonempty old_val = true /\ old_val <> TODO
      /\ 1 <= n
      /\ b' = mkBlock (Some (prefix ++ str_of_nat n)) (block_fields b).

Definition group_step (prefix : str) (g g' : comment_group) : Prop :=
  Forall2 (block_step prefix) (blockComments g) (blockComments g').

Definition entry_step (prefix : str) (e e' : entry) : Prop :=
  entry_id e' = entry_id e
  /\ Forall2 (group_step prefix) (comments e) (comments e').

Lemma numbered_value (prefix : str) (m : list (str * str)) (k v : str) :
  numbered prefix m -> In (k, v) m ->
  exists n, 1 <= n <= length m /\ v = prefix ++ str_of_nat n.
Proof.
  unfold numbered. intros Hn Hin.
  assert (Hv : In v (map snd m)) by (apply in_map_iff; now exists (k, v)).
  rewrite Hn in Hv. apply in_map_iff in Hv as [n [<- Hn']].
  apply in_seq in Hn'. exists n. split; [lia | reflexivity].
Qed.

(** The identifier [assign] gives is the prefix and a number from 1 on. *)
Lemma assign_value (old_val prefix : str) (m : list (str * str)) :
  numbered prefix m ->
  exists n, 1 <= n /\ snd (assign old_val m prefix) = prefix ++ str_of_nat n.
Proof.
  intros Hn. unfold assign.
  destruct (dict_get old_val m) as [v|] eqn:E; cbn [snd].
  - apply dict_get_in in E.
    destruct (numbered_value _ _ _ _ Hn E) as [n [Hle ->]].
    exists n. split; [lia | reflexivity].
  - exists (length m + 1). split; [lia | reflexivity].
Qed.

Lemma renamed_real (b : block) (ok : bool) (old_val : str) :
  renamed b ok = Some old_val ->
  svgGroupId b = Some old_val /\ nonempty old_val = true /\ old_val <> TODO.
Proof.
  unfold renamed. destruct (svgGroupId b) as [v|]; [| discriminate].
  destruct (ok && nonempty v && negb (str_eqb v TODO)) eqn:E;
    [| discriminate].
  intros H. injection H as ->.
  apply andb_true_iff in E as [E1 E2]. apply andb_true_iff in E1 as [_ E1].
  apply negb_true_iff, str_eqb_neq in E2. auto.
Qed.

Lemma process_block_comment_step
      (b : block) (relevant : list str) (m : list (str * str))
      (prefix : str) (c : caches) :
  numbered prefix m ->
  block_step prefix b
             (bs_block (snd (process_block_comment b relevant m prefix c)))
  /\ numbered prefix
              (bs_mapping (snd (process_block_comment b relevant m prefix c))).
Proof.
  intros Hn.
  destruct (process_block_comment_effect b relevant m prefix c) as [Hm Hb].
  rewrite Hm, Hb.
  destruct (renamed b (fst (process_block_comment b relevant m prefix c)))
    as [old_val|] eqn:Hr.
  - split; [| now apply assign_numbered].
    right. destruct (renamed_real _ _ _ Hr) as [H1 [H2 H3]].
    destruct (assign_value old_val prefix m Hn) as [n [Hle Hv]].
    exists old_val, n. rewrite Hv. auto.
  - split; [now left | exact Hn].
Qed.

Lemma process_blocks_step (relevant : list str) (prefix : str) :
  forall (bs : list block) (m : list (str * str)) (c : caches),
    numbered prefix m ->
    Forall2 (block_step prefix) bs
            (map snd (fst (fst (process_blocks bs relevant m prefix c))))
    /\ numbered prefix (snd (fst (process_blocks bs relevant m prefix c))).
Proof.
  induction bs as [|b bs IH]; intros m c Hn.
  - cbn. auto.
  - cbn [process_blocks].
    destruct (process_block_comment_step b relevant m prefix c Hn)
      as [Hb Hm].
    destruct (process_block_comment b relevant m prefix c) as [ok st].
    cbn [fst snd] in Hb, Hm.
    destruct (IH (bs_mapping st) (bs_caches st) Hm) as [H1 H2].
    destruct (process_blocks bs relevant (bs_mapping st) prefix
                             (bs_caches st)) as [[outs m'] c'].
    cbn [fst snd map] in *. auto.
Qed.

Lemma process_groups_step (relevant : list str) (prefix : str) :
  forall (gs : list comment_group) (m : list (str * str)) (c : caches),
    numbered prefix m ->
    Forall2 (group_step prefix) gs
            (map (fun out => mkGroup (map snd out))
                 (fst (fst (process_groups gs relevant m prefix c))))
    /\ numbered prefix (snd (fst (process_groups gs relevant m prefix c))).
Proof.
  induction gs as [|g gs IH]; intros m c Hn.
  - cbn. auto.
  - cbn [process_groups].
    destruct (process_blocks_step relevant prefix (blockComments g) m c Hn)
      as [Hb Hm].
    destruct (process_blocks (blockComments g) relevant m prefix c)
      as [[out m1] c1].
    cbn [fst snd] in Hb, Hm.
    destruct (IH m1 c1 Hm) as [H1 H2].
    destruct (process_groups gs relevant m1 prefix c1) as [[outs m2] c2].
    cbn [fst snd map] in *. split; [| exact H2].
    constructor; [exact Hb | exact H1].
Qed.

Lemma process_entry_step (e : entry) (all_svg_files : list str)
      (prefix : str) (c : caches) :
  entry_step prefix e (er_entry (process_entry e all_svg_files prefix c)).
Proof.
  unfold process_entry.
  destruct (if nonempty (new_id_of e) then _ else _) as [relevant c0].
  destruct (process_groups_step relevant prefix (comments e) [] c0
              eq_refl) as [H _].
  destruct (process_groups (comments e) relevant [] prefix c0)
    as [[outs m] c'].
  cbn [fst snd er_entry] in *. split; [reflexivity | exact H].
Qed.

Lemma process_entries_step (all_svg_files : list str) (prefix : str) :
  forall (es : list entry) (c : caches),
    Forall2 (entry_step prefix) es
            (fst (process_entries es all_svg_files prefix c)).
Proof.
  induction es as [|e es IH]; intros c; [constructor |].
  cbn [process_entries].
  specialize (IH (er_caches (process_entry e all_svg_files prefix c))).
  destruct (process_entries es all_svg_files prefix _) as [es' c'].
  cbn [fst] in *. constructor; [apply process_entry_step | exact IH].
Qed.

(** What a completed run started from. *)
Lemma process_tkk_ids_ok (fs fs' : filesystem)
      (json_path svg_folder prefix : str) (o : outcome) :
  process_tkk_ids fs json_path svg_folder prefix = (Ok o, fs') ->
  exists data files,
    json_file fs = Json data /\ svg_dir fs = Listing files
    /\ filter is_svg_name (map fst files) <> []
    /\ process_tkk_ids (mkFS (Json data) (Listing files))
                       json_path svg_folder prefix = (Ok o, fs').
Proof.
  unfold process_tkk_ids, load_and_validate_inputs.
  destruct fs as [jf sd]. cbn [json_file svg_dir].
  destruct jf as [| |data]; [discriminate | destruct sd; discriminate |].
  destruct sd as [|err|files]; [discriminate | discriminate |].
  destruct (filter is_svg_name (map fst files)) as [|f l] eqn:E;
    [discriminate |].
  cbn [nonempty_list]. intros H. exists data, files.
  split; [reflexivity | split; [reflexivity |]].
  cbn [json_file svg_dir]. rewrite E. split; [discriminate | exact H].
Qed.

Lemma run_keeps_document_shape_aux
      (fs fs' : filesystem) (json_path svg_folder prefix : str)
      (o : outcome) :
  process_tkk_ids fs json_path svg_folder prefix = (Ok o, fs') ->
  exists data,
    json_file fs = Json data
    /\ Forall2 (entry_step prefix) data (out_data o).
Proof.
  intros H.
  destruct (process_tkk_ids_ok _ _ _ _ _ _ H)
    as [data [files [Hj [Hd [Hne H']]]]].
  exists data. split; [exact Hj |].
  unfold process_tkk_ids, load_and_validate_inputs in H'.
  cbn [json_file svg_dir] in H'.
  destruct (filter is_svg_name (map fst files)) as [|f l] eqn:E;
    [congruence |].
  cbn [nonempty_list] in H'.
  pose proof (process_entries_step (f :: l) prefix data
                (mkCaches files [] [] [])) as Hs.
  destruct (process_entries data (f :: l) prefix _) as [data' c].
  cbn [fst] in Hs. injection H' as <- _. exact Hs.
Qed.

Lemma run_saves_document
      (fs fs' : filesystem) (json_path svg_folder prefix : str)
      (o : outcome) :
  process_tkk_ids fs json_path svg_folder prefix = (Ok o, fs') ->
  json_file fs' = Json (out_data o).
Proof.
  unfold process_tkk_ids.
  destruct (load_and_validate_inputs fs json_path svg_folder)
    as [[data svgs]|e]; [| discriminate].
  destruct (process_entries data svgs prefix _) as [data' c].
  intros H. injection H as <- <-. reflexivity.
Qed.

(** X1. The run keeps the shape of the document: the entries, their
    identifiers, the groups, the blocks and the other fields of every block
    stay; a block identifier either stays or becomes the prefix and a
    number from 1 on, and only an identifier that is neither empty nor
    [TODO] is replaced.  The document saved is the document returned. *)
Theorem run_keeps_document_shape
        (fs fs' : filesystem) (json_path svg_folder prefix : str)
        (o : outcome) :
  process_tkk_ids fs json_path svg_folder prefix = (Ok o, fs') ->
  exists data,
    json_file fs = Json data
    /\ Forall2 (entry_step prefix) data (out_data o)
    /\ json_file fs' = Json (out_data o).
Proof.
  intros H.
  destruct (run_keeps_document_shape_aux _ _ _ _ _ _ H) as [data [Hj Hs]].
  exists data. split; [exact Hj | split; [exact Hs |]].
  eapply run_saves_document; eauto.
Qed.

Lemma run_keeps_document_shape_witness :
  exists data,
    json_file (scenario_fs "old-id-1" "old-id-2") = Json data
    /\ Forall2 (entry_step (L "g-tkk-")) data
         [mkEntry (Some (L "M_143"))
                  [mkGroup [ref_block "g-tkk-1"; ref_block "g-tkk-2"]]]
    /\ json_file (scenario_fs "g-tkk-1" "g-tkk-2")
       = Json [mkEntry (Some (L "M_143"))
                 [mkGroup [ref_block "g-tkk-1"; ref_block "g-tkk-2"]]].
Proof.
  exact (run_keeps_document_shape _ _ _ _ _ _ scenario_first_run).
Defined.

(* ------------------------------------------------------------------ *)
(** ** The report and the document *)

Lemma Forall2_in_right {A B : Type} (R : A -> B -> Prop)
      (l : list A) (l' : list B) (y : B) :
  Forall2 R l l' -> In y l' -> exists x, In x l /\ R x y.
Proof.
  induction 1 as [|x y0 l l' HR _ IH]; intros Hin; [contradiction |].
  destruct Hin as [<- | Hin].
  - exists x. split; [now left | exact HR].
  - destruct (IH Hin) as [x' [H1 H2]]. exists x'. split; [now right | auto].
Qed.

(** The report of a completed run is the one [display_uncertainties]
    gives for the document and the cache the run returns. *)
Lemma run_report (fs fs' : filesystem) (json_path svg_folder prefix : str)
      (o : outcome) :
  process_tkk_ids fs json_path svg_folder prefix = (Ok o, fs') ->
  out_report o
  = display_uncertainties (out_data o) prefix (out_final_svg_cache o).
Proof.
  unfold process_tkk_ids.
  destruct (load_and_validate_inputs fs json_path svg_folder)
    as [[data svgs]|e]; [| discriminate].
  destruct (process_entries data svgs prefix _) as [data' c].
  intros H. injection H as <- _. reflexivity.
Qed.

Lemma svg_issues_orphans (prefix : str) (cache : list (str * svg_data))
      (v eid : str) :
  ~ In (JsonError v eid) (svg_issues prefix cache).
Proof.
  unfold svg_issues, orphans_in. intros H.
  apply in_flat_map in H as [fs [_ H]].
  apply in_flat_map in H as [m [_ H]].
  destruct (negb (startswith prefix _)); [| contradiction].
  destruct H as [H | []]. discriminate.
Qed.

(** X2. A JSON error of the report names an identifier that the block of the
    reported entry held before the run and that does not start with the
    prefix: the run reports none of the identifiers it assigned. *)
Theorem report_names_input_identifiers
        (fs fs' : filesystem) (json_path svg_folder prefix : str)
        (o : outcome) (v eid : str) :
  process_tkk_ids fs json_path svg_folder prefix = (Ok o, fs') ->
  In (JsonError v eid) (out_report o) ->
  exists data e b,
    json_file fs = Json data
    /\ In e data /\ reported_id_of e = eid
    /\ In b (all_blocks e) /\ svgGroupId b = Some v
    /\ startswith prefix v = false.
Proof.
  intros Hrun Hin.
  destruct (run_keeps_document_shape_aux _ _ _ _ _ _ Hrun)
    as [data [Hj Hs]].
  rewrite (run_report _ _ _ _ _ _ Hrun) in Hin.
  unfold display_uncertainties in Hin.
  apply in_app_or in Hin as [Hin | Hin];
    [| now apply svg_issues_orphans in Hin].
  unfold json_issues in Hin.
  apply in_flat_map in Hin as [e' [He' Hin]].
  apply in_flat_map in Hin as [b' [Hb' Hin]].
  destruct (svgGroupId b') as [val|] eqn:Hval; [| contradiction].
  destruct (nonempty val && negb (startswith prefix val)
            && negb (str_eqb val TODO)) eqn:Hc; [| contradiction].
  destruct Hin as [Hin | []]. injection Hin as -> <-.
  apply andb_true_iff in Hc as [Hc _]. apply andb_true_iff in Hc as [_ Hc].
  apply negb_true_iff in Hc.
  destruct (Forall2_in_right _ _ _ _ Hs He') as [e [He [Hid Hgs]]].
  unfold all_blocks in Hb'. apply in_flat_map in Hb' as [g' [Hg' Hb']].
  destruct (Forall2_in_right _ _ _ _ Hgs Hg') as [g [Hg Hbs]].
  destruct (Forall2_in_right _ _ _ _ Hbs Hb') as [b [Hb Hstep]].
  exists data, e, b. split; [exact Hj |]. split; [exact He |].
  split; [unfold reported_id_of; now rewrite Hid |].
  split; [unfold all_blocks; apply in_flat_map; eauto |].
  destruct Hstep as [-> | [old [n [_ [_ [_ [_ ->]]]]]]].
  - auto.
  - cbn [svgGroupId] in Hval. injection Hval as <-.
    now rewrite startswith_app in Hc.
Qed.

(** A folder with a markup file and a file of another kind, and a document
    whose entry refers to an identifier that no markup file holds and to
    one that the markup file holds. *)
Definition missing_fs : filesystem :=
  mkFS (Json [entry_with_missing])
       (Listing [(L "M1.svg", g_class_id dq (L "a"));
                 (L "notes.txt", L "n")]).

Definition missing_out : outcome :=
  mkOutcome
    [mkEntry (Some (L "M_1"))
             [mkGroup [ref_block "missing"; ref_block "g-tkk-1"]]]
    [(L "M1.svg", mkSvg (g_class_id dq (L "g-tkk-1")) (L "M1.svg"))]
    true
    [JsonError (L "missing") (L "M_1")].

Definition missing_fs_after : filesystem :=
  mkFS (Json (out_data missing_out))
       (Listing [(L "M1.svg", g_class_id dq (L "g-tkk-1"));
                 (L "notes.txt", L "n")]).

Example missing_run :
  process_tkk_ids missing_fs (L "t.json") (L "svgs") (L "g-tkk-")
  = (Ok missing_out, missing_fs_after).
Proof. vm_compute. reflexivity. Qed.

Lemma report_names_input_identifiers_witness :
  exists data e b,
    json_file missing_fs = Json data
    /\ In e data /\ reported_id_of e = L "M_1"
    /\ In b (all_blocks e) /\ svgGroupId b = Some (L "missing")
    /\ startswith (L "g-tkk-") (L "missing") = false.
Proof.
  apply (report_names_input_identifiers
           missing_fs missing_fs_after (L "t.json") (L "svgs") (L "g-tkk-")
           missing_out (L "missing") (L "M_1") missing_run).
  left. reflexivity.
Defined.

(* ------------------------------------------------------------------ *)
(** ** The rename map is one-to-one *)

Lemma to_uint_not_nil (n : nat) : Nat.to_uint n <> Decimal.Nil.
Proof.
  rewrite <- (DecimalNat.Unsigned.of_to n) at 1.
  rewrite DecimalNat.Unsigned.to_of. apply DecimalFacts.unorm_nonnil.
Qed.

Lemma str_of_nat_inj (a b : nat) : str_of_nat a = str_of_nat b -> a = b.
Proof.
  unfold str_of_nat, L. intros H.
  apply (f_equal string_of_list_ascii) in H.
  rewrite !string_of_list_ascii_of_string in H.
  apply (f_equal NilZero.uint_of_string) in H.
  rewrite !NilZero.usu in H by apply to_uint_not_nil.
  injection H as H. now apply DecimalNat.Unsigned.to_uint_inj.
Qed.

Lemma numbered_values_distinct (prefix : str) (m : list (str * str)) :
  numbered prefix m -> NoDup (map snd m).
Proof.
  unfold numbered. intros ->.
  apply NoDup_map_NoDup_ForallPairs; [| apply seq_NoDup].
  intros a b _ _ H. apply app_inv_head in H. now apply str_of_nat_inj.
Qed.

Lemma add_new_distinct (l : list str) (x : str) :
  NoDup l -> NoDup (add_new l x).
Proof.
  intros H. unfold add_new. destruct (existsb (str_eqb x) l) eqn:E; [auto |].
  apply NoDup_app; [exact H | constructor; [intros [] | constructor] |].
  intros a Ha [Hx | []]. subst a.
  assert (Et : existsb (str_eqb x) l = true).
  { apply existsb_exists. exists x. split; [exact Ha | apply str_eqb_refl]. }
  congruence.
Qed.

Lemma distinct_in_order_distinct (l : list str) :
  NoDup (distinct_in_order l).
Proof.
  unfold distinct_in_order.
  assert (H : forall keys, NoDup keys -> NoDup (fold_left add_new l keys)).
  { induction l as [|x l IH]; intros keys Hk; cbn; [exact Hk |].
    apply IH. now apply add_new_distinct. }
  apply H. constructor.
Qed.

Lemma same_value_same_key (m : list (str * str)) (k1 k2 v : str) :
  NoDup (map snd m) -> In (k1, v) m -> In (k2, v) m -> k1 = k2.
Proof.
  induction m as [|[k w] m IH]; cbn; intros Hn H1 H2; [contradiction |].
  apply NoDup_cons_iff in Hn as [Hnot Hn].
  assert (Hv : forall k', In (k', w) m -> False).
  { intros k' Hin. apply Hnot. apply in_map_iff. now exists (k', w). }
  destruct H1 as [H1 | H1], H2 as [H2 | H2].
  - congruence.
  - injection H1 as <- <-. destruct (Hv _ H2).
  - injection H2 as <- <-. destruct (Hv _ H1).
  - auto.
Qed.

(** X3. Within an entry the renaming is one-to-one: the old identifiers of the
    rename map are distinct, its new identifiers are distinct, and two
    renamed blocks hold the same new identifier only when they held the
    same old identifier. *)
Theorem rename_map_one_to_one
        (e : entry) (all_svg_files : list str) (prefix : str) (c : caches) :
  let r := process_entry e all_svg_files prefix c in
  NoDup (map fst (er_mapping r))
  /\ NoDup (map snd (er_mapping r))
  /\ (forall old1 old2 new_val,
         In (old1, new_val) (renames_groups (comments e) (er_outcomes r)) ->
         In (old2, new_val) (renames_groups (comments e) (er_outcomes r)) ->
         old1 = old2).
Proof.
  cbv zeta. unfold process_entry.
  destruct (if nonempty (new_id_of e) then _ else _) as [relevant c0].
  pose proof (process_groups_map relevant prefix (comments e) [] c0) as H.
  cbv zeta in H.
  destruct (process_groups (comments e) relevant [] prefix c0)
    as [[outs m] c'].
  cbn [fst snd er_mapping er_outcomes] in H |- *.
  destruct H as [H1 [H2 [_ H4]]].
  assert (Hv : NoDup (map snd m))
    by (apply (numbered_values_distinct prefix), H2; reflexivity).
  split; [| split; [exact Hv |]].
  - rewrite H1. apply distinct_in_order_distinct.
  - intros old1 old2 new_val Hi1 Hi2.
    destruct (H4 _ _ Hi1) as [v1 [E1 G1]].
    destruct (H4 _ _ Hi2) as [v2 [E2 G2]].
    assert (v2 = v1) by congruence. subst v2.
    apply dict_get_in in G1, G2.
    eapply same_value_same_key; eauto.
Qed.

(* ------------------------------------------------------------------ *)
(** ** An entry without an identifier *)

Lemma process_blocks_no_files (prefix : str) :
  forall (bs : list block) (m : list (str * str)) (c : caches),
    map snd (fst (fst (process_blocks bs [] m prefix c))) = bs
    /\ snd (fst (process_blocks bs [] m prefix c)) = m
    /\ snd (process_blocks bs [] m prefix c) = c.
Proof.
  induction bs as [|b bs IH]; intros m c; [cbn; auto |].
  cbn [process_blocks].
  assert (Hb : snd (process_block_comment b [] m prefix c) = mkBS b m c).
  { unfold process_block_comment.
    destruct (svgGroupId b) as [old_val|]; [| reflexivity].
    destruct (negb (nonempty old_val) || str_eqb old_val TODO);
      reflexivity. }
  destruct (process_block_comment b [] m prefix c) as [ok st].
  cbn [snd] in Hb. subst st. cbn [bs_block bs_mapping bs_caches].
  destruct (IH m c) as [H1 [H2 H3]].
  destruct (process_blocks bs [] m prefix c) as [[outs m'] c'].
  cbn [fst snd map] in *. now rewrite H1.
Qed.

Lemma process_groups_no_files (prefix : str) :
  forall (gs : list comment_group) (m : list (str * str)) (c : caches),
    map (fun out => mkGroup (map snd out))
        (fst (fst (process_groups gs [] m prefix c))) = gs
    /\ snd (fst (process_groups gs [] m prefix c)) = m
    /\ snd (process_groups gs [] m prefix c) = c.
Proof.
  induction gs as [|g gs IH]; intros m c; [cbn; auto |].
  cbn [process_groups].
  destruct (process_blocks_no_files prefix (blockComments g) m c)
    as [H1 [H2 H3]].
  destruct (process_blocks (blockComments g) [] m prefix c)
    as [[out m1] c1].
  cbn [fst snd] in H1, H2, H3. subst m1 c1.
  destruct (IH m c) as [H4 [H5 H6]].
  destruct (process_groups gs [] m prefix c) as [[outs m2] c2].
  cbn [fst snd map] in *. rewrite H1, H4. now destruct g.
Qed.

(** X4. An entry whose identifier is absent or empty is left alone: no block
    is renamed whatever it refers to, the rename map stays empty, no file
    is read and none is written. *)
Theorem entry_without_id_untouched
        (e : entry) (all_svg_files : list str) (prefix : str) (c : caches) :
  new_id_of e = [] ->
  er_entry (process_entry e all_svg_files prefix c) = e
  /\ er_mapping (process_entry e all_svg_files prefix c) = []
  /\ er_caches (process_entry e all_svg_files prefix c) = c.
Proof.
  intros Hid. unfold process_entry. rewrite Hid. cbn [nonempty].
  destruct (process_groups_no_files prefix (comments e) [] c)
    as [H1 [H2 H3]].
  destruct (process_groups (comments e) [] [] prefix c) as [[outs m] c'].
  cbn [fst snd er_entry er_mapping er_caches] in *.
  rewrite H1. now destruct e.
Qed.

Lemma entry_without_id_untouched_witness :
  er_entry (process_entry (mkEntry None [mkGroup [ref_block "a"]])
                          [L "M1.svg"] (L "g-tkk-")
                          (mkCaches [(L "M1.svg", g_class_id dq (L "a"))]
                                    [] [] []))
  = mkEntry None [mkGroup [ref_block "a"]]
  /\ er_mapping (process_entry (mkEntry None [mkGroup [ref_block "a"]])
                               [L "M1.svg"] (L "g-tkk-")
                               (mkCaches [(L "M1.svg", g_class_id dq (L "a"))]
                                         [] [] []))
     = []
  /\ er_caches (process_entry (mkEntry None [mkGroup [ref_block "a"]])
                              [L "M1.svg"] (L "g-tkk-")
                              (mkCaches [(L "M1.svg", g_class_id dq (L "a"))]
                                        [] [] []))
     = mkCaches [(L "M1.svg", g_class_id dq (L "a"))] [] [] [].
Proof.
  apply (entry_without_id_untouched
           (mkEntry None [mkGroup [ref_block "a"]]) [L "M1.svg"]
           (L "g-tkk-")
           (mkCaches [(L "M1.svg", g_class_id dq (L "a"))] [] [] [])).
  reflexivity.
Defined.

(* ------------------------------------------------------------------ *)
(** ** Dictionaries and the heap *)

Lemma dict_set_keys {V : Type} (k : str) (v : V) (d : list (str * V)) :
  In k (map fst d) -> map fst (dict_set k v d) = map fst d.
Proof.
  induction d as [|[k' v'] d IH]; cbn; [contradiction |].
  destruct (str_eqb k' k) eqn:E; cbn; [reflexivity |].
  intros [H | H]; [apply str_eqb_neq in E; congruence |].
  now rewrite IH.
Qed.

Lemma dict_set_keys_new {V : Type} (k : str) (v : V) (d : list (str * V)) :
  dict_get k d = None -> dict_set k v d = d ++ [(k, v)].
Proof.
  induction d as [|[k' v'] d IH]; cbn; [reflexivity |].
  destruct (str_eqb k' k); [discriminate |].
  intros H. now rewrite IH.
Qed.

Lemma dict_get_none_keys {V : Type} (k : str) (d : list (str * V)) :
  dict_get k d = None <-> ~ In k (map fst d).
Proof.
  induction d as [|[k' v'] d IH]; cbn.
  - split; auto.
  - destruct (str_eqb k' k) eqn:E.
    + apply str_eqb_eq in E. split; [discriminate | intros H; tauto].
    + apply str_eqb_neq in E. rewrite IH. tauto.
Qed.

Lemma dict_set_distinct {V : Type} (k : str) (v : V) (d : list (str * V)) :
  NoDup (map fst d) -> NoDup (map fst (dict_set k v d)).
Proof.
  intros H. destruct (dict_get k d) as [w|] eqn:E.
  - rewrite dict_set_keys; [exact H |].
    apply dict_get_in in E. apply in_map_iff. now exists (k, w).
  - rewrite (dict_set_keys_new _ _ _ E), map_app. cbn.
    apply NoDup_app; [exact H | constructor; [intros [] | constructor] |].
    intros a Ha [Hk | []]. subst a. now apply dict_get_none_keys in E.
Qed.

Lemma in_dict_get {V : Type} (k : str) (v : V) (d : list (str * V)) :
  NoDup (map fst d) -> In (k, v) d -> dict_get k d = Some v.
Proof.
  induction d as [|[k' v'] d IH]; cbn; intros Hn Hin; [contradiction |].
  apply NoDup_cons_iff in Hn as [Hnot Hn].
  destruct Hin as [Heq | Hin].
  - injection Heq as -> ->. now rewrite str_eqb_refl.
  - destruct (str_eqb k' k) eqn:E; [| auto].
    apply str_eqb_eq in E. subst k'. destruct Hnot.
    apply in_map_iff. now exists (k, v).
Qed.

Lemma in_dict_set_other {V : Type} (k g : str) (v w : V)
      (d : list (str * V)) :
  g <> k -> In (g, w) d -> In (g, w) (dict_set k v d).
Proof.
  intros Hne. induction d as [|[k' v'] d IH]; cbn; [contradiction |].
  destruct (str_eqb k' k) eqn:E.
  - apply str_eqb_eq in E. subst k'. intros [H | H]; [| now right].
    injection H as -> _. congruence.
  - intros [H | H]; [now left | right; auto].
Qed.

Lemma length_heap_set (h : list svg_data) (v : svg_data) :
  forall ref : nat, length (heap_set h ref v) = length h.
Proof.
  induction h as [|x h IH]; intros [|ref]; cbn; auto.
Qed.

Lemma deref_heap_set (h : list svg_data) (v : svg_data) :
  forall ref r : nat,
    ref < length h ->
    deref (heap_set h ref v) r = if Nat.eqb r ref then v else deref h r.
Proof.
  unfold deref. induction h as [|x h IH]; intros [|ref] [|r] Hlt;
    cbn in *; try lia; try reflexivity.
  apply IH. lia.
Qed.

Lemma deref_app (h : list svg_data) (o : svg_data) (r : nat) :
  r < length h -> deref (h ++ [o]) r = deref h r.
Proof. intros H. unfold deref. now rewrite app_nth1. Qed.

Lemma deref_new (h : list svg_data) (o : svg_data) :
  deref (h ++ [o]) (length h) = o.
Proof. unfold deref. now rewrite app_nth2, Nat.sub_diag by lia. Qed.

(* ------------------------------------------------------------------ *)
(** ** The loader *)

(** X5. The first request for a file reads it from the folder and puts one
    object into both caches; a later request returns that object without
    reading again, so a text written into the object is the text both
    caches hold. *)
Theorem loader_shares_one_object (f : str) (c : caches) (text : str) :
  dict_get f (loaded_svg_texts c) = None ->
  let ref := fst (get_svg_text f c) in
  let c1 := snd (get_svg_text f c) in
  let c2 := set_content c1 ref text in
  content (deref (heap c1) ref) = read_file (disk c) f
  /\ dict_get f (loaded_svg_texts c1) = Some ref
  /\ dict_get f (final_svg_cache c1) = Some ref
  /\ disk c1 = disk c
  /\ get_svg_text f c2 = (ref, c2)
  /\ content (deref (heap c2) ref) = text
  /\ dict_get f (final_svg_cache c2) = Some ref.
Proof.
  intros Hnew. cbv zeta. unfold get_svg_text. rewrite Hnew.
  cbn [fst snd heap loaded_svg_texts final_svg_cache disk].
  rewrite deref_new. cbn [content].
  repeat rewrite dict_get_set_same.
  split; [reflexivity |]. split; [reflexivity |]. split; [reflexivity |].
  split; [reflexivity |]. unfold set_content.
  cbn [loaded_svg_texts heap disk final_svg_cache].
  repeat rewrite dict_get_set_same.
  split; [reflexivity |]. split; [| reflexivity].
  rewrite deref_heap_set by (rewrite length_app; cbn; lia).
  now rewrite Nat.eqb_refl.
Qed.

Lemma loader_shares_one_object_witness :
  let c := mkCaches [(L "M1.svg", g_class_id dq (L "a"))] [] [] [] in
  let ref := fst (get_svg_text (L "M1.svg") c) in
  let c1 := snd (get_svg_text (L "M1.svg") c) in
  let c2 := set_content c1 ref (L "new text") in
  content (deref (heap c1) ref) = read_file (disk c) (L "M1.svg")
  /\ dict_get (L "M1.svg") (loaded_svg_texts c1) = Some ref
  /\ dict_get (L "M1.svg") (final_svg_cache c1) = Some ref
  /\ disk c1 = disk c
  /\ get_svg_text (L "M1.svg") c2 = (ref, c2)
  /\ content (deref (heap c2) ref) = L "new text"
  /\ dict_get (L "M1.svg") (final_svg_cache c2) = Some ref.
Proof.
  apply (loader_shares_one_object
           (L "M1.svg")
           (mkCaches [(L "M1.svg", g_class_id dq (L "a"))] [] [] [])
           (L "new text")).
  reflexivity.
Defined.

(* ------------------------------------------------------------------ *)
(** ** The caches during a run *)

(** Writing the loaded objects back, one after the other. *)
Definition write_back (h : list svg_data) (d : list (str * str))
           (entry_ : str * nat) : list (str * str) :=
  dict_set (path (deref h (snd entry_))) (content (deref h (snd entry_))) d.

Lemma flush_write_back (c : caches) :
  flush c = fold_left (write_back (heap c)) (loaded_svg_texts c) (disk c).
Proof. reflexivity. Qed.

Lemma write_back_fold (h : list svg_data) :
  forall (l : list (str * nat)) (d0 : list (str * str)),
    (forall f r, In (f, r) l -> path (deref h r) = f) ->
    (forall g, ~ In g (map fst l) ->
               dict_get g (fold_left (write_back h) l d0) = dict_get g d0)
    /\ (forall g r, In (g, r) l ->
                    (forall r', In (g, r') l -> r' = r) ->
                    dict_get g (fold_left (write_back h) l d0)
                    = Some (content (deref h r)))
    /\ ((forall f, In f (map fst l) -> In f (map fst d0)) ->
        map fst (fold_left (write_back h) l d0) = map fst d0).
Proof.
  induction l as [|[k r1] l IH]; intros d0 Hpath.
  - cbn. split; [auto | split; [intros g r [] | auto]].
  - assert (Hk : path (deref h r1) = k) by (apply Hpath; now left).
    assert (Hpath' : forall f r, In (f, r) l -> path (deref h r) = f)
      by (intros f r Hin; apply Hpath; now right).
    cbn [fold_left]. unfold write_back at 2 4 6. cbn [snd]. rewrite Hk.
    destruct (IH (dict_set k (content (deref h r1)) d0) Hpath')
      as [IH1 [IH2 IH3]].
    split; [| split].
    + intros g Hg. cbn [map fst In] in Hg.
      rewrite IH1 by tauto. apply dict_get_set_other. intros ->. tauto.
    + intros g r Hin Huniq.
      destruct (in_dec (list_eq_dec ascii_dec) g (map fst l)) as [Hg | Hg].
      * apply in_map_iff in Hg as [[g' r2] [Hfst Hin2]].
        cbn [fst] in Hfst. subst g'.
        assert (r2 = r) by (apply Huniq; now right). subst r2.
        apply IH2; [exact Hin2 |].
        intros r' Hr'. apply Huniq. now right.
      * destruct Hin as [Heq | Hin].
        -- injection Heq as -> ->. rewrite IH1 by exact Hg.
           apply dict_get_set_same.
        -- destruct Hg. apply in_map_iff. now exists (g, r).
    + intros Hon. rewrite IH3.
      * apply dict_set_keys. apply Hon. now left.
      * intros f Hf. rewrite dict_set_keys by (apply Hon; now left).
        apply Hon. now right.
Qed.

Section Coherence.

(** The folder at the start of the run, and the files the run may load:
    they are files of the folder. *)
Variable files0 : list (str * str).
Variable allowed : str -> Prop.
Hypothesis allowed_on_disk : forall f, allowed f -> In f (map fst files0).

(** The caches are coherent: the folder has the names it had at the start;
    the transient cache holds objects of the accumulating cache; an object
    of the accumulating cache belongs to an allowed file, knows its name
    and is either still loaded or holds the text of its file in the folder;
    a file that was never loaded has the text it had at the start. *)
Record coherent (c : caches) : Prop := mkCoherent {
  co_names : map fst (disk c) = map fst files0;
  co_keys : NoDup (map fst (final_svg_cache c));
  co_loaded : forall f r,
      In (f, r) (loaded_svg_texts c) ->
      dict_get f (final_svg_cache c) = Some r;
  co_final : forall f r,
      dict_get f (final_svg_cache c) = Some r ->
      r < length (heap c)
      /\ path (deref (heap c) r) = f
      /\ allowed f
      /\ (In (f, r) (loaded_svg_texts c)
          \/ dict_get f (disk c) = Some (content (deref (heap c) r)));
  co_rest : forall f,
      dict_get f (final_svg_cache c) = None ->
      dict_get f (disk c) = dict_get f files0
}.

Lemma coherent_start : coherent (mkCaches files0 [] [] []).
Proof.
  constructor; cbn; auto.
  - constructor.
  - intros f r [].
  - discriminate.
Qed.

Lemma get_svg_text_coherent (f : str) (c : caches) :
  coherent c -> allowed f ->
  coherent (snd (get_svg_text f c))
  /\ In (f, fst (get_svg_text f c))
        (loaded_svg_texts (snd (get_svg_text f c))).
Proof.
  intros Hc Hf. unfold get_svg_text.
  destruct (dict_get f (loaded_svg_texts c)) as [ref|] eqn:E; cbn [fst snd].
  - split; [exact Hc | now apply dict_get_in].
  - cbn [loaded_svg_texts]. split;
      [| apply dict_get_in, dict_get_set_same].
    destruct Hc as [H1 H2 H3 H4 H5].
    constructor; cbn [disk heap loaded_svg_texts final_svg_cache].
    + exact H1.
    + now apply dict_set_distinct.
    + intros g r Hin. apply in_dict_set in Hin as [[Hg Hr] | Hin].
      * cbn [fst snd] in Hg, Hr. subst g r. apply dict_get_set_same.
      * assert (g <> f).
        { intros ->. apply dict_get_none_keys in E. apply E.
          apply in_map_iff. now exists (f, r). }
        rewrite dict_get_set_other by assumption. auto.
    + intros g r Hg.
      destruct (list_eq_dec ascii_dec g f) as [-> | Hne].
      * rewrite dict_get_set_same in Hg. injection Hg as <-.
        rewrite deref_new, length_app. cbn [path length].
        split; [lia | split; [reflexivity | split; [exact Hf |]]].
        left. apply dict_get_in, dict_get_set_same.
      * rewrite dict_get_set_other in Hg by assumption.
        destruct (H4 g r Hg) as [Hlt [Hp [Ha Hd]]].
        rewrite deref_app, length_app by assumption.
        split; [lia | split; [exact Hp | split; [exact Ha |]]].
        destruct Hd as [Hd | Hd]; [left | now right].
        now apply in_dict_set_other.
    + intros g Hg.
      destruct (list_eq_dec ascii_dec g f) as [-> | Hne].
      * now rewrite dict_get_set_same in Hg.
      * rewrite dict_get_set_other in Hg by assumption. auto.
Qed.

Lemma set_content_coherent (f : str) (ref : nat) (text : str) (c : caches) :
  coherent c -> In (f, ref) (loaded_svg_texts c) ->
  coherent (set_content c ref text).
Proof.
  intros [H1 H2 H3 H4 H5] Hin.
  pose proof (H3 f ref Hin) as Hf.
  destruct (H4 f ref Hf) as [Hlt [Hp _]].
  constructor; unfold set_content;
    cbn [disk heap loaded_svg_texts final_svg_cache]; auto.
  intros g r Hg. destruct (H4 g r Hg) as [Hlt' [Hp' [Ha Hd]]].
  rewrite length_heap_set, deref_heap_set by assumption.
  split; [exact Hlt' |].
  destruct (Nat.eqb r ref) eqn:E.
  - apply Nat.eqb_eq in E. subst r. cbn [path content].
    assert (Hgf : g = f) by congruence. clear Hp'. subst g.
    split; [exact Hp | split; [exact Ha | now left]].
  - auto.
Qed.

Lemma find_in_svgs_coherent (old_val : str) :
  forall (relevant : list str) (c : caches),
    coherent c -> Forall allowed relevant ->
    coherent (snd (find_in_svgs old_val relevant c)).
Proof.
  induction relevant as [|f rest IH]; intros c Hc Hall; [exact Hc |].
  apply Forall_cons_iff in Hall as [Hf Hrest].
  cbn [find_in_svgs].
  destruct (get_svg_text_coherent f c Hc Hf) as [Hc1 _].
  destruct (get_svg_text f c) as [ref c1]. cbn [snd] in Hc1.
  destruct (is_some _); [exact Hc1 | now apply IH].
Qed.

Lemma process_block_comment_coherent
      (b : block) (relevant : list str) (m : list (str * str))
      (prefix : str) (c : caches) :
  coherent c -> Forall allowed relevant ->
  coherent (bs_caches (snd (process_block_comment b relevant m prefix c))).
Proof.
  intros Hc Hall. unfold process_block_comment.
  destruct (svgGroupId b) as [old_val|]; [| exact Hc].
  destruct (negb (nonempty old_val) || str_eqb old_val TODO); [exact Hc |].
  pose proof (find_in_svgs_coherent old_val relevant c Hc Hall) as Hc1.
  pose proof (find_in_svgs_loaded old_val relevant c) as Hl.
  destruct (find_in_svgs old_val relevant c) as [[f|] c1];
    cbn [snd] in Hc1; [| exact Hc1].
  destruct (nonempty f); [| exact Hc1].
  destruct (Hl c1 f eq_refl) as [ref Href].
  rewrite (get_svg_text_again _ _ _ Href).
  destruct (snd (update_svg_id _ old_val temp_id)); [exact Hc1 |].
  destruct (assign old_val m prefix) as [m' new_val].
  cbn [snd bs_caches]. apply set_content_coherent with (f := f);
    [exact Hc1 | now apply dict_get_in].
Qed.

Lemma process_blocks_coherent (relevant : list str) (prefix : str) :
  Forall allowed relevant ->
  forall (bs : list block) (m : list (str * str)) (c : caches),
    coherent c -> coherent (snd (process_blocks bs relevant m prefix c)).
Proof.
  intros Hall. induction bs as [|b bs IH]; intros m c Hc; [exact Hc |].
  cbn [process_blocks].
  pose proof (process_block_comment_coherent b relevant m prefix c Hc Hall)
    as Hc1.
  destruct (process_block_comment b relevant m prefix c) as [ok st].
  cbn [snd] in Hc1.
  specialize (IH (bs_mapping st) (bs_caches st) Hc1).
  destruct (process_blocks bs relevant (bs_mapping st) prefix
                           (bs_caches st)) as [[outs m'] c'].
  exact IH.
Qed.

Lemma process_groups_coherent (relevant : list str) (prefix : str) :
  Forall allowed relevant ->
  forall (gs : list comment_group) (m : list (str * str)) (c : caches),
    coherent c -> coherent (snd (process_groups gs relevant m prefix c)).
Proof.
  intros Hall. induction gs as [|g gs IH]; intros m c Hc; [exact Hc |].
  cbn [process_groups].
  pose proof (process_blocks_coherent relevant prefix Hall
                (blockComments g) m c Hc) as Hc1.
  destruct (process_blocks (blockComments g) relevant m prefix c)
    as [[out m1] c1].
  cbn [snd] in Hc1. specialize (IH m1 c1 Hc1).
  destruct (process_groups gs relevant m1 prefix c1) as [[outs m2] c2].
  exact IH.
Qed.

(** Writing the loaded files back and forgetting them keeps the caches
    coherent; afterwards every object of the accumulating cache holds the
    text of its file in the folder. *)
Lemma flushed_coherent (c : caches) :
  coherent c ->
  coherent (mkCaches (flush c) (heap c) [] (final_svg_cache c))
  /\ forall f r,
      dict_get f (final_svg_cache c) = Some r ->
      dict_get f (flush c) = Some (content (deref (heap c) r)).
Proof.
  intros [H1 H2 H3 H4 H5].
  assert (Hpath : forall f r, In (f, r) (loaded_svg_texts c) ->
                              path (deref (heap c) r) = f).
  { intros f r Hin. now apply (H4 f r (H3 f r Hin)). }
  destruct (write_back_fold (heap c) (loaded_svg_texts c) (disk c) Hpath)
    as [W1 [W2 W3]].
  rewrite <- flush_write_back in W1, W2, W3.
  assert (Hfinal : forall f r,
             dict_get f (final_svg_cache c) = Some r ->
             dict_get f (flush c) = Some (content (deref (heap c) r))).
  { intros f r Hf.
    destruct (in_dec (list_eq_dec ascii_dec) f
                     (map fst (loaded_svg_texts c))) as [Hin | Hnot].
    - apply in_map_iff in Hin as [[f' r2] [Hfst Hin]].
      cbn [fst] in Hfst. subst f'.
      assert (r2 = r) by (apply H3 in Hin; congruence). subst r2.
      apply W2; [exact Hin |].
      intros r' Hr'. apply H3 in Hr'. congruence.
    - rewrite W1 by exact Hnot.
      destruct (H4 f r Hf) as [_ [_ [_ [Hin | Hd]]]]; [| exact Hd].
      destruct Hnot. apply in_map_iff. now exists (f, r). }
  split; [| exact Hfinal].
  constructor; cbn [disk heap loaded_svg_texts final_svg_cache].
  - rewrite W3; [exact H1 |].
    intros f Hin. apply in_map_iff in Hin as [[f' r] [Hfst Hin]].
    cbn [fst] in Hfst. subst f'. rewrite H1.
    apply allowed_on_disk. now apply (H4 f r (H3 f r Hin)).
  - exact H2.
  - intros f r [].
  - intros f r Hf. destruct (H4 f r Hf) as [Hlt [Hp [Ha _]]].
    split; [exact Hlt | split; [exact Hp | split; [exact Ha |]]].
    right. now apply Hfinal.
  - intros f Hf. rewrite W1; [now apply H5 |].
    intros Hin. apply in_map_iff in Hin as [[f' r] [Hfst Hin]].
    cbn [fst] in Hfst. subst f'. apply H3 in Hin. congruence.
Qed.

(** The files an entry may load are allowed. *)
Definition entry_allowed (all_svg_files : list str) (e : entry) : Prop :=
  nonempty (new_id_of e) = true ->
  Forall allowed
         (get_relevant_svgs (new_id_of e) all_svg_files
            (extract_moldenhauer_number (new_id_of e))).

Lemma process_entry_coherent (e : entry) (all_svg_files : list str)
      (prefix : str) (c : caches) :
  entry_allowed all_svg_files e ->
  coherent c ->
  coherent (er_caches (process_entry e all_svg_files prefix c)).
Proof.
  intros Hal Hc. unfold process_entry, entry_allowed in *.
  destruct (nonempty (new_id_of e)).
  - pose proof (process_groups_coherent _ prefix (Hal eq_refl) (comments e)
                  [] _ (proj1 (flushed_coherent c Hc))) as H.
    destruct (process_groups (comments e) _ [] prefix _) as [[outs m] c'].
    exact H.
  - pose proof (process_groups_coherent [] prefix (Forall_nil _)
                  (comments e) [] c Hc) as H.
    destruct (process_groups (comments e) [] [] prefix c) as [[outs m] c'].
    exact H.
Qed.

Lemma process_entries_coherent (all_svg_files : list str) (prefix : str) :
  forall (es : list entry) (c : caches),
    Forall (entry_allowed all_svg_files) es ->
    coherent c ->
    coherent (snd (process_entries es all_svg_files prefix c)).
Proof.
  induction es as [|e es IH]; intros c Hall Hc; [exact Hc |].
  apply Forall_cons_iff in Hall as [He Hes].
  cbn [process_entries].
  pose proof (process_entry_coherent e all_svg_files prefix c He Hc) as H1.
  specialize (IH _ Hes H1).
  destruct (process_entries es all_svg_files prefix _) as [es' c'].
  exact IH.
Qed.

End Coherence.

(* ------------------------------------------------------------------ *)
(** ** The folder after a run *)

(** A completed run, taken apart. *)
Lemma run_unfold (fs fs' : filesystem) (json_path svg_folder prefix : str)
      (o : outcome) :
  process_tkk_ids fs json_path svg_folder prefix = (Ok o, fs') ->
  exists data files c,
    json_file fs = Json data /\ svg_dir fs = Listing files
    /\ process_entries data (filter is_svg_name (map fst files)) prefix
                       (mkCaches files [] [] [])
       = (out_data o, c)
    /\ svg_dir fs' = Listing (flush c)
    /\ out_final_svg_cache o
       = map (fun kv => (fst kv, deref (heap c) (snd kv)))
             (final_svg_cache c).
Proof.
  intros H.
  destruct (process_tkk_ids_ok _ _ _ _ _ _ H)
    as [data [files [Hj [Hd [Hne H']]]]].
  exists data, files.
  unfold process_tkk_ids, load_and_validate_inputs in H'.
  cbn [json_file svg_dir] in H'.
  destruct (filter is_svg_name (map fst files)) as [|f l] eqn:E;
    [congruence |].
  cbn [nonempty_list] in H'.
  destruct (process_entries data (f :: l) prefix _) as [data' c].
  exists c. injection H' as <- <-.
  cbn [out_data out_final_svg_cache svg_dir]. auto.
Qed.

(** The files the entries of a document may load from a list of markup
    files: those that the Relevance Filter gives to an entry with an
    identifier. *)
Definition relevant_to (data : document) (all_svg_files : list str)
           (f : str) : Prop :=
  exists e,
    In e data /\ nonempty (new_id_of e) = true
    /\ In f (get_relevant_svgs (new_id_of e) all_svg_files
               (extract_moldenhauer_number (new_id_of e))).

Lemma relevant_to_listed (data : document) (files : list (str * str))
      (f : str) :
  relevant_to data (filter is_svg_name (map fst files)) f ->
  In f (map fst files).
Proof.
  intros [e [_ [_ Hin]]]. apply get_relevant_svgs_incl in Hin.
  now apply filter_In in Hin.
Qed.

Lemma entries_allowed (data : document) (all_svg_files : list str) :
  Forall (entry_allowed (relevant_to data all_svg_files) all_svg_files)
         data.
Proof.
  apply Forall_forall. intros e He Hid. apply Forall_forall.
  intros f Hf. now exists e.
Qed.

Lemma run_coherent (data data' : document) (files : list (str * str))
      (prefix : str) (c : caches) :
  process_entries data (filter is_svg_name (map fst files)) prefix
                  (mkCaches files [] [] []) = (data', c) ->
  coherent files (relevant_to data (filter is_svg_name (map fst files))) c.
Proof.
  intros H.
  pose proof (process_entries_coherent files
                (relevant_to data (filter is_svg_name (map fst files)))
                (relevant_to_listed data files)
                (filter is_svg_name (map fst files)) prefix data
                (mkCaches files [] [] [])
                (entries_allowed data _)
                (coherent_start files _)) as Hc.
  now rewrite H in Hc.
Qed.


(** X7. A run neither adds nor removes a file of the folder, and a file whose
    text it changes is a markup file that the Relevance Filter gives to an
    entry of the document: every other file keeps its text. *)
Theorem run_changes_only_relevant_files
        (fs fs' : filesystem) (json_path svg_folder prefix : str)
        (o : outcome) :
  process_tkk_ids fs json_path svg_folder prefix = (Ok o, fs') ->
  exists data files files',
    json_file fs = Json data
    /\ svg_dir fs = Listing files /\ svg_dir fs' = Listing files'
    /\ map fst files' = map fst files
    /\ forall f,
        dict_get f files' <> dict_get f files ->
        is_svg_name f = true
        /\ relevant_to data (filter is_svg_name (map fst files)) f.
Proof.
  intros H.
  destruct (run_unfold _ _ _ _ _ _ H)
    as [data [files [c [Hj [Hd [Hrun [Hd' Hcache]]]]]]].
  pose proof (run_coherent _ _ _ _ _ Hrun) as Hc.
  destruct (flushed_coherent files _ (relevant_to_listed data files) c Hc)
    as [Hfc _].
  exists data, files, (flush c).
  split; [exact Hj | split; [exact Hd | split; [exact Hd' |]]].
  split; [exact (co_names _ _ _ Hfc) |].
  intros f Hne.
  destruct (dict_get f (final_svg_cache c)) as [r|] eqn:E.
  - destruct (co_final _ _ _ Hc f r E) as [_ [_ [Ha _]]].
    split; [| exact Ha].
    destruct Ha as [e [_ [_ Hin]]]. apply get_relevant_svgs_incl in Hin.
    now apply filter_In in Hin.
  - destruct Hne. exact (co_rest _ _ _ Hfc f E).
Qed.


Lemma run_changes_only_relevant_files_witness :
  exists data files files',
    json_file missing_fs = Json data
    /\ svg_dir missing_fs = Listing files
    /\ svg_dir missing_fs_after = Listing files'
    /\ map fst files' = map fst files
    /\ forall f,
        dict_get f files' <> dict_get f files ->
        is_svg_name f = true
        /\ relevant_to data (filter is_svg_name (map fst files)) f.
Proof.
  exact (run_changes_only_relevant_files _ _ _ _ _ _ missing_run).
Defined.

(* ------------------------------------------------------------------ *)
(** ** Identifier Extractor: what it returns *)

Lemma take_while_all (p : ascii -> bool) (s : str) :
  forallb p (take_while p s) = true.
Proof.
  induction s as [|c s IH]; [reflexivity |]. cbn.
  destruct (p c) eqn:E; [cbn; now rewrite E | reflexivity].
Qed.

Lemma contains_take_while (p : ascii -> bool) (s : str) :
  contains (take_while p s) s = true.
Proof.
  apply contains_iff. exists [], (drop_while p s).
  cbn [app]. symmetry. apply take_drop_while.
Qed.

Lemma contains_suffix (a pre s : str) :
  contains a s = true -> contains a (pre ++ s) = true.
Proof.
  rewrite !contains_iff. intros [u [v ->]]. exists (pre ++ u), v.
  now rewrite <- app_assoc.
Qed.

Lemma strip_opt_suffix (ch : ascii) (s : str) :
  exists pre, s = pre ++ strip_opt ch s.
Proof.
  destruct s as [|c s]; [now exists [] |]. cbn.
  destruct (Ascii.eqb ch c); [now exists [c] | now exists []].
Qed.

Lemma first_marker_digits_digits (s : str) :
  forallb is_digit (first_marker_digits s) = true.
Proof.
  induction s as [|c s IH]; [reflexivity |].
  cbn [first_marker_digits]. cbv zeta.
  destruct (Ascii.eqb c "M" && nonempty _); [apply take_while_all | exact IH].
Qed.

Lemma first_marker_digits_inside (s : str) :
  contains (first_marker_digits s) s = true.
Proof.
  induction s as [|c s IH]; [reflexivity |].
  cbn [first_marker_digits]. cbv zeta.
  destruct (Ascii.eqb c "M" && nonempty _).
  - destruct (strip_opt_suffix "x" s) as [p1 H1].
    destruct (strip_opt_suffix "_" (strip_opt "x" s)) as [p2 H2].
    apply contains_iff.
    exists (c :: p1 ++ p2),
           (drop_while is_digit (strip_opt "_" (strip_opt "x" s))).
    rewrite take_drop_while. cbn [app]. rewrite <- app_assoc.
    now rewrite <- H2, <- H1.
  - now apply (contains_suffix _ [c]).
Qed.

Lemma first_marker_digits_empty (s : str) :
  first_marker_digits s = [] <-> none_inside is_marker_start s [] = true.
Proof.
  split.
  - induction s as [|c s IH]; [reflexivity |].
    cbn [first_marker_digits none_inside]. cbv zeta.
    rewrite app_nil_r, is_marker_start_run.
    destruct (Ascii.eqb c "M" && nonempty _) eqn:E.
    + intros H. rewrite H in E. apply andb_true_iff in E as [_ E].
      discriminate.
    + intros H. now rewrite IH.
  - intros H. rewrite <- (app_nil_r s).
    now rewrite first_marker_digits_skip.
Qed.

(** X8. The Identifier Extractor returns decimal digits only, taken from the
    text as they stand there; it returns the empty text exactly when no
    marker ([M], an optional [x], an optional underscore, a digit) starts
    anywhere in the text. *)
Theorem extractor_yields_digits (text : str) :
  forallb is_digit (extract_moldenhauer_number text) = true
  /\ contains (extract_moldenhauer_number text) text = true
  /\ (extract_moldenhauer_number text = []
      <-> none_inside is_marker_start text [] = true).
Proof.
  rewrite extract_is_first_marker_digits.
  split; [apply first_marker_digits_digits |].
  split; [apply first_marker_digits_inside |
          apply first_marker_digits_empty].
Qed.

(* ------------------------------------------------------------------ *)
(** ** Relevance Filter: all branches *)

(** The test the Relevance Filter applies to a filename, for an entry
    identifier and a catalog number. *)
Definition keeps (new_id num : str) (f : str) : bool :=
  str_eqb num (extract_moldenhauer_number f)
  && if contains (L "SkRT") new_id then contains (L "Reihentabelle") f
     else
       negb (contains (L "Reihentabelle") f)
       && match search tf_re new_id with
          | Some tf_match =>
            contains (L "Textfassung" ++ group 1 (f_caps tf_match)) f
          | None =>
            match search sk_re new_id with
            | Some sk_match =>
              is_some (search (sk_file_re (group 1 (f_caps sk_match))) f)
            | None => true
            end
          end.

Lemma filter_and (p q : str -> bool) (l : list str) :
  filter q (filter p l) = filter (fun f => p f && q f) l.
Proof.
  induction l as [|x l IH]; [reflexivity |]. cbn.
  destruct (p x); cbn; [destruct (q x) |]; now rewrite IH.
Qed.

Lemma get_relevant_svgs_keeps (new_id num : str) (files : list str) :
  get_relevant_svgs new_id files num = filter (keeps new_id num) files.
Proof.
  unfold get_relevant_svgs, keeps.
  destruct (contains (L "SkRT") new_id); [reflexivity |].
  destruct (search tf_re new_id) as [tf_match|].
  - rewrite filter_and. apply filter_ext. intros f.
    now rewrite andb_assoc.
  - destruct (search sk_re new_id) as [sk_match|].
    + rewrite filter_and. apply filter_ext. intros f.
      now rewrite andb_assoc.
    + apply filter_ext. intros f. now rewrite andb_true_r.
Qed.

Lemma filter_all (p : str -> bool) (l : list str) :
  (forall x, In x l -> p x = true) -> filter p l = l.
Proof.
  induction l as [|x l IH]; intros H; [reflexivity |]. cbn.
  rewrite (H x) by now left. f_equal. apply IH. intros y Hy. apply H.
  now right.
Qed.

(** X9. The Relevance Filter tests every filename on its own: for an entry
    identifier and a catalog number there is one test on filenames, and
    the result is the list of the files that pass it, in the order of the
    listing.  So the filter of two listings one after the other is the two
    results one after the other, and filtering a result again changes
    nothing. *)
Theorem relevance_decided_per_file (new_id num : str) :
  exists keep : str -> bool,
    (forall files, get_relevant_svgs new_id files num = filter keep files)
    /\ (forall l1 l2,
           get_relevant_svgs new_id (l1 ++ l2) num
           = get_relevant_svgs new_id l1 num
             ++ get_relevant_svgs new_id l2 num)
    /\ (forall files,
           get_relevant_svgs new_id (get_relevant_svgs new_id files num) num
           = get_relevant_svgs new_id files num).
Proof.
  exists (keeps new_id num). split; [apply get_relevant_svgs_keeps |].
  split.
  - intros l1 l2. rewrite !get_relevant_svgs_keeps. apply filter_app.
  - intros files. rewrite !get_relevant_svgs_keeps. apply filter_all.
    intros x Hx. now apply filter_In in Hx.
Qed.

(** X10. A file that the Relevance Filter selects is a file of the listing with
    the catalog number asked for, and it is a row table file exactly when
    the entry identifier holds [SkRT]. *)
Theorem relevant_files_sound
        (new_id : str) (all_svg_files : list str) (num f : str) :
  In f (get_relevant_svgs new_id all_svg_files num) ->
  In f all_svg_files
  /\ extract_moldenhauer_number f = num
  /\ contains (L "Reihentabelle") f = contains (L "SkRT") new_id.
Proof.
  rewrite get_relevant_svgs_keeps. intros H.
  apply filter_In in H as [Hin Hk]. split; [exact Hin |].
  unfold keeps in Hk. apply andb_true_iff in Hk as [Hnum Hk].
  apply str_eqb_eq in Hnum. split; [now symmetry |].
  destruct (contains (L "SkRT") new_id); [exact Hk |].
  apply andb_true_iff in Hk as [Hk _]. now apply negb_true_iff in Hk.
Qed.

Lemma relevant_files_sound_witness :
  In (L "M143_Reihentabelle.svg")
     [L "M143_Sk1.svg"; L "M143_Reihentabelle.svg"; L "M144_Sk1.svg"]
  /\ extract_moldenhauer_number (L "M143_Reihentabelle.svg") = L "143"
  /\ contains (L "Reihentabelle") (L "M143_Reihentabelle.svg")
     = contains (L "SkRT") (L "M_143_SkRT").
Proof.
  apply (relevant_files_sound
           (L "M_143_SkRT")
           [L "M143_Sk1.svg"; L "M143_Reihentabelle.svg"; L "M144_Sk1.svg"]
           (L "143") (L "M143_Reihentabelle.svg")).
  vm_compute. auto.
Defined.

(** X11. The two branches of the Relevance Filter that look at no marker
    number.  An identifier that holds [SkRT] gets the row table files of
    the catalog number and nothing else, whatever other markers it holds.
    An identifier without [SkRT], without a text version marker and
    without a sketch marker gets every file of the catalog number that is
    not a row table file. *)
Theorem relevance_skrt_and_default
        (new_id num : str) (all_svg_files : list str) :
  (contains (L "SkRT") new_id = true ->
   get_relevant_svgs new_id all_svg_files num
   = filter (fun f => str_eqb num (extract_moldenhauer_number f)
                      && contains (L "Reihentabelle") f) all_svg_files)
  /\ (contains (L "SkRT") new_id = false ->
      none_inside starts_tf new_id [] = true ->
      none_inside starts_sk new_id [] = true ->
      get_relevant_svgs new_id all_svg_files num
      = filter (fun f => str_eqb num (extract_moldenhauer_number f)
                         && negb (contains (L "Reihentabelle") f))
               all_svg_files).
Proof.
  unfold get_relevant_svgs. split.
  - intros ->. reflexivity.
  - intros -> Htf Hsk.
    rewrite (search_none tf_re), (search_none sk_re); try reflexivity.
    + now rewrite (none_inside_ext _ starts_sk) by apply matches_at_sk.
    + now rewrite (none_inside_ext _ starts_tf) by apply matches_at_tf.
Qed.

Lemma relevance_skrt_and_default_witness :
  get_relevant_svgs (L "M_143_SkRT_TF1")
    [L "M143_Textfassung1.svg"; L "M143_Reihentabelle.svg"] (L "143")
  = [L "M143_Reihentabelle.svg"]
  /\ get_relevant_svgs (L "M_143")
       [L "M143_Textfassung1.svg"; L "M143_Reihentabelle.svg";
        L "M143_Sk2.svg"] (L "143")
     = [L "M143_Textfassung1.svg"; L "M143_Sk2.svg"].
Proof.
  split.
  - rewrite (proj1 (relevance_skrt_and_default (L "M_143_SkRT_TF1")
                      (L "143") _)) by reflexivity.
    vm_compute. reflexivity.
  - rewrite (proj2 (relevance_skrt_and_default (L "M_143") (L "143") _))
      by reflexivity.
    vm_compute. reflexivity.
Defined.

(* ------------------------------------------------------------------ *)
(** ** Tag Rewriter: texts it leaves alone *)

(** A match of a tag pattern holds both attribute texts. *)
Lemma search_tag_re_contains (a b text : str) (m : found) :
  search (tag_re a b) text = Some m ->
  contains a text = true /\ contains b text = true.
Proof.
  intros H. apply search_some in H as [Htext Hin].
  apply in_tag_re in Hin as [[u [v [w [Hm _]]]] _]. cbn [fst] in Hm.
  rewrite Htext, Hm. split; apply contains_iff.
  - exists (f_before m ++ "<"%char :: u),
           (v ++ b ++ w ++ ">"%char :: f_after m).
    now rewrite <- app_assoc.
  - exists (f_before m ++ "<"%char :: u ++ a ++ v),
           (w ++ ">"%char :: f_after m).
    rewrite <- !app_assoc. cbn [app]. now rewrite <- !app_assoc.
Qed.

Lemma search_pat_needs (q : ascii) (id_first : bool) (v text : str) :
  contains (id_attr q v) text = false \/ contains (class_tkk q) text = false ->
  search (pat q id_first v) text = None.
Proof.
  intros H. destruct (search (pat q id_first v) text) as [m|] eqn:E;
    [| reflexivity].
  unfold pat in E.
  destruct id_first; apply search_tag_re_contains in E as [E1 E2];
    destruct H; congruence.
Qed.

Lemma update_no_match (text old_val new_val : str) :
  (forall q id_first, is_quote q = true ->
                      search (pat q id_first old_val) text = None) ->
  update_svg_id text old_val new_val = (text, None).
Proof.
  intros H.
  assert (Hdq : is_quote dq = true) by reflexivity.
  assert (Hsq : is_quote sq = true) by reflexivity.
  assert (Hz : forall q id_first,
             is_quote q = true ->
             count_matches (pat q id_first old_val) text = 0)
    by (intros; apply count_matches_zero; auto).
  unfold update_svg_id, total_tkk_matches. rewrite patterns_pat.
  cbn [fold_left]. rewrite !Hz by assumption.
  cbn [Nat.add Nat.ltb Nat.leb]. unfold re_sub.
  rewrite (sub_loop_none _ (pat dq true old_val)) by auto.
  rewrite (sub_loop_none _ (pat dq false old_val)) by auto.
  rewrite (sub_loop_none _ (pat sq true old_val)) by auto.
  rewrite (sub_loop_none _ (pat sq false old_val)) by auto.
  reflexivity.
Qed.

(** X12. The Tag Rewriter needs both attribute texts in one quote character:
    when, for each of the two quote characters, the text lacks the
    identifier attribute of the old identifier or the class attribute
    [tkk] in that quote character, the text comes back as it is and no
    error is reported.  So an element of another class is not touched
    although its identifier matches, and neither is an element whose two
    attributes are in different quote characters. *)
Theorem rewrite_needs_both_attributes (text old_val new_val : str) :
  contains (id_attr dq old_val) text = false
  \/ contains (class_tkk dq) text = false ->
  contains (id_attr sq old_val) text = false
  \/ contains (class_tkk sq) text = false ->
  update_svg_id text old_val new_val = (text, None).
Proof.
  intros Hd Hs. apply update_no_match. intros q id_first Hq.
  apply search_pat_needs.
  destruct (quote_cases q Hq) as [-> | ->]; assumption.
Qed.

(** An element of class [other] with the identifier, and an element with
    the class [tkk] in single quotes and the identifier in double
    quotes. *)
Definition other_class_text : str :=
  L "<g class=" ++ dq :: L "other" ++ dq :: L " " ++ id_attr dq (L "a")
    ++ L ">" ++ L "<g " ++ class_tkk sq ++ L " " ++ id_attr dq (L "a")
    ++ L ">".

Lemma rewrite_needs_both_attributes_witness :
  update_svg_id other_class_text (L "a") (L "n") = (other_class_text, None).
Proof.
  apply (rewrite_needs_both_attributes other_class_text (L "a") (L "n")).
  - right. vm_compute. reflexivity.
  - left. vm_compute. reflexivity.
Defined.

(* ------------------------------------------------------------------ *)
(** ** Tag Rewriter: the effect of a rewrite *)

(** X13. Rewriting an identifier to itself gives the text back, and whether an
    ambiguity is reported does not depend on the new identifier. *)
Theorem self_rename_is_identity (text v new_val : str) :
  fst (update_svg_id text v v) = text
  /\ snd (update_svg_id text v v) = snd (update_svg_id text v new_val).
Proof.
  split; [apply update_svg_id_same |].
  now rewrite !update_svg_id_error.
Qed.

Lemma total_as_sum (text v : str) :
  total_tkk_matches text v
  = count_matches (pat dq true v) text + count_matches (pat dq false v) text
    + count_matches (pat sq true v) text
    + count_matches (pat sq false v) text.
Proof. unfold total_tkk_matches. rewrite patterns_pat. reflexivity. Qed.

(** X14. After the rewrite of the one element of the old identifier, the four
    patterns find the element under the new identifier, once, and nothing
    under the old identifier (identifiers without quote and equals
    characters; the new identifier is not in the text before). *)
Theorem rewrite_moves_element (old_val new_val p r : str) (q : ascii) :
  is_quote q = true ->
  plain old_val = true -> plain new_val = true ->
  old_val <> new_val ->
  id_occurrences old_val (p ++ id_attr q old_val ++ r) = 1 ->
  id_occurrences new_val (p ++ id_attr q old_val ++ r) = 0 ->
  total_tkk_matches (p ++ id_attr q old_val ++ r) old_val = 1 ->
  let text' :=
    fst (update_svg_id (p ++ id_attr q old_val ++ r) old_val new_val) in
  total_tkk_matches text' new_val = 1
  /\ total_tkk_matches text' old_val = 0.
Proof.
  intros Hq Hold Hnew Hne Ho Hn Htotal. cbv zeta.
  rewrite (update_unique old_val new_val p r q) by assumption. cbn [fst].
  pose proof (rewritten_unique old_val new_val p r q Hq Hold Hnew Hn) as Hn1.
  assert (Hdq : is_quote dq = true) by reflexivity.
  assert (Hsq : is_quote sq = true) by reflexivity.
  split.
  - rewrite total_as_sum in *.
    rewrite !(count_transfer old_val new_val p r q) by auto. exact Htotal.
  - assert (Hz : id_occurrences old_val (p ++ id_attr q new_val ++ r) = 0).
    { apply str_eqb_neq in Hne. unfold id_occurrences in *.
      rewrite !occurrences_around in * by assumption.
      rewrite str_eqb_refl in Ho. rewrite Hne.
      rewrite !andb_false_r. rewrite !andb_true_r in Ho.
      destruct (Ascii.eqb dq q), (Ascii.eqb sq q); lia. }
    unfold id_occurrences in Hz. rewrite total_as_sum.
    pose proof (count_matches_bound dq true old_val
                  (p ++ id_attr q new_val ++ r)).
    pose proof (count_matches_bound dq false old_val
                  (p ++ id_attr q new_val ++ r)).
    pose proof (count_matches_bound sq true old_val
                  (p ++ id_attr q new_val ++ r)).
    pose proof (count_matches_bound sq false old_val
                  (p ++ id_attr q new_val ++ r)).
    lia.
Qed.

Lemma rewrite_moves_element_witness :
  let text' :=
    fst (update_svg_id (L "<g " ++ class_tkk dq ++ L " "
                          ++ id_attr dq (L "old-id") ++ L ">content</g>")
                       (L "old-id") (L "new-id")) in
  total_tkk_matches text' (L "new-id") = 1
  /\ total_tkk_matches text' (L "old-id") = 0.
Proof.
  apply (rewrite_moves_element (L "old-id") (L "new-id")
                               (L "<g " ++ class_tkk dq ++ L " ")
                               (L ">content</g>") dq);
    try (vm_compute; reflexivity).
  discriminate.
Defined.

(* ------------------------------------------------------------------ *)
(** ** A located element that the rewrite patterns do not match *)

Lemma total_zero_no_match (text v : str) :
  total_tkk_matches text v = 0 ->
  forall q id_first, is_quote q = true ->
                     search (pat q id_first v) text = None.
Proof.
  rewrite total_as_sum. intros H q id_first Hq.
  apply count_matches_zero.
  destruct (quote_cases q Hq) as [-> | ->]; destruct id_first; lia.
Qed.

Lemma set_content_same_text (c : caches) (f : str) (ref : nat) :
  dict_get f (loaded_svg_texts c) = Some ref ->
  cached_text f (set_content c ref (content (deref (heap c) ref)))
  = content (deref (heap c) ref).
Proof.
  intros Hl. unfold cached_text.
  rewrite (get_svg_text_again f (set_content c ref _) ref) by exact Hl.
  cbn [fst snd set_content heap].
  destruct (Nat.lt_ge_cases ref (length (heap c))) as [Hlt | Hge].
  - rewrite deref_heap_set, Nat.eqb_refl by assumption. reflexivity.
  - assert (Hsame : forall (h : list svg_data) (n : nat) (v : svg_data),
               length h <= n -> heap_set h n v = h).
    { induction h as [|x h IH]; intros [|n] v Hn; cbn in *;
        try reflexivity; try lia.
      f_equal. apply IH. lia. }
    now rewrite Hsame.
Qed.

(** X15. The pattern that locates an element accepts a different quote
    character on each attribute; the four rewrite patterns do not.  When
    an element is located and the rewrite patterns match nowhere in the
    text, the call returns [True], gives the block its new identifier and
    enters it in the rename map, and stores the text as it was: the
    document is renamed and the markup is not. *)
Theorem located_but_not_rewritten
        (text old_val : str) (b : block) (relevant : list str)
        (id_mapping : list (str * str)) (prefix f : str) (c c1 : caches) :
  svgGroupId b = Some old_val ->
  nonempty old_val = true -> old_val <> TODO ->
  find_in_svgs old_val relevant c = (Some f, c1) ->
  nonempty f = true ->
  cached_text f c1 = text ->
  total_tkk_matches text old_val = 0 ->
  process_block_comment b relevant id_mapping prefix c
  = (true,
     mkBS (mkBlock (Some (snd (assign old_val id_mapping prefix)))
                   (block_fields b))
          (fst (assign old_val id_mapping prefix))
          (set_content c1 (fst (get_svg_text f c1)) text))
  /\ cached_text f (set_content c1 (fst (get_svg_text f c1)) text) = text.
Proof.
  intros Hb Hne Htodo Hfind Hf Htext Hzero.
  pose proof (total_zero_no_match _ _ Hzero) as Hnone.
  destruct (find_in_svgs_loaded _ _ _ _ _ Hfind) as [ref Hl].
  unfold cached_text in Htext.
  rewrite (get_svg_text_again _ _ _ Hl) in *. cbn [fst snd] in Htext |- *.
  split.
  - unfold process_block_comment. rewrite Hb, Hne.
    apply str_eqb_neq in Htodo. rewrite Htodo. cbn [negb orb].
    rewrite Hfind, Hf, (get_svg_text_again _ _ _ Hl), Htext.
    rewrite (update_no_match text old_val temp_id) by exact Hnone.
    cbn [fst snd].
    destruct (assign old_val id_mapping prefix) as [m' new_val].
    rewrite (update_no_match text old_val new_val) by exact Hnone.
    reflexivity.
  - subst text. now apply set_content_same_text.
Qed.

(** An element with the class in double quotes and the identifier in
    single quotes. *)
Definition mixed_quotes_text : str :=
  L "<g " ++ class_tkk dq ++ L " " ++ id_attr sq (L "a") ++ L ">".

Definition mixed_quotes_caches : caches :=
  mkCaches [(L "M1.svg", mixed_quotes_text)] [] [] [].

Lemma located_but_not_rewritten_witness :
  process_block_comment (ref_block "a") [L "M1.svg"] [] (L "g-tkk-")
                        mixed_quotes_caches
  = (true,
     mkBS (mkBlock (Some (L "g-tkk-1")) [])
          [(L "a", L "g-tkk-1")]
          (mkCaches [(L "M1.svg", mixed_quotes_text)]
                    [mkSvg mixed_quotes_text (L "M1.svg")]
                    [(L "M1.svg", 0)] [(L "M1.svg", 0)]))
  /\ cached_text (L "M1.svg")
       (mkCaches [(L "M1.svg", mixed_quotes_text)]
                 [mkSvg mixed_quotes_text (L "M1.svg")]
                 [(L "M1.svg", 0)] [(L "M1.svg", 0)])
     = mixed_quotes_text.
Proof.
  apply (located_but_not_rewritten
           mixed_quotes_text (L "a") (ref_block "a") [L "M1.svg"] []
           (L "g-tkk-") (L "M1.svg") mixed_quotes_caches
           (snd (get_svg_text (L "M1.svg") mixed_quotes_caches)));
    try (vm_compute; reflexivity).
  discriminate.
Defined.

(* ------------------------------------------------------------------ *)
(** ** Loading the inputs *)

Lemma endswith_iff (suffix s : str) :
  endswith suffix s = true <-> exists p, s = p ++ suffix.
Proof.
  unfold endswith. rewrite startswith_iff. split.
  - intros [r H]. exists (rev r).
    apply (f_equal (@rev ascii)) in H.
    now rewrite rev_involutive, rev_app_distr, rev_involutive in H.
  - intros [p ->]. exists (rev p). apply rev_app_distr.
Qed.

Lemma is_svg_name_iff (f : str) :
  is_svg_name f = true
  <-> exists stem ext, f = stem ++ ext /\ map lower_char ext = L ".svg".
Proof.
  unfold is_svg_name. rewrite endswith_iff. split.
  - intros [p H]. apply map_eq_app in H as [stem [ext [Hf [_ Hext]]]].
    now exists stem, ext.
  - intros [stem [ext [-> Hext]]]. exists (map lower_char stem).
    now rewrite map_app, Hext.
Qed.

(** X16. When the inputs load, the document is the one at the document path,
    and the markup files are the names of the folder, in the order of the
    listing, that end in [.svg] in any letter case; there is at least
    one. *)
Theorem loaded_inputs (fs : filesystem) (json_path svg_folder : str)
        (data : document) (all_svg_files : list str) :
  load_and_validate_inputs fs json_path svg_folder
  = Ok (data, all_svg_files) ->
  json_file fs = Json data
  /\ all_svg_files <> []
  /\ exists files,
      svg_dir fs = Listing files
      /\ all_svg_files = filter is_svg_name (map fst files)
      /\ forall f,
          In f all_svg_files
          <-> In f (map fst files)
              /\ exists stem ext,
                  f = stem ++ ext /\ map lower_char ext = L ".svg".
Proof.
  unfold load_and_validate_inputs.
  destruct (json_file fs) as [| |d]; [discriminate | |].
  { destruct (svg_dir fs); discriminate. }
  destruct (svg_dir fs) as [|err|files]; [discriminate | discriminate |].
  destruct (filter is_svg_name (map fst files)) as [|f0 l] eqn:E;
    [discriminate |].
  cbn [nonempty_list]. intros H. injection H as -> <-.
  split; [reflexivity | split; [discriminate |]].
  exists files. split; [reflexivity | split; [now rewrite E |]].
  intros f. rewrite <- E, filter_In, is_svg_name_iff. reflexivity.
Qed.

Lemma loaded_inputs_witness :
  json_file (mkFS (Json []) (Listing [(L "A.SVG", []); (L "b.txt", [])]))
  = Json []
  /\ [L "A.SVG"] <> []
  /\ exists files,
      svg_dir (mkFS (Json []) (Listing [(L "A.SVG", []); (L "b.txt", [])]))
      = Listing files
      /\ [L "A.SVG"] = filter is_svg_name (map fst files)
      /\ forall f,
          In f [L "A.SVG"]
          <-> In f (map fst files)
              /\ exists stem ext,
                  f = stem ++ ext /\ map lower_char ext = L ".svg".
Proof.
  apply (loaded_inputs
           (mkFS (Json []) (Listing [(L "A.SVG", []); (L "b.txt", [])]))
           (L "t.json") (L "svgs") [] [L "A.SVG"]).
  vm_compute. reflexivity.
Defined.

(* ------------------------------------------------------------------ *)
(** ** The command-line entry point *)


(* ------------------------------------------------------------------ *)
(** ** The report *)

(** A block needs no report: it has no identifier, an empty one, [TODO],
    or one that starts with the prefix. *)
Definition unified (prefix : str) (b : block) : Prop :=
  match svgGroupId b with
  | None => True
  | Some val => val = [] \/ val = TODO \/ startswith prefix val = true
  end.

Lemma flat_map_nil {A B : Type} (f : A -> list B) (l : list A) :
  flat_map f l = [] <-> forall x, In x l -> f x = [].
Proof.
  induction l as [|a l IH]; cbn.
  - split; [intros _ x [] | reflexivity].
  - split.
    + intros H. apply app_eq_nil in H as [H1 H2].
      intros x [<- | Hx]; [exact H1 | now apply IH].
    + intros H. rewrite (H a) by now left. apply IH. auto.
Qed.

(** X18. The report has no JSON error exactly when every block of the document
    needs none; and with the empty prefix, with which every identifier
    starts, the report has no issue at all, whatever the document and the
    markup hold. *)
Theorem report_json_errors (data : document) (prefix : str) :
  (json_issues data prefix = []
   <-> forall e b, In e data -> In b (all_blocks e) -> unified prefix b)
  /\ (forall cache, display_uncertainties data [] cache = []).
Proof.
  split.
  - unfold json_issues. rewrite flat_map_nil. split.
    + intros H e b He Hb. specialize (H e He).
      rewrite flat_map_nil in H. specialize (H b Hb). unfold unified.
      destruct (svgGroupId b) as [val|]; [| exact I].
      destruct val as [|ch val]; [now left | right].
      cbn [nonempty andb] in H.
      destruct (startswith prefix (ch :: val)); [now right |].
      cbn [negb andb] in H.
      destruct (str_eqb (ch :: val) TODO) eqn:E; [| discriminate].
      left. now apply str_eqb_eq.
    + intros H e He. apply flat_map_nil. intros b Hb.
      specialize (H e b He Hb). unfold unified in H.
      destruct (svgGroupId b) as [val|]; [| reflexivity].
      destruct H as [-> | [-> | H]].
      * reflexivity.
      * rewrite str_eqb_refl, andb_false_r. reflexivity.
      * rewrite H, andb_false_r. reflexivity.
  - intros cache. unfold display_uncertainties.
    assert (Hj : json_issues data [] = []).
    { unfold json_issues. apply flat_map_nil. intros e _.
      apply flat_map_nil. intros b _.
      destruct (svgGroupId b) as [val|]; [| reflexivity].
      cbn [startswith negb]. now rewrite andb_false_r. }
    assert (Hs : svg_issues [] cache = []).
    { unfold svg_issues. apply flat_map_nil. intros fs _.
      unfold orphans_in. apply flat_map_nil. intros m _. reflexivity. }
    now rewrite Hj, Hs.
Qed.

(** The identifiers that [tkk_id_regex] finds in a text: group 1 when it
    is not empty, group 2 otherwise. *)
Definition tkk_ids (text : str) : list str :=
  map (fun m => if nonempty (group 1 (f_caps m)) then group 1 (f_caps m)
                else group 2 (f_caps m))
      (finditer (S (length text)) tkk_id_regex text).

Lemma orphans_in_iff (prefix f text v g : str) :
  In (SvgOrphan v g) (orphans_in prefix f text)
  <-> g = f /\ In v (tkk_ids text) /\ startswith prefix v = false.
Proof.
  unfold orphans_in, tkk_ids. rewrite in_flat_map, in_map_iff. split.
  - intros [m [Hm Hin]].
    destruct (startswith prefix _) eqn:E; [contradiction |].
    destruct Hin as [Hin | []]. injection Hin as <- <-.
    split; [reflexivity | split; [| exact E]]. now exists m.
  - intros [-> [[m [<- Hm]] Hs]]. exists m. split; [exact Hm |].
    rewrite Hs. now left.
Qed.

Lemma json_issues_json (data : document) (prefix v g : str) :
  ~ In (SvgOrphan v g) (json_issues data prefix).
Proof.
  unfold json_issues. intros H.
  apply in_flat_map in H as [e [_ H]].
  apply in_flat_map in H as [b [_ H]].
  destruct (svgGroupId b) as [val|]; [| contradiction].
  destruct (nonempty val && _ && _); [| contradiction].
  destruct H as [H | []]. discriminate.
Qed.

(** X19. An orphan of the report is an identifier that [tkk_id_regex] finds in
    the text the run left in the folder for the reported file, it does not
    start with the prefix, and the file is one the Relevance Filter gives
    to an entry of the document: the report looks at no other file. *)
Theorem report_orphans_are_on_disk
        (fs fs' : filesystem) (json_path svg_folder prefix : str)
        (o : outcome) (v f : str) :
  process_tkk_ids fs json_path svg_folder prefix = (Ok o, fs') ->
  In (SvgOrphan v f) (out_report o) ->
  exists data files files' text,
    json_file fs = Json data
    /\ svg_dir fs = Listing files /\ svg_dir fs' = Listing files'
    /\ dict_get f files' = Some text
    /\ In v (tkk_ids text) /\ startswith prefix v = false
    /\ relevant_to data (filter is_svg_name (map fst files)) f.
Proof.
  intros H Hin.
  rewrite (run_report _ _ _ _ _ _ H) in Hin.
  destruct (run_unfold _ _ _ _ _ _ H)
    as [data [files [c [Hj [Hd [Hrun [Hd' Hcache]]]]]]].
  pose proof (run_coherent _ _ _ _ _ Hrun) as Hc.
  destruct (flushed_coherent files _ (relevant_to_listed data files) c Hc)
    as [_ Hfl].
  unfold display_uncertainties in Hin.
  apply in_app_or in Hin as [Hin | Hin];
    [now apply json_issues_json in Hin |].
  unfold svg_issues in Hin. apply in_flat_map in Hin as [[f0 sdata] [Hf0 Hin]].
  cbn [fst snd] in Hin. apply orphans_in_iff in Hin as [-> [Hv Hs]].
  rewrite Hcache in Hf0.
  apply in_map_iff in Hf0 as [[f' r] [Heq Hf0]].
  cbn [fst snd] in Heq. injection Heq as -> <-.
  apply (in_dict_get _ _ _ (co_keys _ _ _ Hc)) in Hf0.
  exists data, files, (flush c), (content (deref (heap c) r)).
  split; [exact Hj | split; [exact Hd | split; [exact Hd' |]]].
  split; [now apply Hfl | split; [exact Hv | split; [exact Hs |]]].
  now apply (co_final _ _ _ Hc f0 r Hf0).
Qed.

(** A markup file with an element that the entry refers to and one that
    no block refers to. *)
Definition orphan_fs : filesystem :=
  mkFS (Json [mkEntry (Some (L "M_1")) [mkGroup [ref_block "a"]]])
       (Listing [(L "M1.svg",
                  g_class_id dq (L "a") ++ g_class_id dq (L "z"))]).

Definition orphan_out : outcome :=
  mkOutcome
    [mkEntry (Some (L "M_1")) [mkGroup [ref_block "g-tkk-1"]]]
    [(L "M1.svg",
      mkSvg (g_class_id dq (L "g-tkk-1") ++ g_class_id dq (L "z"))
            (L "M1.svg"))]
    true
    [SvgOrphan (L "z") (L "M1.svg")].

Definition orphan_fs_after : filesystem :=
  mkFS (Json (out_data orphan_out))
       (Listing [(L "M1.svg",
                  g_class_id dq (L "g-tkk-1") ++ g_class_id dq (L "z"))]).

Example orphan_run :
  process_tkk_ids orphan_fs (L "t.json") (L "svgs") (L "g-tkk-")
  = (Ok orphan_out, orphan_fs_after).
Proof. vm_compute. reflexivity. Qed.

Lemma report_orphans_are_on_disk_witness :
  exists data files files' text,
    json_file orphan_fs = Json data
    /\ svg_dir orphan_fs = Listing files
    /\ svg_dir orphan_fs_after = Listing files'
    /\ dict_get (L "M1.svg") files' = Some text
    /\ In (L "z") (tkk_ids text)
    /\ startswith (L "g-tkk-") (L "z") = false
    /\ relevant_to data (filter is_svg_name (map fst files)) (L "M1.svg").
Proof.
  apply (report_orphans_are_on_disk
           orphan_fs orphan_fs_after (L "t.json") (L "svgs") (L "g-tkk-")
           orphan_out (L "z") (L "M1.svg") orphan_run).
  left. reflexivity.
Defined.

(* ------------------------------------------------------------------ *)
(** ** The search for the file of an identifier *)

(** The loaded objects are objects of the heap. *)
Definition valid (c : caches) : Prop :=
  forall f r, dict_get f (loaded_svg_texts c) = Some r -> r < length (heap c).

Lemma get_svg_text_valid (f : str) (c : caches) :
  valid c -> valid (snd (get_svg_text f c)).
Proof.
  intros Hv. unfold get_svg_text.
  destruct (dict_get f (loaded_svg_texts c)) eqn:E; [exact Hv |].
  intros g r. cbn [snd loaded_svg_texts heap]. rewrite length_app. cbn.
  destruct (list_eq_dec ascii_dec g f) as [-> | Hne].
  - rewrite dict_get_set_same. intros H. injection H as <-. lia.
  - rewrite dict_get_set_other by assumption. intros H.
    apply Hv in H. lia.
Qed.

(** Loading a file changes the text of no file as the caches give it. *)
Lemma cached_text_after_load (f g : str) (c : caches) :
  valid c ->
  cached_text g (snd (get_svg_text f c)) = cached_text g c.
Proof.
  intros Hv.
  destruct (dict_get f (loaded_svg_texts c)) as [rf|] eqn:Ef.
  { now rewrite (get_svg_text_again f c rf Ef). }
  assert (Hget : get_svg_text f c
                 = (length (heap c),
                    mkCaches (disk c)
                             (heap c ++ [mkSvg (read_file (disk c) f) f])
                             (dict_set f (length (heap c))
                                       (loaded_svg_texts c))
                             (dict_set f (length (heap c))
                                       (final_svg_cache c))))
    by (unfold get_svg_text; now rewrite Ef).
  rewrite Hget. cbn [snd]. unfold cached_text, get_svg_text.
  cbn [loaded_svg_texts heap disk final_svg_cache].
  destruct (list_eq_dec ascii_dec g f) as [-> | Hne].
  - rewrite dict_get_set_same, Ef. cbn [fst snd heap].
    now rewrite !deref_new.
  - rewrite dict_get_set_other by assumption.
    destruct (dict_get g (loaded_svg_texts c)) as [rg|] eqn:Eg;
      cbn [fst snd heap].
    + apply Hv in Eg. now rewrite deref_app.
    + now rewrite !deref_new.
Qed.

(** The files the loop looks at: the relevant files up to and with the
    first that passes the test. *)
Fixpoint examined (p : str -> bool) (l : list str) : list str :=
  match l with
  | [] => []
  | g :: l' => if p g then [g] else g :: examined p l'
  end.

Lemma get_svg_text_keys (f : str) (c : caches) :
  map fst (loaded_svg_texts (snd (get_svg_text f c)))
  = add_new (map fst (loaded_svg_texts c)) f.
Proof.
  unfold get_svg_text, add_new. rewrite <- dict_get_keys.
  destruct (dict_get f (loaded_svg_texts c)) as [r|] eqn:E;
    cbn [is_some snd loaded_svg_texts]; [reflexivity |].
  now rewrite (dict_set_keys_new _ _ _ E), map_app.
Qed.

(** X20. The loop of [process_block_comment] returns the first relevant file
    whose text, as the caches give it, holds an element for the
    identifier, and it loads the files it looked at and no file after the
    one it returns. *)
Theorem first_relevant_file_wins
        (old_val : str) (relevant : list str) (c : caches) :
  valid c ->
  let holds := fun g =>
    is_some (search (locate_re old_val) (cached_text g c)) in
  fst (find_in_svgs old_val relevant c) = find holds relevant
  /\ map fst (loaded_svg_texts (snd (find_in_svgs old_val relevant c)))
     = fold_left add_new (examined holds relevant)
                 (map fst (loaded_svg_texts c)).
Proof.
  cbv zeta. revert c. induction relevant as [|g rest IH]; intros c Hv.
  - cbn. auto.
  - cbn [find_in_svgs find examined].
    pose proof (get_svg_text_valid g c Hv) as Hv1.
    pose proof (get_svg_text_keys g c) as Hk.
    assert (Htext : content (deref (heap (snd (get_svg_text g c)))
                                   (fst (get_svg_text g c)))
                    = cached_text g c) by reflexivity.
    assert (Hsame : forall h,
               cached_text h (snd (get_svg_text g c)) = cached_text h c)
      by (intros h; now apply cached_text_after_load).
    destruct (get_svg_text g c) as [ref c1]. cbn [fst snd] in *.
    rewrite Htext.
    destruct (is_some (search (locate_re old_val) (cached_text g c))).
    + cbn [fst snd fold_left]. split; [reflexivity | exact Hk].
    + destruct (IH c1 Hv1) as [H1 H2]. cbn [fold_left].
      rewrite H1, H2, Hk. split.
      * clear -Hsame. induction rest as [|h rest IH]; [reflexivity |].
        cbn [find]. now rewrite Hsame, IH.
      * f_equal. clear -Hsame.
        induction rest as [|h rest IH]; [reflexivity |].
        cbn [examined]. now rewrite Hsame, IH.
Qed.

(** Three markup files; the second and the third hold an element for
    [a]. *)
Definition three_files : caches :=
  mkCaches [(L "1.svg", L "<svg/>");
            (L "2.svg", g_class_id dq (L "a"));
            (L "3.svg", g_class_id dq (L "a"))] [] [] [].

Lemma first_relevant_file_wins_witness :
  fst (find_in_svgs (L "a") [L "1.svg"; L "2.svg"; L "3.svg"] three_files)
  = Some (L "2.svg")
  /\ map fst (loaded_svg_texts
                (snd (find_in_svgs (L "a") [L "1.svg"; L "2.svg"; L "3.svg"]
                                   three_files)))
     = [L "1.svg"; L "2.svg"].
Proof.
  destruct (first_relevant_file_wins
              (L "a") [L "1.svg"; L "2.svg"; L "3.svg"] three_files)
    as [H1 H2].
  - intros f r H. discriminate H.
  - split.
    + rewrite H1. vm_compute. reflexivity.
    + rewrite H2. vm_compute. reflexivity.
Defined.

(* ------------------------------------------------------------------ *)
(** ** A call that renames nothing *)

Lemma find_in_svgs_texts (old_val : str) :
  forall (relevant : list str) (c : caches),
    valid c ->
    valid (snd (find_in_svgs old_val relevant c))
    /\ disk (snd (find_in_svgs old_val relevant c)) = disk c
    /\ forall g,
        cached_text g (snd (find_in_svgs old_val relevant c))
        = cached_text g c.
Proof.
  induction relevant as [|f rest IH]; intros c Hv; [cbn; auto |].
  cbn [find_in_svgs].
  pose proof (get_svg_text_valid f c Hv) as Hv1.
  assert (Hd : disk (snd (get_svg_text f c)) = disk c).
  { unfold get_svg_text. now destruct (dict_get f (loaded_svg_texts c)). }
  assert (Hsame : forall g,
             cached_text g (snd (get_svg_text f c)) = cached_text g c)
    by (intros g; now apply cached_text_after_load).
  destruct (get_svg_text f c) as [ref c1]. cbn [snd] in *.
  destruct (is_some _); [cbn [snd]; auto |].
  destruct (IH c1 Hv1) as [H1 [H2 H3]].
  split; [exact H1 | split; [congruence |]].
  intros g. now rewrite H3.
Qed.

(** X21. A call of [process_block_comment] that renames nothing, because the
    block has no identifier to rename or because the call returns [False],
    leaves the block, the rename map and the text of every file as they
    were; and no call writes to the folder. *)
Theorem unrenamed_block_changes_nothing
        (b : block) (relevant : list str) (m : list (str * str))
        (prefix : str) (c : caches) :
  valid c ->
  let r := process_block_comment b relevant m prefix c in
  disk (bs_caches (snd r)) = disk c
  /\ (renamed b (fst r) = None ->
      bs_block (snd r) = b
      /\ bs_mapping (snd r) = m
      /\ forall g, cached_text g (bs_caches (snd r)) = cached_text g c).
Proof.
  intros Hv. cbv zeta.
  destruct (process_block_comment_effect b relevant m prefix c) as [Hm Hb].
  rewrite Hm, Hb.
  unfold process_block_comment, renamed.
  destruct (svgGroupId b) as [old_val|]; [| cbn; auto].
  destruct (nonempty old_val) eqn:Hne; cbn [negb orb]; [| cbn; auto].
  destruct (str_eqb old_val TODO) eqn:Htodo;
    [rewrite andb_false_r; cbn; auto |].
  destruct (find_in_svgs_texts old_val relevant c Hv) as [Hv1 [Hd1 Ht1]].
  pose proof (find_in_svgs_loaded old_val relevant c) as Hl.
  destruct (find_in_svgs old_val relevant c) as [[f|] c1];
    cbn [snd] in Hv1, Hd1, Ht1; [| cbn; auto].
  destruct (nonempty f); [| cbn; auto].
  destruct (Hl c1 f eq_refl) as [ref Href].
  rewrite (get_svg_text_again _ _ _ Href).
  destruct (snd (update_svg_id _ old_val temp_id)); [cbn; auto |].
  destruct (assign old_val m prefix) as [m' new_val].
  cbn [fst snd bs_caches andb negb]. split; [exact Hd1 | discriminate].
Qed.

Lemma unrenamed_block_changes_nothing_witness :
  let r := process_block_comment (ref_block "missing") [L "1.svg"] []
                                 (L "g-tkk-") three_files in
  disk (bs_caches (snd r)) = disk three_files
  /\ bs_block (snd r) = ref_block "missing"
  /\ bs_mapping (snd r) = []
  /\ forall g, cached_text g (bs_caches (snd r))
               = cached_text g three_files.
Proof.
  destruct (unrenamed_block_changes_nothing
              (ref_block "missing") [L "1.svg"] [] (L "g-tkk-") three_files)
    as [Hd Hrest].
  - intros f r H. discriminate H.
  - split; [exact Hd | apply Hrest; vm_compute; reflexivity].
Defined.

(* ------------------------------------------------------------------ *)
(** ** Locating and rewriting agree on the tags of one quote character *)

Lemma in_cat_cons (r : regex) (rs : list regex) (x z : mstate) :
  In z (matches (Cat (r :: rs)) x)
  <-> exists y, In y (matches r x) /\ In z (matches (Cat rs) y).
Proof. apply in_seq_matches. Qed.

Lemma in_cat_lit (ch : ascii) (rs : list regex) (s : str) (c : caps)
      (z : mstate) :
  In z (matches (Cat rs) (s, c)) ->
  In z (matches (Cat (Lit ch :: rs)) (ch :: s, c)).
Proof.
  intros H. apply in_cat_cons. exists (s, c). split; [| exact H].
  apply in_lit_matches. auto.
Qed.

Lemma in_cat_class (p : ascii -> bool) (a : ascii) (rs : list regex)
      (s : str) (c : caps) (z : mstate) :
  p a = true ->
  In z (matches (Cat rs) (s, c)) ->
  In z (matches (Cat (Chr p :: rs)) (a :: s, c)).
Proof.
  intros Hp H. apply in_cat_cons. exists (s, c). split; [| exact H].
  cbn [matches fst snd]. rewrite Hp. now left.
Qed.

Lemma in_cat_str (a : str) (rs : list regex) (s : str) (c : caps)
      (z : mstate) :
  In z (matches (Cat rs) (s, c)) ->
  In z (matches (Cat (Str a :: rs)) (a ++ s, c)).
Proof.
  intros H. apply in_cat_cons. exists (s, c). split; [| exact H].
  apply in_Str_matches. auto.
Qed.

Lemma in_cat_lazy (u : str) (rs : list regex) (s : str) (c : caps)
      (z : mstate) :
  forallb not_gt u = true ->
  In z (matches (Cat rs) (s, c)) ->
  In z (matches (Cat (lazy_tag_chars :: rs)) (u ++ s, c)).
Proof.
  intros Hu H. apply in_cat_cons. exists (s, c). split; [| exact H].
  apply in_lazy_tag_chars. exists u. auto.
Qed.

Lemma in_cat_some (u : str) (rs : list regex) (s : str) (c : caps)
      (z : mstate) :
  u <> [] -> forallb not_gt u = true ->
  In z (matches (Cat rs) (s, c)) ->
  In z (matches (Cat (Plus false (Chr not_gt) :: rs)) (u ++ s, c)).
Proof.
  intros Hne Hu H. apply in_cat_cons. exists (s, c). split; [| exact H].
  destruct u as [|a u]; [congruence |]. cbn [forallb] in Hu.
  apply andb_true_iff in Hu as [Ha Hu].
  unfold Plus. apply in_seq_matches. exists (u ++ s, c). split.
  - cbn [app matches fst snd]. rewrite Ha. now left.
  - apply in_lazy_tag_chars. exists u. auto.
Qed.

(** An attribute text in one quote character, read by the pattern of an
    attribute in either quote character. *)
Lemma in_cat_attr (name val : str) (q : ascii) (rs : list regex)
      (s : str) (c : caps) (z : mstate) :
  is_quote q = true ->
  In z (matches (Cat rs) (s, c)) ->
  In z (matches (Cat (Str name :: Chr is_quote :: Str val :: Chr is_quote
                          :: rs))
                ((name ++ q :: val ++ [q]) ++ s, c)).
Proof.
  intros Hq H. rewrite <- app_assoc. cbn [app]. rewrite <- app_assoc.
  cbn [app].
  apply in_cat_str, in_cat_class; [exact Hq |].
  apply in_cat_str, in_cat_class; [exact Hq | exact H].
Qed.

Lemma in_cat_nil (x : mstate) : In x (matches (Cat []) x).
Proof. now left. Qed.

Lemma group_alt_found (n : nat) (r1 r2 : regex) (x z : mstate) :
  In z (matches r1 x) \/ In z (matches r2 x) ->
  matches (Group n (Alt r1 r2)) x <> [].
Proof.
  intros H Hnil. cbn [matches] in Hnil. apply map_eq_nil in Hnil.
  assert (Hin : In z (matches r1 x ++ matches r2 x))
    by (apply in_or_app; exact H).
  now rewrite Hnil in Hin.
Qed.

(** X22. An opening tag that a rewrite pattern matches is found by the pattern
    that locates the element too, when the tag has text before its first
    attribute and between its two attributes, as every tag with a name
    and a separating blank has. *)
Theorem rewritable_tag_is_located
        (q : ascii) (id_first : bool) (v pre u x w post : str) :
  is_quote q = true ->
  u <> [] -> x <> [] ->
  forallb not_gt u = true -> forallb not_gt x = true ->
  forallb not_gt w = true ->
  let text :=
    pre ++ "<"%char :: u ++ fst (attrs q id_first v) ++ x
        ++ snd (attrs q id_first v) ++ w ++ ">"%char :: post in
  is_some (search (pat q id_first v) text) = true
  /\ is_some (search (locate_re v) text) = true.
Proof.
  intros Hq Hu0 Hx0 Hu Hx Hw. cbv zeta.
  assert (Hsome : forall (r : regex) (s : str),
             matches r (s, []) <> [] -> is_some (search r (pre ++ s)) = true).
  { intros r s H. pose proof (search_found r pre s H) as Hf.
    destruct (search r (pre ++ s)); [reflexivity | congruence]. }
  split.
  - apply Hsome. intros Hnil.
    assert (Hin : In (post, [])
                     (matches (pat q id_first v)
                        ("<"%char :: u ++ fst (attrs q id_first v) ++ x
                           ++ snd (attrs q id_first v) ++ w
                           ++ ">"%char :: post, []))).
    { rewrite pat_attrs. apply in_tag_re. split; [| reflexivity].
      exists u, x, w. auto. }
    now rewrite Hnil in Hin.
  - apply Hsome. unfold locate_re.
    destruct id_first; cbn [attrs fst snd].
    + apply (group_alt_found _ _ _ _ (w ++ ">"%char :: post, [])). left.
      apply in_cat_lit, in_cat_some; try assumption.
      apply (in_cat_attr (L "id=") v q); [exact Hq |].
      apply in_cat_some; try assumption.
      rewrite <- (app_nil_r (class_tkk q)) at 1.
      unfold class_tkk. rewrite <- !app_assoc. cbn [app].
      rewrite <- !app_assoc. cbn [app].
      apply in_cat_str, in_cat_class; [exact Hq |].
      apply in_cat_str, in_cat_class; [exact Hq |]. apply in_cat_nil.
    + apply (group_alt_found _ _ _ _ (post, [])). right.
      apply in_cat_lit, in_cat_some; try assumption.
      apply (in_cat_attr (L "class=") (L "tkk") q); [exact Hq |].
      apply in_cat_some; try assumption.
      apply (in_cat_attr (L "id=") v q); [exact Hq |].
      apply in_cat_lazy; [exact Hw |].
      apply in_cat_lit, in_cat_nil.
Qed.

Lemma rewritable_tag_is_located_witness :
  let text :=
    L "<svg>" ++ "<"%char :: L "g " ++ fst (attrs sq true (L "a")) ++ L " "
      ++ snd (attrs sq true (L "a")) ++ [] ++ ">"%char :: L "</g></svg>" in
  is_some (search (pat sq true (L "a")) text) = true
  /\ is_some (search (locate_re (L "a")) text) = true.
Proof.
  apply (rewritable_tag_is_located sq true (L "a") (L "<svg>") (L "g ")
                                   (L " ") [] (L "</g></svg>"));
    try reflexivity; discriminate.
Defined.
